(** * Page behaviour controller of the site (js/main.js)

    A shallow embedding of the script that drives the static pages: the two
    duration texts, the intersection reveal, the scroll-driven navigation
    highlight and the cosmetic click and key handlers, followed by the
    properties of the script that hold on it. *)

From Stdlib Require Import ZArith QArith Qabs Qround Qpower Lia Lqa Ascii String DecimalString.
From Stdlib Require Import SpecFloat.
From stdpp Require Import base list strings.

Local Open Scope Z_scope.

(** ** JavaScript values used by the script *)

Module JS.

(** [n + "..."] for an integral Number below 10^21: its decimal digits. *)
Definition numberToString (z : Z) : string :=
  NilZero.string_of_int (Z.to_int z).

(** [Boolean(s)] on a string: every string but the empty one is truthy. *)
Definition Boolean (s : string) : bool :=
  match s with
  | EmptyString => false
  | String _ _ => true
  end.

(** [Array.prototype.join]. *)
Fixpoint join (sep : string) (parts : list string) : string :=
  match parts with
  | [] => ""
  | [p] => p
  | p :: rest => p +:+ sep +:+ join sep rest
  end.

(** [String.prototype.toLowerCase] on the characters of the ASCII range; a
    character outside A-Z is left as it is. *)
Definition lowerAscii (c : ascii) : ascii :=
  let n := nat_of_ascii c in
  if (Nat.leb 65 n && Nat.leb n 90)%bool then ascii_of_nat (n + 32) else c.

Fixpoint toLowerCase (s : string) : string :=
  match s with
  | EmptyString => EmptyString
  | String c rest => String (lowerAscii c) (toLowerCase rest)
  end.

(** [String.prototype.startsWith]. *)
Definition startsWith (s pre : string) : bool := String.prefix pre s.

(** [String.prototype.endsWith]. *)
Definition endsWith (s suf : string) : bool :=
  Nat.leb (String.length suf) (String.length s) &&
  String.eqb (String.substring (String.length s - String.length suf)
                               (String.length suf) s) suf.

(** [String.prototype.includes]. *)
Fixpoint includes (s sub : string) : bool :=
  String.prefix sub s ||
  match s with
  | EmptyString => false
  | String _ rest => includes rest sub
  end.

(** A string of decimal digits. *)
Definition isDigit (c : ascii) : bool :=
  let n := nat_of_ascii c in (Nat.leb 48 n && Nat.leb n 57)%bool.

Fixpoint digitsOnly (s : string) : bool :=
  match s with
  | EmptyString => true
  | String c rest => isDigit c && digitsOnly rest
  end.

(** [s.substring(n)]. *)
Definition substringFrom (n : nat) (s : string) : string :=
  String.substring n (String.length s - n) s.

End JS.

(** ** Number arithmetic

    A Number is a binary64 value; the finite ones are rationals and every
    operation rounds the exact result to the nearest value with a 53-bit
    significand, ties to the even significand. The exponent is left
    unbounded: what the script computes stays far from overflow and from the
    subnormal range. *)

Module Binary64.

Definition two_pow (e : Z) : Q := Qpower 2 e.

(** The binade of a positive rational: [2^ilog2 x <= x < 2^(ilog2 x + 1)]. *)
Definition ilog2 (x : Q) : Z :=
  let c := Z.log2 (Qnum x) - Z.log2 (Zpos (Qden x)) in
  if Qle_bool (two_pow c) x then c else c - 1.

Definition roundHalfEven (t : Q) : Z :=
  let f := Qfloor t in
  match Qcompare (t - inject_Z f) (1 # 2) with
  | Lt => f
  | Gt => f + 1
  | Eq => if Z.even f then f else f + 1
  end.

(** The exponent of the last place of [x]. *)
Definition ulpExp (x : Q) : Z := ilog2 (Qabs x) - 52.

Definition round (x : Q) : Q :=
  if Qeq_bool x 0 then 0
  else inject_Z (roundHalfEven (x / two_pow (ulpExp x))) * two_pow (ulpExp x).

Definition fadd (a b : Q) : Q := round (a + b).
Definition fsub (a b : Q) : Q := round (a - b).
Definition fmul (a b : Q) : Q := round (a * b).
Definition fdiv (a b : Q) : Q := round (a / b).

(** [Math.floor] *)
Definition floor (x : Q) : Z := Qfloor x.

(** The same operations in the Standard Library's IEEE 754 reference
    implementation, to compare with. *)
Definition SFofZ (z : Z) : spec_float := binary_normalize 53 1024 z 0 false.

Definition SFvalue (f : spec_float) : Q :=
  match f with
  | S754_finite s m e =>
      (if s then - inject_Z (Zpos m) else inject_Z (Zpos m)) * two_pow e
  | _ => 0
  end.

End Binary64.

(** ** Dates

    A [Date] object is seen through the three getters the script calls.
    [new Date(y, m, d)] builds local midnight of a calendar day; [tza] is the
    time zone of the visitor: the offset of local time from UTC, in
    milliseconds, at a given local time. *)

Record JSDate := mkDate {
  getTime : Z;      (* time value: milliseconds since the epoch, UTC *)
  getFullYear : Z;  (* local calendar year *)
  getMonth : Z      (* local calendar month, 0 = January .. 11 = December *)
}.

Definition msPerDay : Z := 86400000.

Definition DayFromYear (y : Z) : Z :=
  365 * (y - 1970) + (y - 1969) / 4 - (y - 1901) / 100 + (y - 1601) / 400.

Definition InLeapYear (y : Z) : bool :=
  (y mod 4 =? 0) && (negb (y mod 100 =? 0) || (y mod 400 =? 0)).

Definition daysBeforeMonth (leap : bool) (m : Z) : Z :=
  nth (Z.to_nat m) [0; 31; 59; 90; 120; 151; 181; 212; 243; 273; 304; 334] 0
  + (if leap && (2 <=? m) then 1 else 0).

Definition MakeDay (y m d : Z) : Z :=
  let ym := y + m / 12 in
  let mn := m mod 12 in
  DayFromYear ym + daysBeforeMonth (InLeapYear ym) mn + d - 1.

(** Local midnight of a calendar day, in milliseconds of local time. *)
Definition localMidnight (y m d : Z) : Z := MakeDay y m d * msPerDay.

Definition newDate (tza : Z -> Z) (y m d : Z) : JSDate :=
  {| getTime := localMidnight y m d - tza (localMidnight y m d);
     getFullYear := y + m / 12;
     getMonth := m mod 12 |}.

(** What every [Date] satisfies: the month getter answers 0..11. *)
Definition validDate (d : JSDate) : Prop := 0 <= getMonth d <= 11.


(** ** CONFIG *)

Record Config := mkConfig {
  yoeStartDate : JSDate;
  crunchrStartDate : JSDate;
  headerOffset : Z;
  scrollThreshold : Z;
  footnoteScrollDelay : Z
}.

Definition CONFIG (tza : Z -> Z) : Config :=
  {| yoeStartDate := newDate tza 2024 8 10;
     crunchrStartDate := newDate tza 2022 11 1;
     headerOffset := 100;
     scrollThreshold := 50;
     footnoteScrollDelay := 350 |}.

(** ** calculateYOE *)

(** [1000 * 60 * 60 * 24 * 365.25] *)
Definition msPerYear : Q :=
  Binary64.fmul (Binary64.fmul (Binary64.fmul (Binary64.fmul 1000 60) 60) 24)
                (36525 # 100).

Definition yoeTotalYears (tza : Z -> Z) (now : JSDate) : Z :=
  let fiveYearMilestone := yoeStartDate (CONFIG tza) in
  let additionalMs :=
    Binary64.fsub (inject_Z (getTime now)) (inject_Z (getTime fiveYearMilestone)) in
  let additionalYears := Binary64.fdiv additionalMs msPerYear in
  Binary64.floor (Binary64.fadd 5 additionalYears).

Definition calculateYOE (tza : Z -> Z) (now : JSDate) : string :=
  JS.numberToString (yoeTotalYears tza now) +:+ "+".

(** ** calculateCrunchrDuration *)

(** The two counters after the borrow step (lines 72-78). *)
Definition elapsedYearsMonths (startDate now : JSDate) : Z * Z :=
  let years := getFullYear now - getFullYear startDate in
  let months := getMonth now - getMonth startDate in
  if months <? 0 then (years - 1, months + 12) else (years, months).

Definition crunchrElapsed (tza : Z -> Z) (now : JSDate) : Z * Z :=
  elapsedYearsMonths (crunchrStartDate (CONFIG tza)) now.

Definition yearStr (years : Z) : string :=
  if 0 <? years then JS.numberToString years +:+ "yr" else "".

Definition monthStr (months : Z) : string :=
  if 0 <? months then JS.numberToString months +:+ "mo" else "".

Definition calculateCrunchrDuration (tza : Z -> Z) (now : JSDate) : string :=
  let '(years, months) := crunchrElapsed tza now in
  JS.join " " (List.filter JS.Boolean [yearStr years; monthStr months]).

(** ** The document

    Elements live in a store in tree order and the script holds them by
    handle, so that two lookups that find the same element share its class
    list. The script inserts no element. It takes elements out of the
    document where it sets [textContent]: what was below the element is
    then in a tree of its own, still in the store for whoever holds it, and
    no lookup in the document finds it. *)

Abbreviation Handle := nat (only parsing).

Record Element := mkElement {
  localName : string;               (* what a type selector compares: "a" for
                                       an HTML [a] and for an SVG [a] alike *)
  tagName : string;                 (* as [el.tagName] answers: upper case for
                                       an HTML element *)
  idAttr : option string;           (* [getAttribute("id")] *)
  hrefAttr : option string;         (* [getAttribute("href")] *)
  classList : list string;          (* the tokens of [el.classList] *)
  ownText : string;                 (* the text nodes among its children *)
  parentNode : option Handle;
  isConnected : bool;               (* in the document *)
  isContentEditable : bool
}.

Abbreviation Dom := (list Element) (only parsing).

(** *** DOMTokenList *)

Module ClassList.

Definition contains (c : string) (cl : list string) : bool :=
  existsb (String.eqb c) cl.

Definition add (c : string) (cl : list string) : list string :=
  if contains c cl then cl else cl ++ [c].

Definition remove (c : string) (cl : list string) : list string :=
  List.filter (fun x => negb (String.eqb c x)) cl.

Definition toggle (c : string) (cl : list string) : list string :=
  if contains c cl then remove c cl else cl ++ [c].

End ClassList.

Definition withClassList (f : list string -> list string) (el : Element) : Element :=
  {| localName := localName el; tagName := tagName el;
     idAttr := idAttr el; hrefAttr := hrefAttr el;
     classList := f (classList el); ownText := ownText el;
     parentNode := parentNode el; isConnected := isConnected el;
     isContentEditable := isContentEditable el |}.

Definition withHref (v : string) (el : Element) : Element :=
  {| localName := localName el; tagName := tagName el;
     idAttr := idAttr el; hrefAttr := Some v;
     classList := classList el; ownText := ownText el;
     parentNode := parentNode el; isConnected := isConnected el;
     isContentEditable := isContentEditable el |}.

(** The element with the one text node [v] for its children. *)
Definition withOwnText (v : string) (el : Element) : Element :=
  {| localName := localName el; tagName := tagName el;
     idAttr := idAttr el; hrefAttr := hrefAttr el;
     classList := classList el; ownText := v;
     parentNode := parentNode el; isConnected := isConnected el;
     isContentEditable := isContentEditable el |}.

(** An element that leaves the document because the children of its
    ancestor [h] are taken away: a child of [h] has no parent any more, a
    deeper one keeps its own. *)
Definition detached (h : Handle) (el : Element) : Element :=
  {| localName := localName el; tagName := tagName el;
     idAttr := idAttr el; hrefAttr := hrefAttr el;
     classList := classList el; ownText := ownText el;
     parentNode := if bool_decide (parentNode el = Some h) then None else parentNode el;
     isConnected := false;
     isContentEditable := isContentEditable el |}.

Definition hasClass (d : Dom) (h : Handle) (c : string) : bool :=
  match d !! h with
  | Some el => ClassList.contains c (classList el)
  | None => false
  end.

(** *** Selectors *)

Fixpoint ancestors (fuel : nat) (d : Dom) (h : Handle) : list Handle :=
  match fuel with
  | O => []
  | S fuel' =>
      match d !! h ≫= parentNode with
      | Some p => p :: ancestors fuel' d p
      | None => []
      end
  end.

(** [h] is above [j]. *)
Definition isDescendantOf (d : Dom) (h j : Handle) : bool :=
  existsb (Nat.eqb h) (ancestors (length d) d j).

Definition connected (d : Dom) (h : Handle) : bool :=
  match d !! h with
  | Some el => isConnected el
  | None => false
  end.

Definition Selector := Dom -> Handle -> bool.

(** A type selector written in lower case: it matches by local name, in
    whatever namespace the element is. *)
Definition localNameIs (n : string) : Selector := fun d h =>
  match d !! h with
  | Some el => String.eqb (localName el) n
  | None => false
  end.

(** [a] *)
Definition sel_a : Selector := localNameIs "a".

(** [section] *)
Definition sel_section : Selector := localNameIs "section".

(** [section[id]] *)
Definition sel_section_id : Selector := fun d h =>
  sel_section d h &&
  match d !! h ≫= idAttr with Some _ => true | None => false end.

(** [nav a[href^='#']] *)
Definition sel_nav_a_hash : Selector := fun d h =>
  sel_a d h &&
  match d !! h ≫= hrefAttr with
  | Some v => JS.startsWith v "#"
  | None => false
  end &&
  existsb (localNameIs "nav" d) (ancestors (length d) d h).

(** [.c] *)
Definition sel_class (c : string) : Selector := fun d h => hasClass d h c.

(** [#id], as [getElementById] matches it *)
Definition sel_id (i : string) : Selector := fun d h =>
  match d !! h ≫= idAttr with
  | Some v => String.eqb v i
  | None => false
  end.

(** [.terminal-control.close] *)
Definition sel_terminal_close : Selector := fun d h =>
  hasClass d h "terminal-control" && hasClass d h "close".

(** [document.querySelectorAll]: the elements of the document that match,
    in tree order. *)
Definition querySelectorAll (sel : Selector) (d : Dom) : list Handle :=
  List.filter (fun h => connected d h && sel d h) (seq 0 (length d)).

Definition querySelector (sel : Selector) (d : Dom) : option Handle :=
  head (querySelectorAll sel d).

(** [root.querySelector]: the first match below the element [root], in the
    document or not. *)
Definition querySelectorBelow (root : Handle) (sel : Selector) (d : Dom)
  : option Handle :=
  head (List.filter (fun h => isDescendantOf d root h && sel d h) (seq 0 (length d))).

Definition getElementById (i : string) (d : Dom) : option Handle :=
  querySelector (sel_id i) d.

(** ** Window, location and events *)

Record Location := mkLocation {
  protocol : string;
  hostname : string;
  pathname : string;
  href : string
}.

(** What a handler reads from [window] and [document] when it runs. The
    layout and the focus are the browser's: they are given anew with every
    event. The script stands at the end of the body, so the document it runs
    in has a body: [document.body] is an element, and so is
    [document.activeElement], which is the body when the focus is on nothing
    else. *)
Record Window := mkWindow {
  scrollY : Q;
  innerHeight : Z;
  bodyOffsetHeight : Z;             (* [document.body.offsetHeight] *)
  bodyScrollHeight : Z;             (* [document.body.scrollHeight] *)
  offsetTop : Handle -> Z;
  offsetHeight : Handle -> Z;
  activeElement : Handle;           (* [document.activeElement] *)
  location : Location
}.

Record KeyboardEvent := mkKey {
  key : string;
  metaKey : bool;
  ctrlKey : bool
}.

Inductive Timer : Type :=
| TimerFootnoteScroll
| TimerReleaseCornerLogo.

(** What a handler asks of the browser besides changing the document. *)
Inductive Effect : Type :=
| StopPropagation
| PreventDefault
| ScrollTo (top : Z)
| Navigate (url : string)
| SetTimeout (t : Timer) (delay : Z).

Inductive Event : Type :=
| EvScroll
| EvIntersection (entries : list (Handle * bool))
| EvClickClose
| EvClickFooterOrigin
| EvClickLogo
| EvClickCornerLogo
| EvKeyDown (e : KeyboardEvent)
| EvKeyUp (e : KeyboardEvent)
| EvTimer (t : Timer).

(** ** Running the script: a state monad with TypeError

    The state is the document and the effects issued so far; it survives a
    throw, as the document does when a handler dies. *)

Record Page := mkPage {
  dom : Dom;
  effects : list Effect
}.

Inductive Completion (A : Type) : Type :=
| Normal (a : A)
| TypeError.
Arguments Normal {A} a.
Arguments TypeError {A}.

Definition Run (A : Type) : Type := Page -> Completion A * Page.

#[export] Instance Run_ret : MRet Run := fun A a p => (Normal a, p).

#[export] Instance Run_bind : MBind Run := fun A B k m p =>
  match m p with
  | (Normal a, p') => k a p'
  | (TypeError, p') => (TypeError, p')
  end.

Definition setDom (d : Dom) (p : Page) : Page :=
  {| dom := d; effects := effects p |}.

Definition getDom : Run Dom := fun p => (Normal (dom p), p).

Definition modifyDom (f : Dom -> Dom) : Run unit := fun p =>
  (Normal tt, setDom (f (dom p)) p).

Definition emit (e : Effect) : Run unit := fun p =>
  (Normal tt, {| dom := dom p; effects := effects p ++ [e] |}).

(** Reading a property of [o]: a TypeError when [o] is null. *)
Definition deref {A} (o : option A) : Run A := fun p =>
  match o with
  | Some a => (Normal a, p)
  | None => (TypeError, p)
  end.

Fixpoint forEach {A} (l : list A) (f : A -> Run unit) : Run unit :=
  match l with
  | [] => mret tt
  | x :: rest => f x ;; forEach rest f
  end.

(** A loop that hands a value from one round to the next. *)
Fixpoint foldM {A B} (f : B -> A -> Run B) (b : B) (l : list A) : Run B :=
  match l with
  | [] => mret b
  | x :: rest => b' ← f b x; foldM f b' rest
  end.

Definition classList_add (h : Handle) (c : string) : Run unit :=
  modifyDom (alter (withClassList (ClassList.add c)) h).

Definition classList_remove (h : Handle) (c : string) : Run unit :=
  modifyDom (alter (withClassList (ClassList.remove c)) h).

Definition classList_toggle (h : Handle) (c : string) : Run unit :=
  modifyDom (alter (withClassList (ClassList.toggle c)) h).

Definition classList_contains (h : Handle) (c : string) : Run bool :=
  d ← getDom; mret (hasClass d h c).

Definition getAttribute_href (h : Handle) : Run (option string) :=
  d ← getDom; mret (d !! h ≫= hrefAttr).

Definition getAttribute_id (h : Handle) : Run (option string) :=
  d ← getDom; mret (d !! h ≫= idAttr).

Definition setAttribute_href (h : Handle) (v : string) : Run unit :=
  modifyDom (alter (withHref v) h).

(** What [el.textContent = v] makes of the document: every element below
    [el] leaves it, and [el] is left with one text node. *)
Definition replaceChildrenWithText (h : Handle) (v : string) (d : Dom) : Dom :=
  imap (fun j el =>
          if Nat.eqb j h then withOwnText v el
          else if isDescendantOf d h j then detached h el
          else el) d.

Definition set_textContent (h : Handle) (v : string) : Run unit :=
  modifyDom (replaceChildrenWithText h v).

Definition get_tagName (h : Handle) : Run string :=
  d ← getDom; mret (default "" (tagName <$> d !! h)).

Definition get_isContentEditable (h : Handle) : Run bool :=
  d ← getDom; mret (default false (isContentEditable <$> d !! h)).

(** ** The script *)

(** [a < b] on Numbers. The sums and differences of the script are those of
    Numbers: [window.scrollY] is any double, the other lengths are integral,
    and each [+] and [-] rounds its result to the nearest double. *)
Definition Qlt_bool (a b : Q) : bool := negb (Qle_bool b a).

(** The handles the script keeps after it has run once. *)
Record Script := mkScript {
  navLinks : list Handle;
  sections : list Handle;
  observed : list Handle;           (* sections given to [observer.observe] *)
  terminal : option Handle;
  closeButton : option Handle;
  footerOrigin : option Handle;
  logo : option Handle;
  logoIsHomePage : bool;
  cornerLogo : option Handle
}.

(** [routes[href]]: the three own keys, then whatever a plain object
    inherits under that name (given by the host, as the string it turns
    into); a null [href] reads the key "null". *)
Definition routes (inherited : string -> option string) (href : option string)
  : option string :=
  let k := default "null" href in
  if String.eqb k "/" then Some "index.html"
  else if String.eqb k "/imprint" then Some "imprint.html"
  else if String.eqb k "/resume" then Some "resume.html"
  else inherited k.

Definition initSmartLinks (inherited : string -> option string) (w : Window)
  : Run unit :=
  let isFileProtocol := String.eqb (protocol (location w)) "file:" in
  let isLocalhost :=
    String.eqb (hostname (location w)) "localhost" ||
    String.eqb (hostname (location w)) "127.0.0.1" ||
    String.eqb (hostname (location w)) "" in
  if negb isFileProtocol && negb isLocalhost then mret tt
  else
    d ← getDom;
    forEach (querySelectorAll sel_a d) (fun link =>
      href ← getAttribute_href link;
      match routes inherited href with
      | Some r => if JS.Boolean r then setAttribute_href link r else mret tt
      | None => mret tt
      end;;
      match href with
      | Some v =>
          if JS.Boolean v && JS.startsWith v "/#"
          then setAttribute_href link ("index.html" +:+ JS.substringFrom 1 v)
          else mret tt
      | None => mret tt
      end).

(** The IntersectionObserver callback. *)
Definition observerCallback (entries : list (Handle * bool)) : Run unit :=
  forEach entries (fun entry =>
    if snd entry then classList_add (fst entry) "visible" else mret tt).

Definition clearActive (links : list Handle) : Run unit :=
  forEach links (fun link => classList_remove link "active").

(** The links' round for a section that contains the scroll position
    (lines 155-160). *)
Definition markLinksFor (links : list Handle) (sectionId : option string) : Run unit :=
  forEach links (fun link =>
    classList_remove link "active";;
    href ← getAttribute_href link;
    if bool_decide (href = Some ("#" +:+ default "null" sectionId))
    then classList_add link "active" else mret tt).

(** One call of the callback of [sections.forEach] (lines 149-163);
    [activeFound] is the flag it shares with its caller. *)
Definition visitSection (cfg : Config) (links : list Handle) (w : Window)
    (activeFound : bool) (section : Handle) : Run bool :=
  let scrollPos := Binary64.fadd (scrollY w) (inject_Z (headerOffset cfg)) in
  let sectionTop := offsetTop w section in
  let sectionHeight := offsetHeight w section in
  sectionId ← getAttribute_id section;
  if Qle_bool (inject_Z sectionTop) scrollPos &&
     Qlt_bool scrollPos (Binary64.fadd (inject_Z sectionTop) (inject_Z sectionHeight))
  then markLinksFor links sectionId;; mret true
  else mret activeFound.

Definition updateActiveNav (cfg : Config) (links secs : list Handle) (w : Window)
  : Run unit :=
  let scrollPos := Binary64.fadd (scrollY w) (inject_Z (headerOffset cfg)) in
  let bottomReached :=
    Qle_bool (Binary64.fsub (inject_Z (bodyOffsetHeight w))
                            (inject_Z (scrollThreshold cfg)))
             (Binary64.fadd (inject_Z (innerHeight w)) (scrollY w)) in
  if bottomReached then
    clearActive links;;
    match last links with
    | Some lastLink => classList_add lastLink "active"
    | None => mret tt
    end
  else
    let aboveFirst :=
      match head secs with
      | Some firstSection => Qlt_bool scrollPos (inject_Z (offsetTop w firstSection))
      | None => false
      end in
    if aboveFirst then clearActive links
    else
      activeFound ← foldM (visitSection cfg links w) false secs;
      if negb activeFound then clearActive links else mret tt.

Definition isHomePage (loc : Location) : bool :=
  String.eqb (pathname loc) "/" ||
  JS.endsWith (pathname loc) "/index.html" ||
  String.eqb (pathname loc) "" ||
  JS.endsWith (href loc) "/index.html".

(** The block DYNAMIC CONTENT (lines 87-101). The three elements are looked
    up before the first text is set; each [new Date()] reads the clock
    anew. *)
Definition dynamicContent (tza : Z -> Z) (nowYoe nowCrunchr nowYear : JSDate) : Run unit :=
  d ← getDom;
  match getElementById "yoe" d with
  | Some yoeElement => set_textContent yoeElement (calculateYOE tza nowYoe)
  | None => mret tt
  end;;
  match getElementById "crunchr-duration" d with
  | Some crunchrDurationElement =>
      set_textContent crunchrDurationElement (calculateCrunchrDuration tza nowCrunchr)
  | None => mret tt
  end;;
  match getElementById "year" d with
  | Some yearElement =>
      set_textContent yearElement (JS.numberToString (getFullYear nowYear))
  | None => mret tt
  end.

(** The script from top to bottom, as it runs once at the end of the body;
    what it answers is the handles its listeners keep. *)
Definition init (inherited : string -> option string) (tza : Z -> Z)
    (nowYoe nowCrunchr nowYear : JSDate) (w : Window) : Run Script :=
  initSmartLinks inherited w;;
  dynamicContent tza nowYoe nowCrunchr nowYear;;
  d ← getDom;
  let toObserve :=
    List.filter (fun section => negb (hasClass d section "visible"))
                (querySelectorAll sel_section d) in
  let links := querySelectorAll sel_nav_a_hash d in
  let secs := querySelectorAll sel_section_id d in
  updateActiveNav (CONFIG tza) links secs w;;
  d ← getDom;
  let term := getElementById "work-terminal" d in
  let close :=
    match term with
    | Some t => querySelectorBelow t sel_terminal_close d
    | None => None
    end in
  mret {| navLinks := links;
          sections := secs;
          observed := toObserve;
          terminal := term;
          closeButton := close;
          footerOrigin := querySelector (sel_class "footer-origin") d;
          logo := querySelector (sel_class "logo") d;
          logoIsHomePage := isHomePage (location w);
          cornerLogo := querySelector (sel_class "corner-logo") d |}.

(** *** Listeners *)

Definition onCloseClick (s : Script) : Run unit :=
  emit StopPropagation;;
  t ← deref (terminal s);
  classList_add t "hidden".

Definition onFooterOriginClick (cfg : Config) (this : Handle) : Run unit :=
  classList_toggle this "expanded";;
  expanded ← classList_contains this "expanded";
  if expanded : bool
  then emit (SetTimeout TimerFootnoteScroll (footnoteScrollDelay cfg))
  else mret tt.

Definition onLogoClick (s : Script) : Run unit :=
  if logoIsHomePage s then emit PreventDefault;; emit (ScrollTo 0) else mret tt.

Definition onKeyDown (corner : Handle) (w : Window) (e : KeyboardEvent) : Run unit :=
  if String.eqb (JS.toLowerCase (key e)) "v" && negb (metaKey e) && negb (ctrlKey e)
  then
    tag ← get_tagName (activeElement w);
    if negb (String.eqb tag "INPUT") then
      tag ← get_tagName (activeElement w);
      if negb (String.eqb tag "TEXTAREA") then
        editable ← get_isContentEditable (activeElement w);
        if negb editable then classList_add corner "pressed" else mret tt
      else mret tt
    else mret tt
  else mret tt.

Definition onKeyUp (corner : Handle) (e : KeyboardEvent) : Run unit :=
  if String.eqb (JS.toLowerCase (key e)) "v"
  then classList_remove corner "pressed" else mret tt.

Definition onCornerLogoClick (corner : Handle) (w : Window) : Run unit :=
  classList_add corner "pressed";;
  (if isHomePage (location w) then emit (ScrollTo 0) else emit (Navigate "/"));;
  emit (SetTimeout TimerReleaseCornerLogo 100).

Definition onScrollHint (cfg : Config) (w : Window) : Run unit :=
  d ← getDom;
  match querySelector (sel_class "scroll-hint") d with
  | Some hint =>
      if Qlt_bool (inject_Z (scrollThreshold cfg)) (scrollY w)
      then classList_add hint "hidden" else mret tt
  | None => mret tt
  end.

Definition onFootnoteScrollTimer (w : Window) : Run unit :=
  emit (ScrollTo (bodyScrollHeight w)).

Definition onReleaseCornerLogoTimer (corner : Handle) : Run unit :=
  classList_remove corner "pressed".

(** The listeners an event reaches, in the order they were added. A listener
    that was never added, because its element is missing, is not there; nor
    is a timer that only such a listener starts. *)
Definition listeners (tza : Z -> Z) (s : Script) (w : Window) (ev : Event)
  : list (Run unit) :=
  match ev with
  | EvScroll =>
      [updateActiveNav (CONFIG tza) (navLinks s) (sections s) w;
       onScrollHint (CONFIG tza) w]
  | EvIntersection entries => [observerCallback entries]
  | EvClickClose =>
      match closeButton s with Some _ => [onCloseClick s] | None => [] end
  | EvClickFooterOrigin =>
      match footerOrigin s with
      | Some this => [onFooterOriginClick (CONFIG tza) this]
      | None => []
      end
  | EvClickLogo =>
      match logo s with Some _ => [onLogoClick s] | None => [] end
  | EvClickCornerLogo =>
      match cornerLogo s with
      | Some corner => [onCornerLogoClick corner w]
      | None => []
      end
  | EvKeyDown e =>
      match cornerLogo s with Some corner => [onKeyDown corner w e] | None => [] end
  | EvKeyUp e =>
      match cornerLogo s with Some corner => [onKeyUp corner e] | None => [] end
  | EvTimer TimerFootnoteScroll =>
      match footerOrigin s with
      | Some _ => [onFootnoteScrollTimer w]
      | None => []
      end
  | EvTimer TimerReleaseCornerLogo =>
      match cornerLogo s with
      | Some corner => [onReleaseCornerLogoTimer corner]
      | None => []
      end
  end.

(** One event: every listener runs to its completion; a listener that
    throws stops there and the next one still runs. The completions are
    kept, the first listener's first. *)
Fixpoint runListeners (ls : list (Run unit)) (p : Page)
  : list (Completion unit) * Page :=
  match ls with
  | [] => ([], p)
  | l :: rest =>
      let '(c, p') := l p in
      let '(cs, p'') := runListeners rest p' in
      (c :: cs, p'')
  end.

Definition dispatch (tza : Z -> Z) (s : Script) (p : Page) (we : Window * Event)
  : list (Completion unit) * Page :=
  runListeners (listeners tza s (fst we) (snd we)) p.

Definition step (tza : Z -> Z) (s : Script) (p : Page) (we : Window * Event) : Page :=
  snd (dispatch tza s p we).

Definition runEvents (tza : Z -> Z) (s : Script) (p : Page) (evs : list (Window * Event))
  : Page :=
  foldl (step tza s) p evs.

(** The href attributes of the navigation links, in their order. *)
Definition linkHrefs (s : Script) (d : Dom) : list (option string) :=
  (fun link => d !! link ≫= hrefAttr) <$> navLinks s.

(** The navigation links that carry the class "active". *)
Definition activeLinks (s : Script) (d : Dom) : list Handle :=
  List.filter (fun link => hasClass d link "active") (navLinks s).

(** ** What a run of updateActiveNav decides

    The four cases of the tracker in their priority order, as a function from
    a link to whether it ends up active. *)

Definition bottomReached (cfg : Config) (w : Window) : bool :=
  Qle_bool (Binary64.fsub (inject_Z (bodyOffsetHeight w))
                          (inject_Z (scrollThreshold cfg)))
           (Binary64.fadd (inject_Z (innerHeight w)) (scrollY w)).

Definition aboveFirstSection (cfg : Config) (secs : list Handle) (w : Window) : bool :=
  match head secs with
  | Some firstSection =>
      Qlt_bool (Binary64.fadd (scrollY w) (inject_Z (headerOffset cfg)))
               (inject_Z (offsetTop w firstSection))
  | None => false
  end.

Definition sectionContains (cfg : Config) (w : Window) (section : Handle) : bool :=
  Qle_bool (inject_Z (offsetTop w section))
           (Binary64.fadd (scrollY w) (inject_Z (headerOffset cfg))) &&
  Qlt_bool (Binary64.fadd (scrollY w) (inject_Z (headerOffset cfg)))
           (Binary64.fadd (inject_Z (offsetTop w section))
                          (inject_Z (offsetHeight w section))).

(** The href that the last section containing the scroll position asks for. *)
Definition matchedHref (cfg : Config) (secs : list Handle) (w : Window) (d : Dom)
  : option string :=
  foldl (fun acc section =>
           if sectionContains cfg w section
           then Some ("#" +:+ default "null" (d !! section ≫= idAttr))
           else acc) None secs.

Definition hrefIs (d : Dom) (target : string) (link : Handle) : bool :=
  bool_decide (d !! link ≫= hrefAttr = Some target).

Definition navOn (cfg : Config) (links secs : list Handle) (w : Window) (d : Dom)
  : Handle -> bool :=
  if bottomReached cfg w then fun link => bool_decide (last links = Some link)
  else if aboveFirstSection cfg secs w then fun _ => false
  else match matchedHref cfg secs w d with
       | Some target => hrefIs d target
       | None => fun _ => false
       end.

Definition activeOp (on : bool) (cl : list string) : list string :=
  if on then ClassList.add "active" (ClassList.remove "active" cl)
  else ClassList.remove "active" cl.

Definition setActive (on : Handle -> bool) (links : list Handle) (d : Dom) : Dom :=
  foldl (fun d link => alter (withClassList (activeOp (on link))) link d) d links.

(** ** Relations between two states of the document *)

(** Everything but the class lists. *)
Definition attrs (d : Dom) : list Element := withClassList (fun _ => []) <$> d.

(** No element has lost the class [c]. *)
Definition keepsClass (c : string) (d d' : Dom) : Prop :=
  forall h, hasClass d h c = true -> hasClass d' h c = true.

(** The class [c] is where it was, and so are the attributes. *)
Definition sameClass (c : string) (d d' : Dom) : Prop :=
  attrs d = attrs d' /\ forall h, hasClass d h c = hasClass d' h c.

(** The local names and the class lists are what they were. *)
Definition sameTagsAndClasses (d d' : Dom) : Prop :=
  forall h, (localName <$> d !! h) = (localName <$> d' !! h) /\
            (classList <$> d !! h) = (classList <$> d' !! h).

(** A computation relates the document it starts from to the one it leaves,
    whether it completes or throws. *)
Definition preserves (R : Dom -> Dom -> Prop) {A} (m : Run A) : Prop :=
  forall p, R (dom p) (dom (snd (m p))).

(** A computation that never throws. *)
Definition total {A} (m : Run A) : Prop :=
  forall p, exists a, fst (m p) = Normal a.

(** ** What initSmartLinks leaves of one link

    The body of its loop (lines 38-46) on the element itself: the route, if
    the href has one, and then the rewriting of "/#...", which reads the href
    the link had before. *)

Definition smartLink (inherited : string -> option string) (el : Element) : Element :=
  let href := hrefAttr el in
  let routed :=
    match routes inherited href with
    | Some r => if JS.Boolean r then withHref r el else el
    | None => el
    end in
  match href with
  | Some v =>
      if JS.Boolean v && JS.startsWith v "/#"
      then withHref ("index.html" +:+ JS.substringFrom 1 v) routed
      else routed
  | None => routed
  end.

(** The test of lines 21-29: the page is on the disk or on this machine. *)
Definition runsLocally (loc : Location) : Prop :=
  protocol loc = "file:" \/ hostname loc = "localhost" \/
  hostname loc = "127.0.0.1" \/ hostname loc = "".

(** ** Two small documents

    A page with a navigation bar, two sections and the corner logo; in the
    first the bar links twice to the same section. *)

Module Demo.

(** An HTML element of the document. *)
Definition el (tag : string) (i h : option string) (cl : list string)
    (parent : option Handle) : Element :=
  {| localName := JS.toLowerCase tag; tagName := tag;
     idAttr := i; hrefAttr := h; classList := cl;
     ownText := ""; parentNode := parent; isConnected := true;
     isContentEditable := false |}.

(** An element of an inline SVG image. *)
Definition svg (name : string) (h : option string) (parent : option Handle) : Element :=
  {| localName := name; tagName := name;
     idAttr := None; hrefAttr := h; classList := [];
     ownText := ""; parentNode := parent; isConnected := true;
     isContentEditable := false |}.

Definition twinLinks : Dom :=
  [ el "BODY" None None [] None;
    el "NAV" None None [] (Some 0%nat);
    el "A" None (Some "#about") [] (Some 1%nat);
    el "A" None (Some "#about") ["button"] (Some 1%nat);
    el "A" None (Some "#contact") [] (Some 1%nat);
    el "SECTION" (Some "about") None [] (Some 0%nat);
    el "SECTION" (Some "contact") None [] (Some 0%nat);
    el "DIV" None None ["corner-logo"] (Some 0%nat) ].

Definition plainLinks : Dom :=
  [ el "BODY" None None [] None;
    el "NAV" None None [] (Some 0%nat);
    el "A" None (Some "#about") [] (Some 1%nat);
    el "A" None (Some "#work") ["active"] (Some 1%nat);
    el "A" None (Some "#contact") ["active"] (Some 1%nat);
    el "SECTION" (Some "about") None ["visible"] (Some 0%nat);
    el "SECTION" (Some "contact") None [] (Some 0%nat);
    el "DIV" None None ["corner-logo"] (Some 0%nat) ].

(** A page where the years of experience stand in a box that holds a
    section of its own, the corner logo in it. *)
Definition nested : Dom :=
  [ el "BODY" None None [] None;
    el "NAV" None None [] (Some 0%nat);
    el "A" None (Some "#about") [] (Some 1%nat);
    el "DIV" (Some "yoe") None [] (Some 0%nat);
    el "SECTION" (Some "about") None [] (Some 3%nat);
    el "SPAN" None None ["corner-logo"] (Some 4%nat);
    el "SECTION" (Some "contact") None [] (Some 0%nat) ].

Definition page (d : Dom) : Page := {| dom := d; effects := [] |}.

(** The two sections are 1000 pixels high each, in a body of 2000. *)
Definition window (y : Q) (focus : Handle) : Window :=
  {| scrollY := y;
     innerHeight := 800;
     bodyOffsetHeight := 2000;
     bodyScrollHeight := 2000;
     offsetTop := fun h => if Nat.eqb h 6 then 1000 else 0;
     offsetHeight := fun h => if Nat.eqb h 0 then 2000 else 1000;
     activeElement := focus;
     location := {| protocol := "https:"; hostname := "vivek.ooo";
                    pathname := "/"; href := "https://vivek.ooo/" |} |}.

(** A body of 851 pixels in a window of 800, scrolled down by the double
    next below 1: the sum with 800 rounds to 801 and the sum with 100 to
    101, where the first section begins. *)
Definition shortWindow : Window :=
  {| scrollY := 9007199254740991 # 9007199254740992;
     innerHeight := 800;
     bodyOffsetHeight := 851;
     bodyScrollHeight := 851;
     offsetTop := fun h => if Nat.eqb h 5 then 101 else if Nat.eqb h 6 then 500 else 0;
     offsetHeight := fun h => if Nat.eqb h 0 then 851 else if Nat.eqb h 5 then 399 else 351;
     activeElement := 0%nat;
     location := {| protocol := "https:"; hostname := "vivek.ooo";
                    pathname := "/"; href := "https://vivek.ooo/" |} |}.

Definition noInherited : string -> option string := fun _ => None.

Definition utc : Z -> Z := fun _ => 0.

(** One hour east of Greenwich. *)
Definition cet : Z -> Z := fun _ => 3600000.

Definition today : JSDate := newDate utc 2026 10 3.

(** The script run on a document, the window at the top of the page. *)
Definition load (d : Dom) : Completion Script * Page :=
  init noInherited utc today today today (window 0 0%nat) (page d).

Definition scriptOf (d : Dom) : Script :=
  match fst (load d) with
  | Normal s => s
  | TypeError =>
      {| navLinks := []; sections := []; observed := []; terminal := None;
         closeButton := None; footerOrigin := None; logo := None;
         logoIsHomePage := false; cornerLogo := None |}
  end.

End Demo.

(** A home page with everything the script looks for: the logo, links of
    the three kinds, the terminal with its close button, the three dynamic
    texts, the footer origin, the scroll hint and the corner logo; in the
    footer an inline SVG image with a link of its own. *)

Module Home.

Definition document : Dom :=
  [ Demo.el "BODY" None None [] None;
    Demo.el "NAV" None None [] (Some 0%nat);
    Demo.el "A" None (Some "/") ["logo"] (Some 1%nat);
    Demo.el "A" None (Some "#about") [] (Some 1%nat);
    Demo.el "A" None (Some "/#contact") [] (Some 1%nat);
    Demo.el "SECTION" (Some "about") None [] (Some 0%nat);
    Demo.el "DIV" (Some "work-terminal") None [] (Some 5%nat);
    Demo.el "BUTTON" None None ["terminal-control"; "close"] (Some 6%nat);
    Demo.el "SPAN" (Some "yoe") None [] (Some 5%nat);
    Demo.el "SPAN" (Some "crunchr-duration") None [] (Some 5%nat);
    Demo.el "SECTION" (Some "contact") None [] (Some 0%nat);
    Demo.el "FOOTER" None None [] (Some 0%nat);
    Demo.el "SPAN" None None ["footer-origin"] (Some 11%nat);
    Demo.el "SPAN" (Some "year") None [] (Some 11%nat);
    Demo.el "DIV" None None ["scroll-hint"] (Some 0%nat);
    Demo.el "DIV" None None ["corner-logo"] (Some 0%nat);
    Demo.svg "svg" None (Some 11%nat);
    Demo.svg "a" (Some "/#contact") (Some 16%nat) ].

(** The page opened from the disk. *)
Definition localWindow : Window :=
  {| scrollY := 0;
     innerHeight := 800;
     bodyOffsetHeight := 2000;
     bodyScrollHeight := 2000;
     offsetTop := fun h => if Nat.eqb h 10 then 1000 else 0;
     offsetHeight := fun h => if Nat.eqb h 0 then 2000 else 1000;
     activeElement := 0%nat;
     location := {| protocol := "file:"; hostname := "";
                    pathname := "/home/site/index.html";
                    href := "file:///home/site/index.html" |} |}.

Definition load : Completion Script * Page :=
  init Demo.noInherited Demo.utc Demo.today Demo.today Demo.today
       (Demo.window 0 0%nat) (Demo.page document).

Definition script : Script :=
  match fst load with
  | Normal s => s
  | TypeError => Demo.scriptOf []
  end.

End Home.

(** ** What the block DYNAMIC CONTENT writes

    The elements the block finds, in the order it writes them, each with its
    text: the three are looked up before any text is set. *)

Definition dynamicTargets (tza : Z -> Z) (nowYoe nowCrunchr nowYear : JSDate)
    (d : Dom) : list (Handle * string) :=
  match getElementById "yoe" d with
  | Some h => [(h, calculateYOE tza nowYoe)]
  | None => []
  end ++
  match getElementById "crunchr-duration" d with
  | Some h => [(h, calculateCrunchrDuration tza nowCrunchr)]
  | None => []
  end ++
  match getElementById "year" d with
  | Some h => [(h, JS.numberToString (getFullYear nowYear))]
  | None => []
  end.

Definition setTexts (targets : list (Handle * string)) (d : Dom) : Dom :=
  foldl (fun d hv => replaceChildrenWithText (fst hv) (snd hv) d) d targets.

(** The store is in tree order: a parent comes before its children. *)
Definition treeOrder (d : Dom) : bool :=
  forallb (fun j => match d !! j ≫= parentNode with
                    | Some q => Nat.ltb q j
                    | None => true
                    end) (seq 0 (length d)).

(** ** What the script asks of the browser

    A computation adds to the effects issued so far, and what it adds is in
    [P]; this whether it completes or throws. *)

Definition emits (P : Effect -> Prop) {A} (m : Run A) : Prop :=
  forall p, exists new, effects (snd (m p)) = effects p ++ new /\ Forall P new.

(** The effects an event can bring about in the window [w]. *)
Definition mayAsk (s : Script) (w : Window) (ev : Event) (e : Effect) : Prop :=
  match ev, e with
  | EvClickClose, StopPropagation => True
  | EvClickLogo, PreventDefault => logoIsHomePage s = true
  | EvClickLogo, ScrollTo top => top = 0 /\ logoIsHomePage s = true
  | EvClickCornerLogo, ScrollTo top => top = 0 /\ isHomePage (location w) = true
  | EvClickCornerLogo, Navigate url => url = "/" /\ isHomePage (location w) = false
  | EvClickCornerLogo, SetTimeout TimerReleaseCornerLogo delay => delay = 100
  | EvClickFooterOrigin, SetTimeout TimerFootnoteScroll delay => delay = 350
  | EvTimer TimerFootnoteScroll, ScrollTo top => top = bodyScrollHeight w
  | _, _ => False
  end.

(** Everything but the href attributes is what it was. *)
Definition sameButHref (d d' : Dom) : Prop :=
  withHref "" <$> d = withHref "" <$> d'.

(** * Properties *)

(** ** The duration texts *)

Example MakeDay_milestone : MakeDay 2024 8 10 = 19976.
Proof. reflexivity. Qed.

Example MakeDay_crunchr : MakeDay 2022 11 1 = 19327.
Proof. reflexivity. Qed.

Example crunchr_dec_2023 (tza : Z -> Z) (t : Z) :
  calculateCrunchrDuration tza (mkDate t 2023 11) = "1yr".
Proof. reflexivity. Qed.

Example crunchr_oct_2026 (tza : Z -> Z) (t : Z) :
  calculateCrunchrDuration tza (mkDate t 2026 9) = "3yr 10mo".
Proof. reflexivity. Qed.

Lemma crunchrStart_fields (tza : Z -> Z) :
  getFullYear (crunchrStartDate (CONFIG tza)) = 2022 /\
  getMonth (crunchrStartDate (CONFIG tza)) = 11.
Proof. split; reflexivity. Qed.

Lemma Boolean_append_suffix (s : string) (c : ascii) (t : string) :
  JS.Boolean (s +:+ String c t) = true.
Proof. destruct s; reflexivity. Qed.

Lemma elapsed_months_range (startDate now : JSDate) :
  validDate startDate -> validDate now ->
  0 <= snd (elapsedYearsMonths startDate now) <= 11.
Proof.
  unfold validDate, elapsedYearsMonths. intros Hs Hn.
  destruct (Z.ltb_spec (getMonth now - getMonth startDate) 0); simpl; lia.
Qed.

Lemma crunchrStart_valid (tza : Z -> Z) : validDate (crunchrStartDate (CONFIG tza)).
Proof. unfold validDate. rewrite (proj2 (crunchrStart_fields tza)). lia. Qed.

Lemma duration_cases (tza : Z -> Z) (now : JSDate) :
  calculateCrunchrDuration tza now =
    (let '(y, m) := crunchrElapsed tza now in
     if 0 <? y then
       if 0 <? m
       then (JS.numberToString y +:+ "yr") +:+ " " +:+ (JS.numberToString m +:+ "mo")
       else JS.numberToString y +:+ "yr"
     else if 0 <? m then JS.numberToString m +:+ "mo" else "").
Proof.
  unfold calculateCrunchrDuration.
  destruct (crunchrElapsed tza now) as [y m].
  unfold yearStr, monthStr.
  destruct (0 <? y), (0 <? m); cbn [List.filter];
    rewrite ?Boolean_append_suffix; reflexivity.
Qed.

(** C3. For every current date the counters are the calendar differences to
    December 2022 with one year borrowed when the month difference is
    negative; the text is "<y>yr <m>mo" with exactly one space when both
    counters are positive, the one positive component alone when the other is
    not, and empty when neither is; a component that is rendered is positive;
    and a date in January 2023 gives "1mo". *)
Theorem calculateCrunchrDuration_format (tza : Z -> Z) (now : JSDate) :
  crunchrElapsed tza now =
    (if getMonth now - 11 <? 0
     then (getFullYear now - 2022 - 1, getMonth now - 11 + 12)
     else (getFullYear now - 2022, getMonth now - 11)) /\
  calculateCrunchrDuration tza now =
    JS.join " " (List.filter JS.Boolean
      [yearStr (fst (crunchrElapsed tza now)); monthStr (snd (crunchrElapsed tza now))]) /\
  calculateCrunchrDuration tza now =
    (let '(y, m) := crunchrElapsed tza now in
     if 0 <? y then
       if 0 <? m
       then (JS.numberToString y +:+ "yr") +:+ " " +:+ (JS.numberToString m +:+ "mo")
       else JS.numberToString y +:+ "yr"
     else if 0 <? m then JS.numberToString m +:+ "mo" else "") /\
  (yearStr (fst (crunchrElapsed tza now)) = "" <-> fst (crunchrElapsed tza now) <= 0) /\
  (monthStr (snd (crunchrElapsed tza now)) = "" <-> snd (crunchrElapsed tza now) <= 0) /\
  (forall t : Z, calculateCrunchrDuration tza (mkDate t 2023 0) = "1mo").
Proof.
  split; [reflexivity|].
  split; [unfold calculateCrunchrDuration; destruct (crunchrElapsed tza now); reflexivity|].
  split; [apply duration_cases|].
  split; [|split; [|reflexivity]].
  - unfold yearStr. destruct (Z.ltb_spec 0 (fst (crunchrElapsed tza now))).
    + split; [|intros; lia]. intros E. destruct (JS.numberToString _); discriminate E.
    + split; intros; [lia|reflexivity].
  - unfold monthStr. destruct (Z.ltb_spec 0 (snd (crunchrElapsed tza now))).
    + split; [|intros; lia]. intros E. destruct (JS.numberToString _); discriminate E.
    + split; intros; [lia|reflexivity].
Qed.

(** C9. A current date in the calendar year and month of the tenure start
    gives the empty string. *)
Theorem calculateCrunchrDuration_same_month (tza : Z -> Z) (now : JSDate) :
  getFullYear now = getFullYear (crunchrStartDate (CONFIG tza)) ->
  getMonth now = getMonth (crunchrStartDate (CONFIG tza)) ->
  crunchrElapsed tza now = (0, 0) /\ calculateCrunchrDuration tza now = "".
Proof.
  intros Hy Hm.
  assert (E : crunchrElapsed tza now = (0, 0)).
  { unfold crunchrElapsed, elapsedYearsMonths. rewrite Hy, Hm, !Z.sub_diag. reflexivity. }
  split; [exact E|]. unfold calculateCrunchrDuration. rewrite E. reflexivity.
Qed.

Lemma calculateCrunchrDuration_same_month_witness :
  crunchrElapsed Demo.cet (newDate Demo.cet 2022 11 17) = (0, 0) /\
  calculateCrunchrDuration Demo.cet (newDate Demo.cet 2022 11 17) = "".
Proof.
  apply (calculateCrunchrDuration_same_month Demo.cet (newDate Demo.cet 2022 11 17));
    vm_compute; reflexivity.
Defined.

Lemma append_assoc (a b c : string) : (a +:+ b) +:+ c = a +:+ (b +:+ c).
Proof.
  induction a as [|x a IH]; [reflexivity|].
  change (String x ((a +:+ b) +:+ c) = String x (a +:+ (b +:+ c))).
  f_equal. exact IH.
Qed.

Lemma string_of_uint_digits (d : Decimal.uint) :
  JS.digitsOnly (NilEmpty.string_of_uint d) = true.
Proof. induction d; simpl; auto. Qed.

Lemma numberToString_digits (z : Z) :
  0 < z -> JS.digitsOnly (JS.numberToString z) = true.
Proof.
  destruct z as [|p|p]; try lia. intros _.
  unfold JS.numberToString, Z.to_int, NilZero.string_of_int, NilZero.string_of_uint.
  destruct (Pos.to_uint p) eqn:E; try reflexivity;
    rewrite <- E; apply string_of_uint_digits.
Qed.

(** A digit string in front of [r] brings no occurrence of "12mo" that [r]
    does not complete. *)
Lemma includes_12mo_digits (ds r : string) :
  JS.digitsOnly ds = true ->
  String.prefix "mo" r = false ->
  String.prefix "2mo" r = false ->
  JS.includes r "12mo" = false ->
  JS.includes (ds +:+ r) "12mo" = false.
Proof.
  intros Hd Hmo H2mo Hr. induction ds as [|c ds IH]; [exact Hr|].
  simpl in Hd. apply andb_prop in Hd as [Hc Hds].
  specialize (IH Hds).
  change (String c ds +:+ r) with (String c (ds +:+ r)).
  cbn [JS.includes]. rewrite IH, orb_false_r.
  cbn [String.prefix]. destruct (ascii_dec "1" c) as [_|_]; [|reflexivity].
  destruct ds as [|c2 ds]; [exact H2mo|].
  change (String c2 ds +:+ r) with (String c2 (ds +:+ r)).
  cbn [String.prefix]. destruct (ascii_dec "2" c2) as [_|_]; [|reflexivity].
  destruct ds as [|c3 ds]; [exact Hmo|].
  change (String c3 ds +:+ r) with (String c3 (ds +:+ r)).
  cbn [String.prefix]. destruct (ascii_dec "m" c3) as [<-|_]; [|reflexivity].
  cbn in Hds. rewrite andb_false_r in Hds. discriminate Hds.
Qed.

Lemma includes_minus_digits (ds r : string) :
  JS.digitsOnly ds = true ->
  JS.includes r "-" = false ->
  JS.includes (ds +:+ r) "-" = false.
Proof.
  intros Hd Hr. induction ds as [|c ds IH]; [exact Hr|].
  simpl in Hd. apply andb_prop in Hd as [Hc Hds].
  change (String c ds +:+ r) with (String c (ds +:+ r)).
  cbn [JS.includes]. rewrite (IH Hds), orb_false_r.
  cbn [String.prefix]. destruct (ascii_dec "-" c) as [<-|_]; [|reflexivity].
  discriminate Hc.
Qed.

Lemma month_values (m : Z) :
  1 <= m <= 11 ->
  m = 1 \/ m = 2 \/ m = 3 \/ m = 4 \/ m = 5 \/ m = 6 \/
  m = 7 \/ m = 8 \/ m = 9 \/ m = 10 \/ m = 11.
Proof. lia. Qed.

Lemma duration_no_12mo (y m : Z) :
  0 <= m <= 11 ->
  let out :=
    if 0 <? y then
      if 0 <? m
      then (JS.numberToString y +:+ "yr") +:+ " " +:+ (JS.numberToString m +:+ "mo")
      else JS.numberToString y +:+ "yr"
    else if 0 <? m then JS.numberToString m +:+ "mo" else "" in
  JS.includes out "12mo" = false /\ JS.includes out "-" = false.
Proof.
  intros Hm out. subst out.
  destruct (Z.ltb_spec 0 y) as [Hy|Hy], (Z.ltb_spec 0 m) as [Hm0|Hm0].
  - rewrite append_assoc.
    pose proof (numberToString_digits y Hy) as Hd.
    assert (Hcases := month_values m ltac:(lia)).
    split.
    + apply includes_12mo_digits; [exact Hd| | |];
        decompose [or] Hcases; subst m; reflexivity.
    + apply includes_minus_digits; [exact Hd|].
      decompose [or] Hcases; subst m; reflexivity.
  - pose proof (numberToString_digits y Hy) as Hd.
    split; [apply includes_12mo_digits|apply includes_minus_digits];
      (exact Hd || reflexivity).
  - assert (Hcases := month_values m ltac:(lia)).
    split; decompose [or] Hcases; subst m; reflexivity.
  - split; reflexivity.
Qed.

(** C10. The borrow step takes a month difference between -11 and 11 into
    0..11 whatever the start date; the month component is rendered only for a
    value between 1 and 11, and the text holds neither "12mo" nor a minus
    sign. *)
Theorem month_component_range (tza : Z -> Z) (now : JSDate) :
  validDate now ->
  (forall startDate : JSDate, validDate startDate ->
     -11 <= getMonth now - getMonth startDate <= 11 /\
     0 <= snd (elapsedYearsMonths startDate now) <= 11) /\
  0 <= snd (crunchrElapsed tza now) <= 11 /\
  (monthStr (snd (crunchrElapsed tza now)) = "" \/
   1 <= snd (crunchrElapsed tza now) <= 11 /\
   monthStr (snd (crunchrElapsed tza now)) =
     JS.numberToString (snd (crunchrElapsed tza now)) +:+ "mo") /\
  JS.includes (calculateCrunchrDuration tza now) "12mo" = false /\
  JS.includes (calculateCrunchrDuration tza now) "-" = false.
Proof.
  intros Hnow.
  assert (Hr : 0 <= snd (crunchrElapsed tza now) <= 11)
    by (apply elapsed_months_range; [apply crunchrStart_valid|exact Hnow]).
  split; [|split; [exact Hr|split]].
  - intros startDate Hs. split; [unfold validDate in *; lia|].
    now apply elapsed_months_range.
  - unfold monthStr. destruct (Z.ltb_spec 0 (snd (crunchrElapsed tza now))).
    + right. split; [lia|reflexivity].
    + left. reflexivity.
  - rewrite duration_cases. destruct (crunchrElapsed tza now) as [y m].
    apply duration_no_12mo. exact Hr.
Qed.

Lemma month_component_range_witness :
  0 <= snd (crunchrElapsed Demo.utc (mkDate 0 2026 10)) <= 11 /\
  JS.includes (calculateCrunchrDuration Demo.utc (mkDate 0 2026 10)) "12mo" = false.
Proof.
  pose proof (month_component_range Demo.utc (mkDate 0 2026 10)
                ltac:(unfold validDate; simpl; lia)) as H.
  split; [apply H|apply H].
Defined.

(** ** Class lists *)

Section ClassListFacts.

Import ClassList.

Lemma eqb_string_refl (c : string) : String.eqb c c = true.
Proof. apply String.eqb_eq. reflexivity. Qed.

Lemma contains_app (c : string) (l1 l2 : list string) :
  contains c (l1 ++ l2) = contains c l1 || contains c l2.
Proof. apply existsb_app. Qed.

Lemma contains_add (c c' : string) (cl : list string) :
  contains c (add c' cl) = String.eqb c c' || contains c cl.
Proof.
  unfold add. destruct (contains c' cl) eqn:E.
  - destruct (String.eqb_spec c c') as [->|_]; [now rewrite E|reflexivity].
  - rewrite contains_app. cbn. rewrite orb_false_r. apply orb_comm.
Qed.

Lemma contains_remove (c c' : string) (cl : list string) :
  contains c (remove c' cl) = negb (String.eqb c c') && contains c cl.
Proof.
  unfold remove, contains. induction cl as [|x cl IH]; cbn.
  - now rewrite andb_false_r.
  - destruct (String.eqb_spec c' x) as [<-|Hne]; cbn; rewrite IH.
    + destruct (String.eqb c c'); reflexivity.
    + destruct (String.eqb_spec c x) as [<-|_]; cbn; [|reflexivity].
      destruct (String.eqb_spec c c') as [->|_]; [congruence|reflexivity].
Qed.

Lemma contains_toggle (c c' : string) (cl : list string) :
  c <> c' -> contains c (toggle c' cl) = contains c cl.
Proof.
  intros Hne. unfold toggle. destruct (contains c' cl).
  - rewrite contains_remove. destruct (String.eqb_spec c c'); [congruence|reflexivity].
  - rewrite contains_app. cbn. destruct (String.eqb_spec c c'); [congruence|].
    now rewrite !orb_false_r.
Qed.

Lemma remove_remove (c : string) (cl : list string) :
  remove c (remove c cl) = remove c cl.
Proof.
  unfold remove. induction cl as [|x cl IH]; cbn; [reflexivity|].
  destruct (String.eqb c x) eqn:E; cbn; [exact IH|]. now rewrite E, IH.
Qed.

Lemma remove_app (c : string) (l1 l2 : list string) :
  remove c (l1 ++ l2) = remove c l1 ++ remove c l2.
Proof. apply List.filter_app. Qed.

Lemma remove_add (c : string) (cl : list string) :
  remove c (add c cl) = remove c cl.
Proof.
  unfold add. destruct (contains c cl); [reflexivity|].
  rewrite remove_app. cbn. rewrite eqb_string_refl. cbn. apply app_nil_r.
Qed.

Lemma activeOp_activeOp (b b' : bool) (cl : list string) :
  activeOp b' (activeOp b cl) = activeOp b' cl.
Proof.
  unfold activeOp. destruct b, b'; rewrite ?remove_add, ?remove_remove; reflexivity.
Qed.

Lemma contains_activeOp (b : bool) (cl : list string) :
  contains "active" (activeOp b cl) = b.
Proof.
  unfold activeOp. destruct b.
  - rewrite contains_add. reflexivity.
  - rewrite contains_remove. reflexivity.
Qed.

Lemma contains_activeOp_other (c : string) (b : bool) (cl : list string) :
  c <> "active" -> contains c (activeOp b cl) = contains c cl.
Proof.
  intros Hne. unfold activeOp.
  destruct b; rewrite ?contains_add, contains_remove;
    destruct (String.eqb_spec c "active"); congruence || reflexivity.
Qed.

End ClassListFacts.

(** ** The store *)

Lemma withClassList_compose (f g : list string -> list string) (el : Element) :
  withClassList f (withClassList g el) = withClassList (fun cl => f (g cl)) el.
Proof. reflexivity. Qed.

Lemma hasClass_alter (f : list string -> list string) (h j : Handle) (c : string) (d : Dom) :
  hasClass (alter (withClassList f) h d) j c =
    if decide (h = j)
    then match d !! j with
         | Some el => ClassList.contains c (f (classList el))
         | None => false
         end
    else hasClass d j c.
Proof.
  unfold hasClass. destruct (decide (h = j)) as [->|Hne].
  - rewrite list_lookup_alter_eq. destruct (d !! j); reflexivity.
  - now rewrite list_lookup_alter_ne.
Qed.

Lemma href_alter_class (f : list string -> list string) (h j : Handle) (d : Dom) :
  alter (withClassList f) h d !! j ≫= hrefAttr = d !! j ≫= hrefAttr.
Proof.
  destruct (decide (h = j)) as [->|Hne].
  - rewrite list_lookup_alter_eq. destruct (d !! j); reflexivity.
  - now rewrite list_lookup_alter_ne.
Qed.

Lemma id_alter_class (f : list string -> list string) (h j : Handle) (d : Dom) :
  alter (withClassList f) h d !! j ≫= idAttr = d !! j ≫= idAttr.
Proof.
  destruct (decide (h = j)) as [->|Hne].
  - rewrite list_lookup_alter_eq. destruct (d !! j); reflexivity.
  - now rewrite list_lookup_alter_ne.
Qed.

Lemma attrs_alter_class (f : list string -> list string) (h : Handle) (d : Dom) :
  attrs (alter (withClassList f) h d) = attrs d.
Proof.
  unfold attrs. apply list_eq. intros j. rewrite !list_lookup_fmap.
  destruct (decide (h = j)) as [->|Hne].
  - rewrite list_lookup_alter_eq. destruct (d !! j); reflexivity.
  - now rewrite list_lookup_alter_ne.
Qed.

Lemma attrs_href (d d' : Dom) (j : Handle) :
  attrs d = attrs d' -> d !! j ≫= hrefAttr = d' !! j ≫= hrefAttr.
Proof.
  intros E. apply (f_equal (fun l => l !! j ≫= hrefAttr)) in E.
  unfold attrs in E. rewrite !list_lookup_fmap in E.
  destruct (d !! j), (d' !! j); exact E.
Qed.

Lemma attrs_id (d d' : Dom) (j : Handle) :
  attrs d = attrs d' -> d !! j ≫= idAttr = d' !! j ≫= idAttr.
Proof.
  intros E. apply (f_equal (fun l => l !! j ≫= idAttr)) in E.
  unfold attrs in E. rewrite !list_lookup_fmap in E.
  destruct (d !! j), (d' !! j); exact E.
Qed.

Lemma attrs_length (d d' : Dom) : attrs d = attrs d' -> length d = length d'.
Proof.
  intros E. apply (f_equal length) in E. unfold attrs in E.
  now rewrite !length_fmap in E.
Qed.

(** *** setActive *)

Lemma setActive_cons (on : Handle -> bool) (x : Handle) (links : list Handle) (d : Dom) :
  setActive on (x :: links) d =
  setActive on links (alter (withClassList (activeOp (on x))) x d).
Proof. reflexivity. Qed.

Lemma setActive_lookup (on : Handle -> bool) (links : list Handle) (d : Dom) (j : Handle) :
  setActive on links d !! j =
    if bool_decide (j ∈ links)
    then withClassList (activeOp (on j)) <$> d !! j
    else d !! j.
Proof.
  revert d. induction links as [|x links IH]; intros d; [reflexivity|].
  rewrite setActive_cons, IH.
  destruct (decide (x = j)) as [->|Hne].
  - rewrite list_lookup_alter_eq.
    rewrite (bool_decide_eq_true_2 (j ∈ j :: links)) by apply list_elem_of_here.
    case_bool_decide; [|reflexivity].
    destruct (d !! j) as [el|]; [|reflexivity]. cbn.
    rewrite withClassList_compose. f_equal. unfold withClassList. cbn.
    now rewrite activeOp_activeOp.
  - rewrite list_lookup_alter_ne by exact Hne.
    assert (Hiff : j ∈ x :: links <-> j ∈ links).
    { rewrite elem_of_cons. split; [intros [->|?]; [congruence|assumption]|auto]. }
    destruct (decide (j ∈ links)) as [Hin|Hnin].
    + rewrite !bool_decide_eq_true_2; [reflexivity|tauto|exact Hin].
    + rewrite !bool_decide_eq_false_2; [reflexivity|tauto|exact Hnin].
Qed.

Lemma setActive_ext (on on' : Handle -> bool) (links : list Handle) (d : Dom) :
  (forall j, j ∈ links -> on j = on' j) ->
  setActive on links d = setActive on' links d.
Proof.
  intros H. apply list_eq. intros j. rewrite !setActive_lookup.
  case_bool_decide; [|reflexivity]. now rewrite H.
Qed.

Lemma setActive_setActive (on on' : Handle -> bool) (links : list Handle) (d : Dom) :
  setActive on' links (setActive on links d) = setActive on' links d.
Proof.
  apply list_eq. intros j. rewrite !setActive_lookup.
  case_bool_decide; [|reflexivity].
  destruct (d !! j) as [el|]; [|reflexivity]. cbn.
  rewrite withClassList_compose. unfold withClassList. cbn.
  now rewrite activeOp_activeOp.
Qed.

Lemma attrs_setActive (on : Handle -> bool) (links : list Handle) (d : Dom) :
  attrs (setActive on links d) = attrs d.
Proof.
  revert d. induction links as [|x links IH]; intros d; [reflexivity|].
  now rewrite setActive_cons, IH, attrs_alter_class.
Qed.

Lemma hasClass_setActive (on : Handle -> bool) (links : list Handle) (d : Dom) (j : Handle) :
  j ∈ links ->
  hasClass (setActive on links d) j "active" = on j && bool_decide (j < length d)%nat.
Proof.
  intros Hin. unfold hasClass. rewrite setActive_lookup, bool_decide_eq_true_2 by exact Hin.
  destruct (d !! j) as [el|] eqn:E;
    cbn [fmap option_fmap option_map withClassList classList].
  - rewrite contains_activeOp. apply lookup_lt_Some in E.
    now rewrite bool_decide_eq_true_2, andb_true_r.
  - apply lookup_ge_None in E. rewrite bool_decide_eq_false_2 by lia.
    now rewrite andb_false_r.
Qed.

Lemma hasClass_setActive_other (c : string) (on : Handle -> bool) (links : list Handle)
    (d : Dom) (j : Handle) :
  c <> "active" -> hasClass (setActive on links d) j c = hasClass d j c.
Proof.
  intros Hne. unfold hasClass. rewrite setActive_lookup.
  case_bool_decide; [|reflexivity].
  destruct (d !! j) as [el|]; [|reflexivity].
  cbn [fmap option_fmap option_map withClassList classList].
  now apply contains_activeOp_other.
Qed.

(** ** Running updateActiveNav *)

Lemma bind_normal {A B} (m : Run A) (k : A -> Run B) (p p' : Page) (a : A) :
  m p = (Normal a, p') -> (m ≫= k) p = k a p'.
Proof. intros E. unfold mbind, Run_bind. now rewrite E. Qed.

Lemma setDom_setDom (d d' : Dom) (p : Page) : setDom d (setDom d' p) = setDom d p.
Proof. reflexivity. Qed.

Lemma setDom_dom (p : Page) : setDom (dom p) p = p.
Proof. destruct p; reflexivity. Qed.

Lemma hrefIs_attrs (d d' : Dom) (target : string) (j : Handle) :
  attrs d = attrs d' -> hrefIs d target j = hrefIs d' target j.
Proof. intros E. unfold hrefIs. now rewrite (attrs_href d d' j E). Qed.

Lemma clearActive_run (links : list Handle) (p : Page) :
  clearActive links p = (Normal tt, setDom (setActive (fun _ => false) links (dom p)) p).
Proof.
  unfold clearActive. revert p. induction links as [|x links IH]; intros p.
  - cbn. now rewrite setDom_dom.
  - cbn [forEach]. erewrite bind_normal by reflexivity.
    rewrite IH. reflexivity.
Qed.

Lemma markLinksFor_run (links : list Handle) (sectionId : option string) (p : Page) :
  markLinksFor links sectionId p =
    (Normal tt,
     setDom (setActive (hrefIs (dom p) ("#" +:+ default "null" sectionId)) links (dom p)) p).
Proof.
  unfold markLinksFor. set (target := "#" +:+ default "null" sectionId).
  revert p. induction links as [|x links IH]; intros p.
  - cbn. now rewrite setDom_dom.
  - cbn [forEach].
    assert (Hstep :
      (classList_remove x "active";;
       href ← getAttribute_href x;
       if bool_decide (href = Some target)
       then classList_add x "active" else mret tt) p
      = (Normal tt,
         setDom (alter (withClassList (activeOp (hrefIs (dom p) target x))) x (dom p)) p)).
    { erewrite bind_normal by reflexivity.
      unfold getAttribute_href. erewrite bind_normal by reflexivity.
      cbn [dom setDom]. rewrite href_alter_class.
      unfold hrefIs, activeOp.
      destruct (bool_decide (dom p !! x ≫= hrefAttr = Some target)).
      - unfold classList_add, modifyDom, setDom. cbn [dom effects].
        rewrite list_alter_alter_eq. reflexivity.
      - reflexivity. }
    erewrite bind_normal by exact Hstep.
    rewrite IH. cbn [dom setDom]. rewrite setDom_setDom, setActive_cons.
    f_equal. f_equal. apply setActive_ext. intros j _.
    apply hrefIs_attrs, attrs_alter_class.
Qed.

(** Where the document stands in the middle of [sections.forEach]: as it
    was, or marked for the last section that contained the scroll position. *)
Lemma sections_loop_run (cfg : Config) (links secs : list Handle) (w : Window)
    (d0 : Dom) (p : Page) (t : option string) :
  let state (t : option string) :=
    match t with
    | Some target => setActive (hrefIs d0 target) links d0
    | None => d0
    end in
  let next (t : option string) section :=
    if sectionContains cfg w section
    then Some ("#" +:+ default "null" (d0 !! section ≫= idAttr))
    else t in
  dom p = state t ->
  foldM (visitSection cfg links w) (bool_decide (is_Some t)) secs p =
    (Normal (bool_decide (is_Some (foldl next t secs))),
     setDom (state (foldl next t secs)) p).
Proof.
  intros state next. revert p t. induction secs as [|x secs IH]; intros p t Hp.
  - cbn. now rewrite <- Hp, setDom_dom.
  - cbn [foldM foldl].
    assert (Hattrs : attrs (dom p) = attrs d0).
    { rewrite Hp. destruct t; [apply attrs_setActive|reflexivity]. }
    assert (Hvisit :
      visitSection cfg links w (bool_decide (is_Some t)) x p =
        (Normal (bool_decide (is_Some (next t x))), setDom (state (next t x)) p)).
    { unfold visitSection, getAttribute_id.
      erewrite bind_normal by reflexivity.
      unfold next, sectionContains.
      destruct (Qle_bool _ _ && Qlt_bool _ _).
      - erewrite bind_normal by apply markLinksFor_run.
        rewrite (attrs_id (dom p) d0 x Hattrs).
        cbn [state]. f_equal. f_equal.
        rewrite (setActive_ext _ (hrefIs d0 ("#" +:+ default "null" (d0 !! x ≫= idAttr))))
          by (intros j _; apply hrefIs_attrs, Hattrs).
        rewrite Hp. destruct t; [apply setActive_setActive|reflexivity].
      - cbn. now rewrite <- Hp, setDom_dom. }
    erewrite bind_normal by exact Hvisit.
    rewrite (IH (setDom (state (next t x)) p) (next t x)) by reflexivity.
    reflexivity.
Qed.

Lemma last_elem_of (links : list Handle) (x : Handle) : last links = Some x -> x ∈ links.
Proof.
  intros H. apply last_Some in H as [l' ->]. apply elem_of_app. right.
  apply list_elem_of_singleton. reflexivity.
Qed.

(** Every run of updateActiveNav completes, and leaves each link marked as
    [navOn] says and every other class where it was. *)
Lemma updateActiveNav_run (cfg : Config) (links secs : list Handle) (w : Window) (p : Page) :
  updateActiveNav cfg links secs w p =
    (Normal tt, setDom (setActive (navOn cfg links secs w (dom p)) links (dom p)) p).
Proof.
  unfold updateActiveNav, navOn.
  fold (bottomReached cfg w). fold (aboveFirstSection cfg secs w).
  destruct (bottomReached cfg w).
  - erewrite bind_normal by apply clearActive_run.
    destruct (last links) as [lastLink|] eqn:El.
    + unfold classList_add, modifyDom, setDom. cbn [dom effects]. f_equal. f_equal.
      apply list_eq. intros j.
      destruct (decide (lastLink = j)) as [->|Hne].
      * rewrite list_lookup_alter_eq, !setActive_lookup.
        rewrite bool_decide_eq_true_2 by now apply last_elem_of.
        rewrite (bool_decide_eq_true_2 (Some j = Some j)) by reflexivity.
        destruct (dom p !! j); reflexivity.
      * rewrite list_lookup_alter_ne by exact Hne. rewrite !setActive_lookup.
        rewrite (bool_decide_eq_false_2 (Some lastLink = Some j)) by congruence.
        reflexivity.
    + apply last_None in El. subst links. cbn. reflexivity.
  - destruct (aboveFirstSection cfg secs w); [apply clearActive_run|].
    pose proof (sections_loop_run cfg links secs w (dom p) p None eq_refl) as Hloop.
    cbn zeta in Hloop.
    rewrite (bool_decide_eq_false_2 (is_Some None)) in Hloop
      by (intros [? ?]; discriminate).
    erewrite bind_normal by exact Hloop.
    fold (matchedHref cfg secs w (dom p)).
    destruct (matchedHref cfg secs w (dom p)) as [target|].
    + rewrite bool_decide_eq_true_2 by eauto. reflexivity.
    + rewrite bool_decide_eq_false_2 by (intros [? ?]; discriminate).
      cbn [negb]. rewrite clearActive_run. cbn [dom setDom]. now rewrite setDom_setDom.
Qed.

(** ** What a computation preserves *)

Section Preservation.

Context (R : Dom -> Dom -> Prop) `{!Reflexive R, !Transitive R}.

Lemma preserves_ret {A} (a : A) : preserves R (mret a : Run A).
Proof. intros p. reflexivity. Qed.

Lemma preserves_getDom : preserves R getDom.
Proof. intros p. reflexivity. Qed.

Lemma preserves_emit (e : Effect) : preserves R (emit e).
Proof. intros p. reflexivity. Qed.

Lemma preserves_deref {A} (o : option A) : preserves R (deref o).
Proof. intros p. destruct o; reflexivity. Qed.

Lemma preserves_modifyDom (f : Dom -> Dom) :
  (forall d, R d (f d)) -> preserves R (modifyDom f).
Proof. intros H p. apply H. Qed.

Lemma preserves_bind {A B} (m : Run A) (k : A -> Run B) :
  preserves R m -> (forall a, preserves R (k a)) -> preserves R (m ≫= k).
Proof.
  intros Hm Hk p. unfold mbind, Run_bind. specialize (Hm p).
  destruct (m p) as [[a|] p1]; cbn [snd] in *; [|exact Hm].
  transitivity (dom p1); [exact Hm|apply Hk].
Qed.

Lemma preserves_forEach {A} (l : list A) (f : A -> Run unit) :
  (forall x, preserves R (f x)) -> preserves R (forEach l f).
Proof.
  intros Hf. induction l as [|x l IH]; cbn [forEach].
  - apply preserves_ret.
  - apply preserves_bind; [apply Hf|intros _; exact IH].
Qed.

Lemma preserves_foldM {A B} (f : B -> A -> Run B) (b : B) (l : list A) :
  (forall b x, preserves R (f b x)) -> preserves R (foldM f b l).
Proof.
  intros Hf. revert b. induction l as [|x l IH]; intros b; cbn [foldM].
  - apply preserves_ret.
  - apply preserves_bind; [apply Hf|intros b'; apply IH].
Qed.

Lemma preserves_runListeners (ls : list (Run unit)) (p : Page) :
  Forall (preserves R) ls -> R (dom p) (dom (snd (runListeners ls p))).
Proof.
  intros H. revert p. induction H as [|l ls Hl _ IH]; intros p; cbn [runListeners].
  - reflexivity.
  - specialize (Hl p). destruct (l p) as [c p1]. specialize (IH p1).
    destruct (runListeners ls p1) as [cs p2]. cbn [snd] in *.
    transitivity (dom p1); assumption.
Qed.

End Preservation.

(** *** Completing without a throw *)

Lemma total_ret {A} (a : A) : total (mret a : Run A).
Proof. intros p. now exists a. Qed.

Lemma total_getDom : total getDom.
Proof. intros p. now exists (dom p). Qed.

Lemma total_emit (e : Effect) : total (emit e).
Proof. intros p. now exists tt. Qed.

Lemma total_modifyDom (f : Dom -> Dom) : total (modifyDom f).
Proof. intros p. now exists tt. Qed.

Lemma total_deref_Some {A} (a : A) : total (deref (Some a)).
Proof. intros p. now exists a. Qed.

Lemma total_bind {A B} (m : Run A) (k : A -> Run B) :
  total m -> (forall a, total (k a)) -> total (m ≫= k).
Proof.
  intros Hm Hk p. unfold mbind, Run_bind. destruct (Hm p) as [a Ha].
  destruct (m p) as [c p1]. cbn [fst] in Ha. subst c. apply Hk.
Qed.

Lemma total_forEach {A} (l : list A) (f : A -> Run unit) :
  (forall x, total (f x)) -> total (forEach l f).
Proof.
  intros Hf. induction l as [|x l IH]; cbn [forEach].
  - apply total_ret.
  - apply total_bind; [apply Hf|intros _; exact IH].
Qed.

Lemma total_foldM {A B} (f : B -> A -> Run B) (b : B) (l : list A) :
  (forall b x, total (f b x)) -> total (foldM f b l).
Proof.
  intros Hf. revert b. induction l as [|x l IH]; intros b; cbn [foldM].
  - apply total_ret.
  - apply total_bind; [apply Hf|intros b'; apply IH].
Qed.

Lemma total_run {A} (m : Run A) (p : Page) :
  total m -> exists a, m p = (Normal a, snd (m p)).
Proof.
  intros H. destruct (H p) as [a Ha]. exists a.
  destruct (m p) as [c p1]. cbn [fst snd] in *. now subst c.
Qed.

(** *** The three relations *)

#[export] Instance keepsClass_refl (c : string) : Reflexive (keepsClass c).
Proof. intros d h H. exact H. Qed.

#[export] Instance keepsClass_trans (c : string) : Transitive (keepsClass c).
Proof. intros d1 d2 d3 H12 H23 h H. apply H23, H12, H. Qed.

#[export] Instance sameClass_refl (c : string) : Reflexive (sameClass c).
Proof. intros d. split; [reflexivity|intros h; reflexivity]. Qed.

#[export] Instance sameClass_trans (c : string) : Transitive (sameClass c).
Proof.
  intros d1 d2 d3 [A12 H12] [A23 H23]. split; [congruence|].
  intros h. now rewrite H12, H23.
Qed.

#[export] Instance sameTagsAndClasses_refl : Reflexive sameTagsAndClasses.
Proof. intros d h. split; reflexivity. Qed.

#[export] Instance sameTagsAndClasses_trans : Transitive sameTagsAndClasses.
Proof.
  intros d1 d2 d3 H12 H23 h. destruct (H12 h) as [T12 C12], (H23 h) as [T23 C23].
  split; congruence.
Qed.

Lemma keepsClass_alter (c : string) (f : list string -> list string) (h : Handle) (d : Dom) :
  (forall cl, ClassList.contains c cl = true -> ClassList.contains c (f cl) = true) ->
  keepsClass c d (alter (withClassList f) h d).
Proof.
  intros Hf j Hj. rewrite hasClass_alter. destruct (decide (h = j)) as [_|_]; [|exact Hj].
  unfold hasClass in Hj. destruct (d !! j); [now apply Hf|discriminate Hj].
Qed.

Lemma sameClass_alter (c : string) (f : list string -> list string) (h : Handle) (d : Dom) :
  (forall cl, ClassList.contains c (f cl) = ClassList.contains c cl) ->
  sameClass c d (alter (withClassList f) h d).
Proof.
  intros Hf. split; [symmetry; apply attrs_alter_class|].
  intros j. rewrite hasClass_alter. destruct (decide (h = j)) as [_|_]; [|reflexivity].
  unfold hasClass. destruct (d !! j); [now rewrite Hf|reflexivity].
Qed.

Lemma keeps_add (c0 : string) (h : Handle) (c : string) :
  preserves (keepsClass c0) (classList_add h c).
Proof.
  apply preserves_modifyDom. intros d. apply keepsClass_alter. intros cl H.
  rewrite contains_add, H. apply orb_true_r.
Qed.

Lemma keeps_remove (c0 : string) (h : Handle) (c : string) :
  c <> c0 -> preserves (keepsClass c0) (classList_remove h c).
Proof.
  intros Hne. apply preserves_modifyDom. intros d. apply keepsClass_alter. intros cl H.
  rewrite contains_remove, H. destruct (String.eqb_spec c0 c); [congruence|reflexivity].
Qed.

Lemma keeps_toggle (c0 : string) (h : Handle) (c : string) :
  c <> c0 -> preserves (keepsClass c0) (classList_toggle h c).
Proof.
  intros Hne. apply preserves_modifyDom. intros d. apply keepsClass_alter. intros cl H.
  rewrite contains_toggle by congruence. exact H.
Qed.

Lemma same_add (c0 : string) (h : Handle) (c : string) :
  c <> c0 -> preserves (sameClass c0) (classList_add h c).
Proof.
  intros Hne. apply preserves_modifyDom. intros d. apply sameClass_alter. intros cl.
  rewrite contains_add. destruct (String.eqb_spec c0 c); [congruence|reflexivity].
Qed.

Lemma same_remove (c0 : string) (h : Handle) (c : string) :
  c <> c0 -> preserves (sameClass c0) (classList_remove h c).
Proof.
  intros Hne. apply preserves_modifyDom. intros d. apply sameClass_alter. intros cl.
  rewrite contains_remove. destruct (String.eqb_spec c0 c); [congruence|reflexivity].
Qed.

Lemma same_toggle (c0 : string) (h : Handle) (c : string) :
  c <> c0 -> preserves (sameClass c0) (classList_toggle h c).
Proof.
  intros Hne. apply preserves_modifyDom. intros d. apply sameClass_alter. intros cl.
  apply contains_toggle. congruence.
Qed.

Lemma tags_alter (g : Element -> Element) (h : Handle) (d : Dom) :
  (forall el, localName (g el) = localName el /\ classList (g el) = classList el) ->
  sameTagsAndClasses d (alter g h d).
Proof.
  intros Hg j. destruct (decide (h = j)) as [->|Hne].
  - rewrite list_lookup_alter_eq. destruct (d !! j) as [el|]; cbn; [|split; reflexivity].
    destruct (Hg el) as [-> ->]. split; reflexivity.
  - rewrite list_lookup_alter_ne by exact Hne. split; reflexivity.
Qed.

Lemma tags_href (h : Handle) (v : string) :
  preserves sameTagsAndClasses (setAttribute_href h v).
Proof.
  apply preserves_modifyDom. intros d. apply tags_alter. intros el. split; reflexivity.
Qed.

Lemma lookup_replaceChildrenWithText (h : Handle) (v : string) (d : Dom) (j : Handle) :
  replaceChildrenWithText h v d !! j
  = (fun el => if Nat.eqb j h then withOwnText v el
               else if isDescendantOf d h j then detached h el
               else el) <$> d !! j.
Proof. unfold replaceChildrenWithText. apply list_lookup_imap. Qed.

Lemma tags_text (h : Handle) (v : string) :
  preserves sameTagsAndClasses (set_textContent h v).
Proof.
  apply preserves_modifyDom. intros d j. rewrite lookup_replaceChildrenWithText.
  destruct (d !! j) as [el|]; cbn [fmap option_fmap option_map]; [|split; reflexivity].
  destruct (Nat.eqb j h); [split; reflexivity|].
  destruct (isDescendantOf d h j); split; reflexivity.
Qed.

Lemma keeps_of_tags (c : string) (d d' : Dom) :
  sameTagsAndClasses d d' -> keepsClass c d d'.
Proof.
  intros H j Hj. destruct (H j) as [_ Hc]. unfold hasClass in *.
  destruct (d !! j) as [el|], (d' !! j) as [el'|]; cbn in Hc; try discriminate.
  now injection Hc as <-.
Qed.

Ltac string_neq := intros E; discriminate E.

Ltac preserves_tac :=
  repeat first
    [ progress intros
    | solve [apply preserves_ret; typeclasses eauto]
    | solve [apply preserves_getDom; typeclasses eauto]
    | solve [apply preserves_emit; typeclasses eauto]
    | solve [apply preserves_deref; typeclasses eauto]
    | apply keeps_add
    | (apply keeps_remove; string_neq)
    | (apply keeps_toggle; string_neq)
    | (apply same_add; string_neq)
    | (apply same_remove; string_neq)
    | (apply same_toggle; string_neq)
    | apply tags_href
    | apply tags_text
    | (apply preserves_bind; [try typeclasses eauto..| |])
    | (apply preserves_forEach; [try typeclasses eauto..|])
    | (apply preserves_foldM; [try typeclasses eauto..|])
    | match goal with
      | |- preserves _ (if ?b then _ else _) => destruct b
      | |- preserves _ (match ?o with Some _ => _ | None => _ end) => destruct o
      end ].

Ltac total_tac :=
  repeat first
    [ progress intros
    | apply total_ret
    | apply total_getDom
    | apply total_emit
    | apply total_modifyDom
    | apply total_deref_Some
    | apply total_bind
    | apply total_forEach
    | apply total_foldM
    | match goal with
      | |- total (if ?b then _ else _) => destruct b
      | |- total (match ?o with Some _ => _ | None => _ end) => destruct o
      end ].

(** ** The listeners, one by one *)

Lemma updateActiveNav_keeps (c : string) (cfg : Config) (links secs : list Handle) (w : Window) :
  c <> "active" -> preserves (keepsClass c) (updateActiveNav cfg links secs w).
Proof.
  intros Hne p. rewrite updateActiveNav_run. cbn [snd dom setDom].
  intros h Hh. now rewrite hasClass_setActive_other.
Qed.

Lemma listeners_keep_visible (tza : Z -> Z) (s : Script) (w : Window) (ev : Event) :
  Forall (preserves (keepsClass "visible")) (listeners tza s w ev).
Proof.
  destruct ev as [|entries| | | | |e|e|[|]]; cbn [listeners];
    repeat match goal with
           | |- Forall _ (match ?o with Some _ => _ | None => _ end) => destruct o
           | |- Forall _ [] => constructor
           | |- Forall _ (_ :: _) => constructor
           end;
    try (apply updateActiveNav_keeps; intros E; discriminate E).
  all: unfold onScrollHint, observerCallback, onCloseClick, onFooterOriginClick,
         onLogoClick, onCornerLogoClick, onKeyDown, onKeyUp, onFootnoteScrollTimer,
         onReleaseCornerLogoTimer, classList_contains, get_tagName,
         get_isContentEditable.
  all: preserves_tac.
Qed.

Lemma runEvents_preserves (R : Dom -> Dom -> Prop) `{!Reflexive R, !Transitive R}
    (tza : Z -> Z) (s : Script) (p : Page) (evs : list (Window * Event)) :
  (forall w ev, Forall (preserves R) (listeners tza s w ev)) ->
  R (dom p) (dom (runEvents tza s p evs)).
Proof.
  intros H. unfold runEvents. revert p.
  induction evs as [|[w ev] evs IH]; intros p; cbn [foldl].
  - reflexivity.
  - transitivity (dom (step tza s p (w, ev))); [|apply IH].
    unfold step, dispatch. cbn [fst snd]. now apply preserves_runListeners.
Qed.

(** ** The script's one run *)

Lemma initSmartLinks_total (inherited : string -> option string) (w : Window) :
  total (initSmartLinks inherited w).
Proof. unfold initSmartLinks, getAttribute_href, setAttribute_href. total_tac. Qed.

Lemma initSmartLinks_tags (inherited : string -> option string) (w : Window) :
  preserves sameTagsAndClasses (initSmartLinks inherited w).
Proof. unfold initSmartLinks, getAttribute_href. preserves_tac. Qed.

Lemma dynamicContent_total (tza : Z -> Z) (n1 n2 n3 : JSDate) :
  total (dynamicContent tza n1 n2 n3).
Proof. unfold dynamicContent, set_textContent. total_tac. Qed.

Lemma dynamicContent_tags (tza : Z -> Z) (n1 n2 n3 : JSDate) :
  preserves sameTagsAndClasses (dynamicContent tza n1 n2 n3).
Proof. unfold dynamicContent. preserves_tac. Qed.

(** The script completes; its handles are those of the document as the
    dynamic content left it, and the document it leaves is that one after the
    run of updateActiveNav on load. *)
Lemma init_run (inherited : string -> option string) (tza : Z -> Z) (n1 n2 n3 : JSDate)
    (w : Window) (p : Page) :
  exists p1 : Page,
    sameTagsAndClasses (dom p) (dom p1) /\
    let links := querySelectorAll sel_nav_a_hash (dom p1) in
    let secs := querySelectorAll sel_section_id (dom p1) in
    let d2 := setActive (navOn (CONFIG tza) links secs w (dom p1)) links (dom p1) in
    init inherited tza n1 n2 n3 w p =
      (Normal
         {| navLinks := links;
            sections := secs;
            observed :=
              List.filter (fun section => negb (hasClass (dom p1) section "visible"))
                          (querySelectorAll sel_section (dom p1));
            terminal := getElementById "work-terminal" d2;
            closeButton :=
              match getElementById "work-terminal" d2 with
              | Some t => querySelectorBelow t sel_terminal_close d2
              | None => None
              end;
            footerOrigin := querySelector (sel_class "footer-origin") d2;
            logo := querySelector (sel_class "logo") d2;
            logoIsHomePage := isHomePage (location w);
            cornerLogo := querySelector (sel_class "corner-logo") d2 |},
       setDom d2 p1).
Proof.
  destruct (total_run (initSmartLinks inherited w) p (initSmartLinks_total _ _)) as [[] Ha].
  pose proof (initSmartLinks_tags inherited w p) as Ta.
  set (pa := snd (initSmartLinks inherited w p)) in *.
  destruct (total_run (dynamicContent tza n1 n2 n3) pa (dynamicContent_total _ _ _ _))
    as [[] Hb].
  pose proof (dynamicContent_tags tza n1 n2 n3 pa) as Tb.
  set (pb := snd (dynamicContent tza n1 n2 n3 pa)) in *.
  exists pb. split; [now transitivity (dom pa)|].
  intros links secs d2. unfold init.
  erewrite bind_normal by exact Ha.
  erewrite bind_normal by exact Hb.
  erewrite bind_normal by reflexivity.
  erewrite bind_normal by apply updateActiveNav_run.
  reflexivity.
Qed.

Lemma connected_lt (d : Dom) (h : Handle) : connected d h = true -> (h < length d)%nat.
Proof.
  unfold connected. destruct (d !! h) eqn:E; [|discriminate].
  intros _. now apply lookup_lt_Some in E.
Qed.

Lemma querySelectorAll_elem_of (sel : Selector) (d : Dom) (h : Handle) :
  h ∈ querySelectorAll sel d <->
  (h < length d)%nat /\ connected d h = true /\ sel d h = true.
Proof.
  unfold querySelectorAll. rewrite list_elem_of_In, List.filter_In, List.in_seq.
  rewrite andb_true_iff. split; intros [H1 H2]; (split; [lia|exact H2]).
Qed.

Lemma connected_attrs (d d' : Dom) (h : Handle) :
  attrs d = attrs d' -> connected d h = connected d' h.
Proof.
  intros E. apply (f_equal (fun l => isConnected <$> l !! h)) in E.
  unfold attrs in E. rewrite !list_lookup_fmap in E. unfold connected.
  destruct (d !! h), (d' !! h); cbn in E; congruence.
Qed.

Lemma localNameIs_attrs (n : string) (d d' : Dom) (h : Handle) :
  attrs d = attrs d' -> localNameIs n d h = localNameIs n d' h.
Proof.
  intros E. apply (f_equal (fun l => localName <$> l !! h)) in E.
  unfold attrs in E. rewrite !list_lookup_fmap in E. unfold localNameIs.
  destruct (d !! h), (d' !! h); cbn in E; congruence.
Qed.

Lemma sel_section_tags (d d' : Dom) (h : Handle) :
  sameTagsAndClasses d d' -> sel_section d h = sel_section d' h.
Proof.
  intros H. destruct (H h) as [Ht _]. unfold sel_section, localNameIs.
  destruct (d !! h), (d' !! h); cbn in Ht; try discriminate; [|reflexivity].
  now injection Ht as ->.
Qed.

Lemma hasClass_tags (d d' : Dom) (h : Handle) (c : string) :
  sameTagsAndClasses d d' -> hasClass d h c = hasClass d' h c.
Proof.
  intros H. destruct (H h) as [_ Hc]. unfold hasClass.
  destruct (d !! h), (d' !! h); cbn in Hc; try discriminate; [|reflexivity].
  now injection Hc as ->.
Qed.

Lemma sel_section_lt (d : Dom) (h : Handle) : sel_section d h = true -> (h < length d)%nat.
Proof.
  unfold sel_section, localNameIs. destruct (d !! h) eqn:E; [|discriminate].
  intros _. now apply lookup_lt_Some in E.
Qed.

(** C5. The script completes on every document. The sections it gives to the
    observer are the section elements of the document it leaves, which is
    the served one less what the dynamic texts replaced, that do not carry
    "visible"; each of them is a section element of the served document and
    did not carry "visible" there either, so a section that is visible when
    the script starts is never observed. The script takes "visible" from no
    element; and after any sequence of events, whatever the window and the
    layout at each, every element that carried "visible" still carries it.
    The last holds from any document and for any set of handles. *)
Theorem visible_is_monotone (inherited : string -> option string) (tza : Z -> Z)
    (n1 n2 n3 : JSDate) (w : Window) (p : Page) :
  (exists s p',
     init inherited tza n1 n2 n3 w p = (Normal s, p') /\
     (forall h, h ∈ observed s <->
                connected (dom p') h = true /\ sel_section (dom p') h = true /\
                hasClass (dom p') h "visible" = false) /\
     (forall h, h ∈ observed s ->
                sel_section (dom p) h = true /\ hasClass (dom p) h "visible" = false) /\
     keepsClass "visible" (dom p) (dom p') /\
     forall evs, keepsClass "visible" (dom p') (dom (runEvents tza s p' evs))) /\
  (forall (s0 : Script) (p0 : Page) (evs : list (Window * Event)) (h : Handle),
     hasClass (dom p0) h "visible" = true ->
     hasClass (dom (runEvents tza s0 p0 evs)) h "visible" = true).
Proof.
  assert (Hrun : forall s0 p0 evs,
             keepsClass "visible" (dom p0) (dom (runEvents tza s0 p0 evs))).
  { intros s0 p0 evs. apply runEvents_preserves; try typeclasses eauto.
    intros w0 ev. apply listeners_keep_visible. }
  split; [|intros s0 p0 evs h; apply Hrun].
  destruct (init_run inherited tza n1 n2 n3 w p) as [p1 [Htags Hinit]].
  cbn zeta in Hinit. eexists _, _. split; [exact Hinit|].
  assert (Hobs : forall h,
            h ∈ List.filter (fun section => negb (hasClass (dom p1) section "visible"))
                  (querySelectorAll sel_section (dom p1)) <->
            connected (dom p1) h = true /\ sel_section (dom p1) h = true /\
            hasClass (dom p1) h "visible" = false).
  { intros h.
    rewrite list_elem_of_In, List.filter_In, <- list_elem_of_In, querySelectorAll_elem_of.
    rewrite negb_true_iff. split.
    - intros [(_ & Hc & Hs) Hv]. now repeat split.
    - intros (Hc & Hs & Hv). split; [|exact Hv]. split; [|now split].
      now apply connected_lt. }
  split; [|split; [|split; [|intros evs; apply Hrun]]].
  - intros h. cbn [observed dom setDom]. rewrite Hobs.
    match goal with
    | |- context [connected (setActive ?on ?l ?d) h] =>
        rewrite (connected_attrs _ _ h (attrs_setActive on l d));
        unfold sel_section;
        rewrite (localNameIs_attrs "section" _ _ h (attrs_setActive on l d))
    end.
    rewrite hasClass_setActive_other by (intros E; discriminate E). reflexivity.
  - intros h. cbn [observed]. rewrite Hobs. intros (_ & Hs & Hv).
    now rewrite (sel_section_tags _ _ h Htags), (hasClass_tags _ _ h "visible" Htags).
  - cbn [dom setDom]. transitivity (dom p1).
    + now apply keeps_of_tags.
    + intros h Hh. now rewrite hasClass_setActive_other by (intros E; discriminate E).
Qed.

(** ** The navigation highlight *)

Lemma matchedHref_attrs (cfg : Config) (secs : list Handle) (w : Window) (d d' : Dom) :
  attrs d = attrs d' -> matchedHref cfg secs w d = matchedHref cfg secs w d'.
Proof.
  intros E. unfold matchedHref. generalize (@None string).
  induction secs as [|x secs IH]; intros acc; cbn [foldl]; [reflexivity|].
  now rewrite (attrs_id d d' x E), IH.
Qed.

Lemma navOn_attrs (cfg : Config) (links secs : list Handle) (w : Window) (d d' : Dom)
    (j : Handle) :
  attrs d = attrs d' -> navOn cfg links secs w d j = navOn cfg links secs w d' j.
Proof.
  intros E. unfold navOn. rewrite (matchedHref_attrs cfg secs w d d' E).
  destruct (bottomReached cfg w); [reflexivity|].
  destruct (aboveFirstSection cfg secs w); [reflexivity|].
  destruct (matchedHref cfg secs w d'); [|reflexivity].
  now apply hrefIs_attrs.
Qed.

(** C4. Within the bottom threshold, that is when
    [window.innerHeight + window.scrollY >= document.body.offsetHeight - 50]
    holds of the Numbers the script computes, a run of updateActiveNav
    completes and leaves, of the navigation links, exactly the last one
    active, whatever the sections and their layout say: neither a section
    that holds the scroll position nor a first section further down is
    looked at. *)
Theorem bottom_activates_last_link (tza : Z -> Z) (links secs : list Handle) (w : Window)
    (p : Page) :
  (Binary64.fsub (inject_Z (bodyOffsetHeight w)) (inject_Z 50)
   <= Binary64.fadd (inject_Z (innerHeight w)) (scrollY w))%Q ->
  (forall link, link ∈ links -> (link < length (dom p))%nat) ->
  exists p',
    updateActiveNav (CONFIG tza) links secs w p = (Normal tt, p') /\
    forall link, link ∈ links ->
      (hasClass (dom p') link "active" = true <-> last links = Some link).
Proof.
  intros Hbottom Hvalid. eexists. split; [apply updateActiveNav_run|].
  intros link Hin. cbn [dom setDom]. rewrite hasClass_setActive by exact Hin.
  rewrite (bool_decide_eq_true_2 _ (Hvalid link Hin)), andb_true_r.
  unfold navOn, bottomReached. cbn [scrollThreshold CONFIG].
  rewrite (proj2 (Qle_bool_iff _ _) Hbottom).
  apply bool_decide_eq_true.
Qed.

(** The sums of the tracker are those of Numbers. In the short window the
    exact sums stay below the bottom threshold and below the top of the first
    section; the rounded ones reach both, so that the bottom is reached and,
    were it not, the first section would hold the scroll position. *)
Example shortWindow_sums :
  (inject_Z 800 + scrollY Demo.shortWindow < inject_Z (851 - 50))%Q /\
  (scrollY Demo.shortWindow + inject_Z 100 < inject_Z 101)%Q /\
  bottomReached (CONFIG Demo.utc) Demo.shortWindow = true /\
  aboveFirstSection (CONFIG Demo.utc) [5%nat; 6%nat] Demo.shortWindow = false /\
  sectionContains (CONFIG Demo.utc) Demo.shortWindow 5 = true.
Proof. vm_compute. repeat split. Qed.

(** C8. A run of updateActiveNav completes; which links it leaves active
    depends on the window, the layout and the attributes only, not on the
    class lists it finds; and a second run in the same window changes
    nothing. *)
Theorem updateActiveNav_idempotent (cfg : Config) (links secs : list Handle) (w : Window) :
  (forall p, fst (updateActiveNav cfg links secs w p) = Normal tt) /\
  (forall p1 p2,
     attrs (dom p1) = attrs (dom p2) ->
     forall link, link ∈ links ->
       hasClass (dom (snd (updateActiveNav cfg links secs w p1))) link "active" =
       hasClass (dom (snd (updateActiveNav cfg links secs w p2))) link "active") /\
  (forall p,
     snd (updateActiveNav cfg links secs w (snd (updateActiveNav cfg links secs w p))) =
     snd (updateActiveNav cfg links secs w p)).
Proof.
  split; [|split].
  - intros p. now rewrite updateActiveNav_run.
  - intros p1 p2 E link Hin. rewrite !updateActiveNav_run. cbn [snd dom setDom].
    rewrite !hasClass_setActive by exact Hin.
    now rewrite (navOn_attrs _ _ _ _ _ _ link E), (attrs_length _ _ E).
  - intros p. rewrite !updateActiveNav_run. cbn [snd dom setDom].
    rewrite setDom_setDom. f_equal.
    rewrite (setActive_ext _ (navOn cfg links secs w (dom p))).
    + apply setActive_setActive.
    + intros j _. apply navOn_attrs, attrs_setActive.
Qed.

Lemma filter_at_most_one {A B} (f : A -> B) (P : A -> bool) (v : B) (l : list A) :
  NoDup (f <$> l) ->
  (forall x, x ∈ l -> P x = true -> f x = v) ->
  (length (List.filter P l) <= 1)%nat.
Proof.
  induction l as [|x l IH]; intros Hnd Hv; cbn [List.filter]; [cbn; lia|].
  rewrite fmap_cons in Hnd. apply NoDup_cons in Hnd as [Hx Hnd].
  assert (Hl : forall y, y ∈ l -> P y = true -> f y = v)
    by (intros y Hy; apply Hv; now right).
  specialize (IH Hnd Hl).
  destruct (P x) eqn:Px; [|exact IH].
  assert (Hnil : List.filter P l = []).
  { destruct (List.filter P l) as [|y r] eqn:E; [reflexivity|]. exfalso.
    assert (Hy : In y (List.filter P l)) by (rewrite E; now left).
    apply List.filter_In in Hy as [Hy Py]. apply list_elem_of_In in Hy.
    apply Hx. rewrite (Hv x (list_elem_of_here _ _) Px), <- (Hl y Hy Py).
    now apply list_elem_of_fmap_2. }
  rewrite Hnil. cbn. lia.
Qed.

Lemma filter_ext_elem_of {A} (P Q : A -> bool) (l : list A) :
  (forall x, x ∈ l -> P x = Q x) -> List.filter P l = List.filter Q l.
Proof.
  intros H. apply List.filter_ext_in. intros x Hx. apply H. now apply list_elem_of_In.
Qed.

Lemma linkHrefs_attrs (s : Script) (d d' : Dom) :
  attrs d = attrs d' -> linkHrefs s d = linkHrefs s d'.
Proof.
  intros E. unfold linkHrefs. apply list_fmap_ext. intros _ link _.
  now apply attrs_href.
Qed.

Lemma activeLinks_sameClass (s : Script) (d d' : Dom) :
  sameClass "active" d d' -> activeLinks s d' = activeLinks s d.
Proof.
  intros [_ H]. unfold activeLinks. apply filter_ext_elem_of. intros x _. now rewrite H.
Qed.

(** After a run of updateActiveNav over links with pairwise different hrefs,
    at most one of them is active. *)
Lemma activeLinks_after_run (cfg : Config) (s : Script) (w : Window) (d : Dom) :
  NoDup (linkHrefs s d) ->
  (length (activeLinks s
     (setActive (navOn cfg (navLinks s) (sections s) w d) (navLinks s) d)) <= 1)%nat.
Proof.
  intros Hnd. unfold activeLinks.
  rewrite (filter_ext_elem_of _
    (fun link => navOn cfg (navLinks s) (sections s) w d link
                 && bool_decide (link < length d)%nat))
    by (intros x Hx; now apply hasClass_setActive).
  unfold navOn.
  destruct (bottomReached cfg w).
  - destruct (last (navLinks s)) as [lastLink|] eqn:El.
    + apply (filter_at_most_one (fun link => d !! link ≫= hrefAttr) _
               (d !! lastLink ≫= hrefAttr)); [exact Hnd|].
      intros x _ Hx. apply andb_prop in Hx as [Hx _].
      apply bool_decide_eq_true in Hx. now injection Hx as ->.
    + apply last_None in El. rewrite El. cbn. lia.
  - destruct (aboveFirstSection cfg (sections s) w).
    + rewrite (filter_ext_elem_of _ (fun _ => false)) by reflexivity.
      induction (navLinks s); cbn; [lia|assumption].
    + destruct (matchedHref cfg (sections s) w d) as [target|].
      * apply (filter_at_most_one (fun link => d !! link ≫= hrefAttr) _ (Some target));
          [exact Hnd|].
        intros x _ Hx. apply andb_prop in Hx as [Hx _].
        unfold hrefIs in Hx. now apply bool_decide_eq_true in Hx.
      * rewrite (filter_ext_elem_of _ (fun _ => false)) by reflexivity.
        induction (navLinks s); cbn; [lia|assumption].
Qed.

Lemma onScrollHint_same_active (cfg : Config) (w : Window) :
  preserves (sameClass "active") (onScrollHint cfg w).
Proof. unfold onScrollHint. preserves_tac. Qed.

Lemma listeners_same_active (tza : Z -> Z) (s : Script) (w : Window) (ev : Event) :
  ev <> EvScroll ->
  Forall (preserves (sameClass "active")) (listeners tza s w ev).
Proof.
  intros Hev.
  destruct ev as [|entries| | | | |e|e|[|]]; [congruence|..]; cbn [listeners];
    repeat match goal with
           | |- Forall _ (match ?o with Some _ => _ | None => _ end) => destruct o
           | |- Forall _ [] => constructor
           | |- Forall _ (_ :: _) => constructor
           end.
  all: unfold observerCallback, onCloseClick, onFooterOriginClick,
         onLogoClick, onCornerLogoClick, onKeyDown, onKeyUp, onFootnoteScrollTimer,
         onReleaseCornerLogoTimer, classList_contains, get_tagName,
         get_isContentEditable.
  all: preserves_tac.
Qed.

(** One event keeps the hrefs of the links apart and at most one link
    active. *)
Lemma step_active_bound (tza : Z -> Z) (s : Script) (p : Page) (we : Window * Event) :
  NoDup (linkHrefs s (dom p)) ->
  (length (activeLinks s (dom p)) <= 1)%nat ->
  NoDup (linkHrefs s (dom (step tza s p we))) /\
  (length (activeLinks s (dom (step tza s p we))) <= 1)%nat.
Proof.
  intros Hnd Hle. destruct we as [w ev].
  assert (Hcase : ev = EvScroll \/ ev <> EvScroll)
    by (destruct ev; (now left) || (right; discriminate)).
  destruct Hcase as [->|Hev].
  - unfold step, dispatch. cbn [fst snd listeners runListeners].
    rewrite updateActiveNav_run.
    set (p1 := setDom _ p).
    pose proof (onScrollHint_same_active (CONFIG tza) w p1) as [Ha Hc].
    destruct (onScrollHint (CONFIG tza) w p1) as [c p2]. cbn [snd] in *.
    assert (E1 : attrs (dom p1) = attrs (dom p)) by apply attrs_setActive.
    split.
    + rewrite <- (linkHrefs_attrs s (dom p1) (dom p2) Ha).
      now rewrite (linkHrefs_attrs s (dom p1) (dom p) E1).
    + rewrite (activeLinks_sameClass s (dom p1) (dom p2)) by (split; assumption).
      subst p1. cbn [dom setDom]. now apply activeLinks_after_run.
  - pose proof (preserves_runListeners (sameClass "active") _ p
                  (listeners_same_active tza s w ev Hev)) as [Ha Hc].
    unfold step, dispatch. cbn [fst snd]. split.
    + now rewrite <- (linkHrefs_attrs s (dom p) _ Ha).
    + rewrite (activeLinks_sameClass s (dom p)) by (split; assumption). exact Hle.
Qed.

(** C1, as the script has it. Once the script has run on a document whose
    navigation links have pairwise different hrefs, at most one of them
    carries "active", and so it stays after every sequence of events. *)
Theorem at_most_one_active_link (inherited : string -> option string) (tza : Z -> Z)
    (n1 n2 n3 : JSDate) (w : Window) (p : Page) (s : Script) (p' : Page) :
  init inherited tza n1 n2 n3 w p = (Normal s, p') ->
  NoDup (linkHrefs s (dom p')) ->
  forall evs, (length (activeLinks s (dom (runEvents tza s p' evs))) <= 1)%nat.
Proof.
  intros Hinit Hnd evs.
  destruct (init_run inherited tza n1 n2 n3 w p) as [p1 [_ Hrun]]. cbn zeta in Hrun.
  rewrite Hrun in Hinit. injection Hinit as Hs Hp.
  assert (H0 : (length (activeLinks s (dom p')) <= 1)%nat).
  { rewrite <- Hp. cbn [dom setDom].
    assert (Hl : navLinks s = querySelectorAll sel_nav_a_hash (dom p1)) by now rewrite <- Hs.
    assert (Hc : sections s = querySelectorAll sel_section_id (dom p1)) by now rewrite <- Hs.
    rewrite <- Hl, <- Hc. apply activeLinks_after_run.
    rewrite <- Hp in Hnd. cbn [dom setDom] in Hnd.
    now rewrite (linkHrefs_attrs s _ _ (attrs_setActive _ _ _)) in Hnd. }
  clear Hrun Hs Hp. unfold runEvents.
  enough (H : NoDup (linkHrefs s (dom (foldl (step tza s) p' evs))) /\
              (length (activeLinks s (dom (foldl (step tza s) p' evs))) <= 1)%nat)
    by apply H.
  revert p' Hnd H0. induction evs as [|we evs IH]; intros p' Hnd H0; cbn [foldl].
  - now split.
  - destruct (step_active_bound tza s p' we Hnd H0) as [Hnd' H0'].
    now apply IH.
Qed.

(** With two links to the same section both end up active: the run on load
    of the page with the twin links, scrolled to its top. *)
Lemma twin_links_both_active :
  exists s p',
    Demo.load Demo.twinLinks = (Normal s, p') /\
    activeLinks s (dom p') = [2%nat; 3%nat] /\
    ~ (length (activeLinks s (dom p')) <= 1)%nat.
Proof.
  eexists _, _. split; [vm_compute; reflexivity|].
  split; [reflexivity|]. cbn. lia.
Qed.

Lemma at_most_one_active_link_witness :
  (length (activeLinks (Demo.scriptOf Demo.plainLinks)
     (dom (runEvents Demo.utc (Demo.scriptOf Demo.plainLinks) (snd (Demo.load Demo.plainLinks))
        [(Demo.window 950 0%nat, EvScroll);
         (Demo.window 950 0%nat, EvKeyDown (mkKey "v" false false));
         (Demo.window 1300 0%nat, EvScroll)]))) <= 1)%nat.
Proof.
  apply (at_most_one_active_link Demo.noInherited Demo.utc Demo.today Demo.today Demo.today
           (Demo.window 0 0%nat) (Demo.page Demo.plainLinks)).
  - vm_compute. reflexivity.
  - apply (bool_decide_unpack _). vm_compute. exact I.
Defined.

Lemma bottom_activates_last_link_witness :
  exists p',
    updateActiveNav (CONFIG Demo.utc) [2%nat; 3%nat; 4%nat] [5%nat; 6%nat]
      Demo.shortWindow (Demo.page Demo.plainLinks) = (Normal tt, p') /\
    forall link, link ∈ [2%nat; 3%nat; 4%nat] ->
      (hasClass (dom p') link "active" = true <-> last [2%nat; 3%nat; 4%nat] = Some link).
Proof.
  apply (bottom_activates_last_link Demo.utc [2%nat; 3%nat; 4%nat] [5%nat; 6%nat]
           Demo.shortWindow (Demo.page Demo.plainLinks)).
  - vm_compute. discriminate.
  - intros link Hin. apply list_elem_of_In in Hin. cbn in Hin. cbn. intuition lia.
Defined.

(** ** The V key *)

Lemma lowerAscii_v (c : ascii) :
  JS.lowerAscii c = "v"%char <-> c = "v"%char \/ c = "V"%char.
Proof.
  destruct c as [[] [] [] [] [] [] [] []]; cbv;
    (split;
     [ intros H; first [discriminate H | left; reflexivity | right; reflexivity]
     | intros [H|H]; first [discriminate H | reflexivity] ]).
Qed.

Lemma toLowerCase_v (k : string) :
  JS.toLowerCase k = "v" <-> k = "v" \/ k = "V".
Proof.
  destruct k as [|c [|c2 r]]; cbn [JS.toLowerCase].
  - split; [discriminate|intros [H|H]; discriminate H].
  - split.
    + intros H. injection H as H. apply lowerAscii_v in H as [->| ->]; auto.
    + intros [H|H]; injection H as ->; reflexivity.
  - split; [discriminate|intros [H|H]; discriminate H].
Qed.

Lemma eqb_toLowerCase_v (k : string) :
  String.eqb (JS.toLowerCase k) "v" = true <-> k = "v" \/ k = "V".
Proof. rewrite String.eqb_eq. apply toLowerCase_v. Qed.

(** C7. The keydown listener, given a V key and a focused element: it
    completes, and it adds "pressed" to the corner logo when neither meta
    nor ctrl is held and the focused element is no INPUT, no TEXTAREA and not
    content-editable, and leaves the document as it is otherwise; so a corner
    logo that was not pressed is pressed afterwards exactly in that case. The
    keyup listener, given a V key, removes "pressed". Both are the listeners
    of the script that has a corner logo. *)
Theorem keydown_pressed_iff (tza : Z -> Z) (s : Script) (corner : Handle) (w : Window)
    (e : KeyboardEvent) (p : Page) (a : Handle) (focused : Element) :
  key e = "v" \/ key e = "V" ->
  cornerLogo s = Some corner ->
  activeElement w = a ->
  dom p !! a = Some focused ->
  let fires :=
    negb (metaKey e) && negb (ctrlKey e) &&
    negb (String.eqb (tagName focused) "INPUT") &&
    negb (String.eqb (tagName focused) "TEXTAREA") &&
    negb (isContentEditable focused) in
  listeners tza s w (EvKeyDown e) = [onKeyDown corner w e] /\
  listeners tza s w (EvKeyUp e) = [onKeyUp corner e] /\
  onKeyDown corner w e p =
    (Normal tt,
     if fires
     then setDom (alter (withClassList (ClassList.add "pressed")) corner (dom p)) p
     else p) /\
  (hasClass (dom p) corner "pressed" = false ->
   (corner < length (dom p))%nat ->
   (hasClass (dom (snd (onKeyDown corner w e p))) corner "pressed" = true <->
    metaKey e = false /\ ctrlKey e = false /\
    tagName focused <> "INPUT" /\ tagName focused <> "TEXTAREA" /\
    isContentEditable focused = false)) /\
  onKeyUp corner e p =
    (Normal tt, setDom (alter (withClassList (ClassList.remove "pressed")) corner (dom p)) p) /\
  hasClass (dom (snd (onKeyUp corner e p))) corner "pressed" = false.
Proof.
  intros Hkey Hcorner Hfocus Ha fires.
  apply eqb_toLowerCase_v in Hkey.
  assert (Hdown : onKeyDown corner w e p =
    (Normal tt,
     if fires
     then setDom (alter (withClassList (ClassList.add "pressed")) corner (dom p)) p
     else p)).
  { unfold onKeyDown, fires, get_tagName, get_isContentEditable.
    rewrite Hkey, Hfocus. cbn [andb].
    destruct (metaKey e), (ctrlKey e); cbn [negb andb]; try reflexivity.
    erewrite bind_normal by reflexivity.
    cbn [dom]. rewrite Ha. cbn [fmap option_fmap option_map default from_option id].
    destruct (String.eqb (tagName focused) "INPUT"); cbn [negb andb]; [reflexivity|].
    erewrite bind_normal by reflexivity.
    cbn [dom]. rewrite Ha. cbn [fmap option_fmap option_map default from_option id].
    destruct (String.eqb (tagName focused) "TEXTAREA"); cbn [negb andb]; [reflexivity|].
    erewrite bind_normal by reflexivity.
    cbn [dom]. rewrite Ha. cbn [fmap option_fmap option_map default from_option id].
    destruct (isContentEditable focused); reflexivity. }
  assert (Hup : onKeyUp corner e p =
    (Normal tt, setDom (alter (withClassList (ClassList.remove "pressed")) corner (dom p)) p)).
  { unfold onKeyUp. now rewrite Hkey. }
  split; [cbn [listeners]; now rewrite Hcorner|].
  split; [cbn [listeners]; now rewrite Hcorner|].
  split; [exact Hdown|]. split; [|split; [exact Hup|]].
  - intros Hnot Hlt. rewrite Hdown. cbn [snd].
    destruct (lookup_lt_is_Some_2 _ _ Hlt) as [cel Hcel].
    assert (Hadd : hasClass (alter (withClassList (ClassList.add "pressed")) corner (dom p))
                     corner "pressed" = true).
    { rewrite hasClass_alter, decide_True by reflexivity. rewrite Hcel.
      rewrite contains_add. reflexivity. }
    unfold fires.
    destruct (metaKey e), (ctrlKey e), (String.eqb_spec (tagName focused) "INPUT"),
      (String.eqb_spec (tagName focused) "TEXTAREA"), (isContentEditable focused);
      cbn [negb andb dom setDom]; rewrite ?Hnot, ?Hadd;
      (split; [intros H; try discriminate H; repeat split; congruence
              |intros (? & ? & ? & ? & ?); congruence]).
  - rewrite Hup. cbn [snd dom setDom]. rewrite hasClass_alter, decide_True by reflexivity.
    destruct (dom p !! corner); [|reflexivity]. rewrite contains_remove. reflexivity.
Qed.

Lemma keydown_pressed_iff_witness :
  onKeyDown 7 (Demo.window 0 0%nat) (mkKey "V" false false)
    (Demo.page Demo.plainLinks) =
    (Normal tt,
     setDom (alter (withClassList (ClassList.add "pressed")) 7%nat Demo.plainLinks)
            (Demo.page Demo.plainLinks)).
Proof.
  apply (keydown_pressed_iff Demo.utc (Demo.scriptOf Demo.plainLinks) 7
           (Demo.window 0 0%nat) (mkKey "V" false false)
           (Demo.page Demo.plainLinks) 0 (Demo.el "BODY" None None [] None)).
  - right. reflexivity.
  - vm_compute. reflexivity.
  - reflexivity.
  - reflexivity.
Defined.

(** ** Null checks *)

Lemma onKeyDown_total (corner : Handle) (w : Window) (e : KeyboardEvent) :
  total (onKeyDown corner w e).
Proof. unfold onKeyDown, get_tagName, get_isContentEditable, classList_add. total_tac. Qed.

Lemma updateActiveNav_total (cfg : Config) (links secs : list Handle) (w : Window) :
  total (updateActiveNav cfg links secs w).
Proof. intros p. exists tt. now rewrite updateActiveNav_run. Qed.

Lemma runListeners_total (ls : list (Run unit)) (p : Page) :
  Forall total ls -> Forall (fun c => c = Normal tt) (fst (runListeners ls p)).
Proof.
  intros H. revert p. induction H as [|l ls Hl _ IH]; intros p; cbn [runListeners].
  - constructor.
  - destruct (Hl p) as [[] Ha]. destruct (l p) as [c p1]. cbn [fst] in Ha. subst c.
    specialize (IH p1). destruct (runListeners ls p1) as [cs p2]. cbn [fst] in *.
    now constructor.
Qed.

Lemma listeners_total (tza : Z -> Z) (s : Script) (w : Window) (ev : Event) :
  (closeButton s <> None -> terminal s <> None) ->
  Forall total (listeners tza s w ev).
Proof.
  intros Hterm.
  destruct ev as [|entries| | | | |e|e|[|]]; cbn [listeners].
  - repeat constructor; [apply updateActiveNav_total|].
    unfold onScrollHint, classList_add. total_tac.
  - repeat constructor. unfold observerCallback, classList_add. total_tac.
  - destruct (closeButton s) as [b|]; repeat constructor.
    destruct (terminal s) as [t|] eqn:Et; [|now destruct Hterm].
    unfold onCloseClick, classList_add. rewrite Et. total_tac.
  - destruct (footerOrigin s); repeat constructor.
    unfold onFooterOriginClick, classList_toggle, classList_contains. total_tac.
  - destruct (logo s); repeat constructor.
    unfold onLogoClick. total_tac.
  - destruct (cornerLogo s); repeat constructor.
    unfold onCornerLogoClick, classList_add. total_tac.
  - destruct (cornerLogo s); repeat constructor. apply onKeyDown_total.
  - destruct (cornerLogo s); repeat constructor.
    unfold onKeyUp, classList_remove. total_tac.
  - destruct (footerOrigin s); repeat constructor.
    unfold onFootnoteScrollTimer. total_tac.
  - destruct (cornerLogo s); repeat constructor.
    unfold onReleaseCornerLogoTimer, classList_remove. total_tac.
Qed.

(** C6. The script completes on every document, whichever of the optional
    elements it lacks. The elements its listeners hold are what
    [getElementById] and [querySelector] find in the document it leaves,
    null when there is none, and a close button is held only together
    with its terminal. Afterwards, whatever events arrive in whatever
    window, every listener that an event reaches completes: none reads a
    property of null. The events of an element that is missing reach no
    listener and leave the page as it is. *)
Theorem no_null_is_dereferenced (inherited : string -> option string) (tza : Z -> Z)
    (n1 n2 n3 : JSDate) (w0 : Window) (p : Page) :
  exists s p',
    init inherited tza n1 n2 n3 w0 p = (Normal s, p') /\
    terminal s = getElementById "work-terminal" (dom p') /\
    footerOrigin s = querySelector (sel_class "footer-origin") (dom p') /\
    logo s = querySelector (sel_class "logo") (dom p') /\
    cornerLogo s = querySelector (sel_class "corner-logo") (dom p') /\
    (closeButton s <> None -> terminal s <> None) /\
    (forall (evs : list (Window * Event)) (we : Window * Event),
       Forall (fun c => c = Normal tt)
              (fst (dispatch tza s (runEvents tza s p' evs) we))) /\
    (forall (q : Page) (w : Window) (e : KeyboardEvent),
       (closeButton s = None -> step tza s q (w, EvClickClose) = q) /\
       (footerOrigin s = None ->
        step tza s q (w, EvClickFooterOrigin) = q /\
        step tza s q (w, EvTimer TimerFootnoteScroll) = q) /\
       (logo s = None -> step tza s q (w, EvClickLogo) = q) /\
       (cornerLogo s = None ->
        step tza s q (w, EvClickCornerLogo) = q /\
        step tza s q (w, EvKeyDown e) = q /\
        step tza s q (w, EvKeyUp e) = q /\
        step tza s q (w, EvTimer TimerReleaseCornerLogo) = q)).
Proof.
  destruct (init_run inherited tza n1 n2 n3 w0 p) as [p1 [_ Hrun]]. cbn zeta in Hrun.
  eexists _, _. split; [exact Hrun|]. clear Hrun.
  cbn [terminal footerOrigin logo cornerLogo closeButton dom setDom].
  do 4 (split; [reflexivity|]).
  match goal with |- (?A -> ?B) /\ _ => assert (Hterm : A -> B) end.
  { intros H. destruct (getElementById "work-terminal" _); [discriminate|exact H]. }
  split; [exact Hterm|]. split.
  - intros evs [w ev]. unfold dispatch. cbn [fst snd].
    apply runListeners_total, listeners_total. exact Hterm.
  - intros q w e. unfold step, dispatch. cbn [fst snd listeners closeButton footerOrigin
      logo cornerLogo].
    split; [intros ->; reflexivity|].
    split; [intros ->; split; reflexivity|].
    split; [intros ->; reflexivity|].
    intros ->. repeat split.
Qed.
(** ** Number arithmetic: rounding *)

Module Binary64Facts.

Import Binary64.
Local Open Scope Q_scope.

Lemma two_pow_pos e : 0 < two_pow e.
Proof. apply Qpower_0_lt. reflexivity. Qed.

Lemma two_pow_add a b : two_pow (a + b) == two_pow a * two_pow b.
Proof. apply Qpower_plus. discriminate. Qed.

Lemma two_pow_le a b : (a <= b)%Z -> two_pow a <= two_pow b.
Proof. intros H. apply Qpower_le_compat_l; [exact H|discriminate]. Qed.

Lemma two_pow_lt a b : (a < b)%Z -> two_pow a < two_pow b.
Proof. intros H. apply Qpower_lt_compat_l; [exact H|reflexivity]. Qed.

Lemma two_pow_lt_inv a b : two_pow a < two_pow b -> (a < b)%Z.
Proof. intros H. apply (Qpower_lt_compat_l_inv 2); [exact H|reflexivity]. Qed.

Lemma two_pow_Z n : (0 <= n)%Z -> two_pow n == inject_Z (2 ^ n).
Proof. intros H. unfold two_pow. now rewrite Zpower_Qpower. Qed.

Lemma two_pow_sub a b : two_pow (a - b) == two_pow a / two_pow b.
Proof. apply Qpower_minus. discriminate. Qed.

(* x = n/d, positive *)
Lemma ilog2_spec x : 0 < x -> two_pow (ilog2 x) <= x /\ x < two_pow (ilog2 x + 1).
Proof.
  intros Hx. destruct x as [n d]. 
  assert (Hn : (0 < n)%Z) by (unfold Qlt in Hx; simpl in Hx; lia).
  unfold ilog2. cbn [Qnum Qden].
  set (a := Z.log2 n). set (b := Z.log2 (Z.pos d)).
  destruct (Z.log2_spec n Hn) as [Ha1 Ha2]. fold a in Ha1, Ha2.
  destruct (Z.log2_spec (Z.pos d) ltac:(lia)) as [Hb1 Hb2]. fold b in Hb1, Hb2.
  assert (Ha0 : (0 <= a)%Z) by apply Z.log2_nonneg.
  assert (Hb0 : (0 <= b)%Z) by apply Z.log2_nonneg.
  assert (Hx' : n # d == inject_Z n / inject_Z (Z.pos d)) by apply Qmake_Qdiv.
  assert (Hdpos : 0 < inject_Z (Z.pos d)) by (unfold Qlt; simpl; lia).
  assert (Hup : n # d < two_pow (a - b + 1)).
  { replace (a - b + 1)%Z with ((a + 1) - b)%Z by lia.
    rewrite two_pow_sub, !two_pow_Z by lia. rewrite Hx'.
    apply Qlt_shift_div_l; [rewrite <- two_pow_Z by lia; apply two_pow_pos|].
    unfold Qdiv. rewrite <- Qmult_assoc, (Qmult_comm (/ _)), Qmult_assoc.
    apply Qlt_shift_div_r; [exact Hdpos|].
    rewrite <- !inject_Z_mult, <- Zlt_Qlt. nia. }
  assert (Hlow : two_pow (a - b - 1) < n # d).
  { replace (a - b - 1)%Z with (a - (b + 1))%Z by lia.
    rewrite two_pow_sub, !two_pow_Z by lia. rewrite Hx'.
    apply Qlt_shift_div_r; [rewrite <- two_pow_Z by lia; apply two_pow_pos|].
    unfold Qdiv. rewrite <- Qmult_assoc, (Qmult_comm (/ _)), Qmult_assoc.
    apply Qlt_shift_div_l; [exact Hdpos|].
    rewrite <- !inject_Z_mult, <- Zlt_Qlt. nia. }
  destruct (Qle_bool (two_pow (a - b)) (n # d)) eqn:E.
  - apply Qle_bool_iff in E. split; assumption.
  - split; [apply Qlt_le_weak; exact Hlow|].
    replace (a - b - 1 + 1)%Z with (a - b)%Z by lia.
    apply Qnot_le_lt. intros H. apply Qle_bool_iff in H. congruence.
Qed.

Lemma ilog2_unique x L : two_pow L <= x -> x < two_pow (L + 1) -> ilog2 x = L.
Proof.
  intros H1 H2.
  assert (Hx : 0 < x) by (eapply Qlt_le_trans; [apply (two_pow_pos L)|exact H1]).
  destruct (ilog2_spec x Hx) as [S1 S2].
  assert (A : (ilog2 x < L + 1)%Z)
    by (apply two_pow_lt_inv; eapply Qle_lt_trans; eassumption).
  assert (B : (L < ilog2 x + 1)%Z)
    by (apply two_pow_lt_inv; eapply Qle_lt_trans; eassumption).
  lia.
Qed.

Lemma ilog2_comp x y : 0 < x -> x == y -> ilog2 x = ilog2 y.
Proof.
  intros Hx E. symmetry. destruct (ilog2_spec x Hx) as [S1 S2].
  apply ilog2_unique; rewrite <- E; assumption.
Qed.

Lemma ilog2_mono x y : 0 < x -> x <= y -> (ilog2 x <= ilog2 y)%Z.
Proof.
  intros Hx Hxy.
  assert (Hy : 0 < y) by (eapply Qlt_le_trans; eassumption).
  destruct (ilog2_spec x Hx) as [S1 _], (ilog2_spec y Hy) as [_ T2].
  assert (A : (ilog2 x < ilog2 y + 1)%Z).
  { apply two_pow_lt_inv. eapply Qle_lt_trans; [exact S1|].
    eapply Qle_lt_trans; eassumption. }
  lia.
Qed.

(** roundHalfEven *)
Lemma RNE_comp t t' : t == t' -> roundHalfEven t = roundHalfEven t'.
Proof.
  intros E. unfold roundHalfEven. rewrite (Qfloor_comp _ _ E).
  assert (E2 : t - inject_Z (Qfloor t') == t' - inject_Z (Qfloor t')) by now rewrite E.
  now rewrite (Qcompare_comp _ _ E2 (1#2) (1#2) (Qeq_refl _)).
Qed.

Lemma RNE_floor t : (Qfloor t <= roundHalfEven t <= Qfloor t + 1)%Z.
Proof.
  unfold roundHalfEven. destruct (_ ?= _); [destruct (Z.even _)| |]; lia.
Qed.

Lemma RNE_Z n : roundHalfEven (inject_Z n) = n.
Proof.
  unfold roundHalfEven. rewrite Qfloor_Z.
  assert (E : inject_Z n - inject_Z n == 0) by ring.
  rewrite (Qcompare_comp _ _ E (1#2) (1#2) (Qeq_refl _)). reflexivity.
Qed.

Lemma RNE_mono t t' : t <= t' -> (roundHalfEven t <= roundHalfEven t')%Z.
Proof.
  intros H. pose proof (Qfloor_resp_le _ _ H) as Hf.
  pose proof (RNE_floor t) as B. pose proof (RNE_floor t') as B'.
  destruct (Z.eq_dec (Qfloor t) (Qfloor t')) as [E|NE]; [|lia].
  unfold roundHalfEven in *. rewrite <- E in *.
  destruct (Qcompare_spec (t - inject_Z (Qfloor t)) (1#2)) as [C|C|C];
  destruct (Qcompare_spec (t' - inject_Z (Qfloor t)) (1#2)) as [C'|C'|C'];
    try lia; try (destruct (Z.even (Qfloor t)); lia); exfalso; lra.
Qed.

Lemma RNE_upper t : inject_Z (roundHalfEven t) <= t + (1#2).
Proof.
  unfold roundHalfEven.
  pose proof (Qfloor_le t) as Hl.
  destruct (Qcompare_spec (t - inject_Z (Qfloor t)) (1#2)) as [C|C|C].
  - destruct (Z.even _); [lra|]. rewrite inject_Z_plus. change (inject_Z 1) with 1. lra.
  - lra.
  - rewrite inject_Z_plus. change (inject_Z 1) with 1. lra.
Qed.

(** round *)
Lemma Qabs_pos_eq x : 0 < x -> Qabs x == x.
Proof. intros H. apply Qabs_pos. now apply Qlt_le_weak. Qed.

Lemma ulpExp_pos x : 0 < x -> ulpExp x = (ilog2 x - 52)%Z.
Proof.
  intros H. unfold ulpExp. f_equal. symmetry. apply ilog2_comp; [exact H|].
  symmetry. now apply Qabs_pos_eq.
Qed.

Lemma Qeq_bool_pos x : 0 < x -> Qeq_bool x 0 = false.
Proof.
  intros H. destruct (Qeq_bool x 0) eqn:E; [|reflexivity].
  apply Qeq_bool_eq in E. rewrite E in H. discriminate H.
Qed.

Lemma round_pos x : 0 < x ->
  round x = inject_Z (roundHalfEven (x / two_pow (ilog2 x - 52))) * two_pow (ilog2 x - 52).
Proof. intros H. unfold round. now rewrite (Qeq_bool_pos x H), (ulpExp_pos x H). Qed.

Lemma Qabs_nonzero_pos x : ~ x == 0 -> 0 < Qabs x.
Proof.
  intros H. destruct (Qlt_le_dec 0 x) as [Hp|Hn].
  - now rewrite Qabs_pos_eq.
  - rewrite (Qabs_neg x Hn).
    destruct (Qle_lt_or_eq _ _ Hn) as [Hlt|Heq]; [lra|contradiction].
Qed.

Lemma round_comp x y : x == y -> round x == round y.
Proof.
  intros E. unfold round.
  assert (Eb : Qeq_bool x 0 = Qeq_bool y 0).
  { destruct (Qeq_bool x 0) eqn:A, (Qeq_bool y 0) eqn:B; try reflexivity.
    - apply Qeq_bool_eq in A. rewrite E in A. apply Qeq_eq_bool in A. congruence.
    - apply Qeq_bool_eq in B. rewrite <- E in B. apply Qeq_eq_bool in B. congruence. }
  rewrite <- Eb. destruct (Qeq_bool x 0) eqn:A; [reflexivity|].
  assert (Hx : 0 < Qabs x).
  { apply Qabs_nonzero_pos. intros Q0. apply Qeq_eq_bool in Q0. congruence. }
  assert (Ee : ulpExp x = ulpExp y).
  { unfold ulpExp. f_equal. apply ilog2_comp; [exact Hx|]. apply Qabs_wd. exact E. }
  rewrite <- Ee.
  assert (Et : x / two_pow (ulpExp x) == y / two_pow (ulpExp x))
    by (apply Qdiv_comp; [exact E|reflexivity]).
  now rewrite (RNE_comp _ _ Et).
Qed.

Lemma scaled_bounds x : 0 < x ->
  two_pow 52 <= x / two_pow (ilog2 x - 52) /\ x / two_pow (ilog2 x - 52) < two_pow 53.
Proof.
  intros Hx. destruct (ilog2_spec x Hx) as [S1 S2].
  pose proof (two_pow_pos (ilog2 x - 52)) as He.
  split.
  - apply Qle_shift_div_l; [exact He|].
    rewrite <- two_pow_add. now replace (52 + (ilog2 x - 52))%Z with (ilog2 x) by lia.
  - apply Qlt_shift_div_r; [exact He|].
    rewrite <- two_pow_add. now replace (53 + (ilog2 x - 52))%Z with (ilog2 x + 1)%Z by lia.
Qed.

Lemma RNE_scaled x : 0 < x ->
  two_pow 52 <= inject_Z (roundHalfEven (x / two_pow (ilog2 x - 52))) <= two_pow 53.
Proof.
  intros Hx. destruct (scaled_bounds x Hx) as [B1 B2].
  rewrite (two_pow_Z 52) in * by lia. rewrite (two_pow_Z 53) in * by lia. split.
  - rewrite <- Zle_Qle. rewrite <- (RNE_Z (2 ^ 52)). now apply RNE_mono.
  - rewrite <- Zle_Qle. rewrite <- (RNE_Z (2 ^ 53)).
    apply RNE_mono. now apply Qlt_le_weak.
Qed.

Lemma round_pos_pos x : 0 < x -> 0 < round x.
Proof.
  intros Hx. rewrite (round_pos x Hx).
  destruct (RNE_scaled x Hx) as [B _].
  apply Qmult_lt_0_compat; [|apply two_pow_pos].
  eapply Qlt_le_trans; [apply (two_pow_pos 52)|exact B].
Qed.

Lemma round_0 : round 0 == 0.
Proof. reflexivity. Qed.

Lemma round_mono_pos x y : 0 < x -> x <= y -> round x <= round y.
Proof.
  intros Hx Hxy.
  assert (Hy : 0 < y) by (eapply Qlt_le_trans; eassumption).
  rewrite (round_pos x Hx), (round_pos y Hy).
  pose proof (ilog2_mono x y Hx Hxy) as Hl.
  destruct (Z.eq_dec (ilog2 x) (ilog2 y)) as [E|NE].
  - rewrite E. apply Qmult_le_compat_r; [|apply Qlt_le_weak, two_pow_pos].
    rewrite <- Zle_Qle. apply RNE_mono.
    apply Qmult_le_compat_r; [exact Hxy|].
    apply Qlt_le_weak, Qinv_lt_0_compat, two_pow_pos.
  - destruct (RNE_scaled x Hx) as [_ Bx], (RNE_scaled y Hy) as [By _].
    eapply Qle_trans.
    { apply Qmult_le_compat_r; [exact Bx|apply Qlt_le_weak, two_pow_pos]. }
    eapply Qle_trans.
    2:{ apply Qmult_le_compat_r; [exact By|apply Qlt_le_weak, two_pow_pos]. }
    rewrite <- !two_pow_add. apply two_pow_le. lia.
Qed.

Lemma round_mono_nonneg x y : 0 <= x -> x <= y -> round x <= round y.
Proof.
  intros Hx Hxy. destruct (Qle_lt_or_eq _ _ Hx) as [Hp|Hz].
  - now apply round_mono_pos.
  - rewrite <- (round_comp 0 x Hz), round_0.
    destruct (Qle_lt_or_eq 0 y ltac:(lra)) as [Hyp|Hyz].
    + apply Qlt_le_weak. now apply round_pos_pos.
    + rewrite <- (round_comp 0 y Hyz), round_0. lra.
Qed.



End Binary64Facts.

(** ** calculateYOE *)

Section YOE.

Import Binary64 Binary64Facts.
Local Open Scope Q_scope.

Lemma inject_Z_minus (x y : Z) : inject_Z (x - y) = inject_Z x - inject_Z y.
Proof. unfold Z.sub. now rewrite inject_Z_plus, inject_Z_opp. Qed.



Lemma Qfloor_unique (x : Q) (n : Z) :
  inject_Z n <= x -> x < inject_Z (n + 1) -> Qfloor x = n.
Proof.
  intros H1 H2.
  pose proof (Qfloor_resp_le _ _ H1) as A. rewrite Qfloor_Z in A.
  pose proof (Qfloor_le x) as B.
  assert (C : inject_Z (Qfloor x) < inject_Z (n + 1)) by (eapply Qle_lt_trans; eassumption).
  rewrite <- Zlt_Qlt in C. lia.
Qed.




End YOE.


(** The rounding of [Binary64] against the Standard Library's binary64
    division and addition, at the instant one millisecond short of 262140
    years after the milestone, where the sum 5 + 262139.99999999997 falls
    half way between two values and goes up to the even one. *)
Example round_agrees_with_IEEE :
  let ms := 262140 * 31557600000 - 1 in
  let q := SFdiv 53 1024 (Binary64.SFofZ ms) (Binary64.SFofZ 31557600000) in
  (Binary64.SFvalue q == Binary64.fdiv (inject_Z ms) (inject_Z 31557600000))%Q /\
  (Binary64.SFvalue (SFadd 53 1024 (Binary64.SFofZ 5) q)
   == Binary64.fadd 5 (Binary64.fdiv (inject_Z ms) (inject_Z 31557600000)))%Q /\
  Binary64.floor (Binary64.fadd 5 (Binary64.fdiv (inject_Z ms) (inject_Z 31557600000)))
  = 262145 /\
  5 + ms / 31557600000 = 262144.
Proof. vm_compute. repeat split. Qed.

Example yoe_first_anniversary :
  calculateYOE Demo.utc (newDate Demo.utc 2025 8 10) = "5+" /\
  calculateYOE Demo.utc (newDate Demo.utc 2025 8 11) = "6+" /\
  calculateYOE Demo.cet (newDate Demo.cet 2026 10 3) = "7+".
Proof. vm_compute. repeat split. Qed.



(** * Further properties of the script *)

(** ** Which classes the listeners touch *)

Ltac preserves_by neq :=
  repeat first
    [ progress intros
    | solve [apply preserves_ret; typeclasses eauto]
    | solve [apply preserves_getDom; typeclasses eauto]
    | solve [apply preserves_emit; typeclasses eauto]
    | solve [apply preserves_deref; typeclasses eauto]
    | apply keeps_add
    | (apply keeps_remove; neq)
    | (apply keeps_toggle; neq)
    | (apply same_add; neq)
    | (apply same_remove; neq)
    | (apply same_toggle; neq)
    | (apply preserves_bind; [try typeclasses eauto..| |])
    | (apply preserves_forEach; [try typeclasses eauto..|])
    | (apply preserves_foldM; [try typeclasses eauto..|])
    | match goal with
      | |- preserves _ (if ?b then _ else _) => destruct b
      | |- preserves _ (match ?o with Some _ => _ | None => _ end) => destruct o
      end ].

Ltac unfold_listeners :=
  unfold onScrollHint, observerCallback, onCloseClick, onFooterOriginClick,
    onLogoClick, onCornerLogoClick, onKeyDown, onKeyUp, onFootnoteScrollTimer,
    onReleaseCornerLogoTimer, classList_contains, get_tagName, get_isContentEditable.

Ltac split_listeners :=
  repeat match goal with
         | |- Forall _ (match ?o with Some _ => _ | None => _ end) => destruct o
         | |- Forall _ [] => constructor
         | |- Forall _ (_ :: _) => constructor
         end.

Lemma updateActiveNav_same (c : string) (cfg : Config) (links secs : list Handle)
    (w : Window) :
  c <> "active" -> preserves (sameClass c) (updateActiveNav cfg links secs w).
Proof.
  intros Hne p. rewrite updateActiveNav_run. cbn [snd dom setDom]. split.
  - symmetry. apply attrs_setActive.
  - intros h. symmetry. now apply hasClass_setActive_other.
Qed.

Lemma listeners_same_untouched (c : string) (tza : Z -> Z) (s : Script) (w : Window)
    (ev : Event) :
  c <> "visible" -> c <> "active" -> c <> "hidden" -> c <> "expanded" -> c <> "pressed" ->
  Forall (preserves (sameClass c)) (listeners tza s w ev).
Proof.
  intros Hv Ha Hh He Hp.
  destruct ev as [|entries| | | | |e|e|[|]]; cbn [listeners]; split_listeners;
    try (apply updateActiveNav_same; exact Ha).
  all: unfold_listeners.
  all: preserves_by congruence.
Qed.

Lemma listeners_keep_class (c : string) (tza : Z -> Z) (s : Script) (w : Window)
    (ev : Event) :
  c <> "active" -> c <> "expanded" -> c <> "pressed" ->
  Forall (preserves (keepsClass c)) (listeners tza s w ev).
Proof.
  intros Ha He Hp.
  destruct ev as [|entries| | | | |e|e|[|]]; cbn [listeners]; split_listeners;
    try (apply updateActiveNav_keeps; exact Ha).
  all: unfold_listeners.
  all: preserves_by congruence.
Qed.

(** X1. Whatever events arrive, in whatever window, the listeners change
    nothing of the document but class lists, and of the class lists nothing
    but the five classes visible, active, hidden, expanded and pressed: every
    attribute, text and parent stays, and any other class is on an element
    afterwards exactly when it was before. *)
Theorem listeners_touch_five_classes_only (tza : Z -> Z) (s : Script) (p : Page)
    (evs : list (Window * Event)) :
  attrs (dom (runEvents tza s p evs)) = attrs (dom p) /\
  forall c : string,
    c ∉ ["visible"; "active"; "hidden"; "expanded"; "pressed"] ->
    forall h, hasClass (dom (runEvents tza s p evs)) h c = hasClass (dom p) h c.
Proof.
  assert (H : forall c : string,
             c ∉ ["visible"; "active"; "hidden"; "expanded"; "pressed"] ->
             sameClass c (dom p) (dom (runEvents tza s p evs))).
  { intros c Hc. apply runEvents_preserves; try typeclasses eauto.
    intros w ev. apply listeners_same_untouched; intros ->; apply Hc;
      repeat (first [apply list_elem_of_here | apply list_elem_of_further]). }
  split.
  - symmetry. apply (H "").
    intros Hin. apply list_elem_of_In in Hin. cbn in Hin.
    repeat destruct Hin as [Hin|Hin]; try discriminate Hin. exact Hin.
  - intros c Hc h. symmetry. now apply (H c Hc).
Qed.

(** X2. The listeners take from an element no class but active, expanded
    and pressed: an element that carries any other class, such as hidden on
    the closed terminal or on the scroll hint, carries it after every
    sequence of events. *)
Theorem only_three_classes_are_removed (tza : Z -> Z) (s : Script) (p : Page)
    (evs : list (Window * Event)) (c : string) (h : Handle) :
  c ∉ ["active"; "expanded"; "pressed"] ->
  hasClass (dom p) h c = true ->
  hasClass (dom (runEvents tza s p evs)) h c = true.
Proof.
  intros Hc. revert h.
  change (keepsClass c (dom p) (dom (runEvents tza s p evs))).
  apply runEvents_preserves; try typeclasses eauto.
  intros w ev. apply listeners_keep_class; intros ->; apply Hc;
    repeat (first [apply list_elem_of_here | apply list_elem_of_further]).
Qed.

Lemma only_three_classes_are_removed_witness :
  hasClass
    (dom (runEvents Demo.utc (Demo.scriptOf Demo.plainLinks)
            (snd (Demo.load Demo.plainLinks))
            [(Demo.window 400 0%nat, EvScroll);
             (Demo.window 400 0%nat, EvIntersection [(6%nat, true)]);
             (Demo.window 400 0%nat, EvKeyUp (mkKey "v" false false))]))
    7 "corner-logo" = true.
Proof.
  apply (only_three_classes_are_removed Demo.utc (Demo.scriptOf Demo.plainLinks)
           (snd (Demo.load Demo.plainLinks))).
  - intros Hin. apply list_elem_of_In in Hin. cbn in Hin.
    repeat destruct Hin as [Hin|Hin]; try discriminate Hin. exact Hin.
  - vm_compute. reflexivity.
Defined.

(** ** The cases of updateActiveNav away from the bottom *)

Lemma matchedHref_last (cfg : Config) (secs : list Handle) (w : Window) (d : Dom) :
  matchedHref cfg secs w d =
    (fun section => "#" +:+ default "null" (d !! section ≫= idAttr))
      <$> last (List.filter (sectionContains cfg w) secs).
Proof.
  unfold matchedHref. induction secs as [|x secs IH] using rev_ind; [reflexivity|].
  rewrite foldl_app, List.filter_app. cbn [foldl List.filter].
  destruct (sectionContains cfg w x).
  - now rewrite last_snoc.
  - now rewrite app_nil_r.
Qed.

Lemma filter_nil_last {A} (l : list A) : l = [] -> last l = None.
Proof. now intros ->. Qed.

(** X3. Away from the bottom threshold a run of updateActiveNav decides by
    the sections alone. Above the first section no link is left active,
    whatever the other sections say. Otherwise the last section, in document
    order, whose span holds the scroll position decides: a link is left
    active exactly when its href is "#" followed by that section's id; and
    when no span holds the position, no link is left active. *)
Theorem updateActiveNav_by_section (tza : Z -> Z) (links secs : list Handle) (w : Window)
    (p : Page) :
  bottomReached (CONFIG tza) w = false ->
  (forall link, link ∈ links -> (link < length (dom p))%nat) ->
  let d' := dom (snd (updateActiveNav (CONFIG tza) links secs w p)) in
  (aboveFirstSection (CONFIG tza) secs w = true ->
   forall link, link ∈ links -> hasClass d' link "active" = false) /\
  (aboveFirstSection (CONFIG tza) secs w = false ->
   forall section,
     last (List.filter (sectionContains (CONFIG tza) w) secs) = Some section ->
     forall link, link ∈ links ->
       (hasClass d' link "active" = true <->
        dom p !! link ≫= hrefAttr
        = Some ("#" +:+ default "null" (dom p !! section ≫= idAttr)))) /\
  (aboveFirstSection (CONFIG tza) secs w = false ->
   List.filter (sectionContains (CONFIG tza) w) secs = [] ->
   forall link, link ∈ links -> hasClass d' link "active" = false).
Proof.
  intros Hbottom Hvalid d'. subst d'. rewrite updateActiveNav_run. cbn [snd dom setDom].
  assert (Hcl : forall link, link ∈ links ->
            hasClass (setActive (navOn (CONFIG tza) links secs w (dom p)) links (dom p))
                     link "active"
            = navOn (CONFIG tza) links secs w (dom p) link).
  { intros link Hin. rewrite hasClass_setActive by exact Hin.
    now rewrite (bool_decide_eq_true_2 _ (Hvalid link Hin)), andb_true_r. }
  split; [|split].
  - intros Habove link Hin. rewrite (Hcl link Hin). unfold navOn.
    rewrite Hbottom, Habove. reflexivity.
  - intros Habove section Hlast link Hin. rewrite (Hcl link Hin). unfold navOn.
    rewrite Hbottom, Habove, matchedHref_last, Hlast.
    cbn [fmap option_fmap option_map]. unfold hrefIs. apply bool_decide_eq_true.
  - intros Habove Hnone link Hin. rewrite (Hcl link Hin). unfold navOn.
    rewrite Hbottom, Habove, matchedHref_last, (filter_nil_last _ Hnone).
    reflexivity.
Qed.

Lemma updateActiveNav_by_section_witness :
  hasClass
    (dom (snd (updateActiveNav (CONFIG Demo.utc) [2%nat; 3%nat; 4%nat] [5%nat; 6%nat]
                 (Demo.window 950 0%nat) (Demo.page Demo.plainLinks))))
    4 "active" = true <->
  Demo.plainLinks !! 4%nat ≫= hrefAttr
  = Some ("#" +:+ default "null" (Demo.plainLinks !! 6%nat ≫= idAttr)).
Proof.
  refine (proj1 (proj2 (updateActiveNav_by_section Demo.utc [2%nat; 3%nat; 4%nat]
           [5%nat; 6%nat] (Demo.window 950 0%nat) (Demo.page Demo.plainLinks) _ _))
           _ 6%nat _ 4%nat _).
  - vm_compute. reflexivity.
  - intros link Hin. apply list_elem_of_In in Hin. cbn in Hin. cbn. intuition lia.
  - vm_compute. reflexivity.
  - vm_compute. reflexivity.
  - apply list_elem_of_In. cbn. tauto.
Defined.

(** X4. A run of updateActiveNav completes, issues no effect, leaves every
    element that is not a navigation link exactly as it was, and of a
    navigation link changes nothing but the token active: the attributes and
    the other tokens, in their order, stay. With no navigation links the page
    is left as it was. *)
Theorem updateActiveNav_frame (cfg : Config) (links secs : list Handle) (w : Window)
    (p : Page) :
  let r := updateActiveNav cfg links secs w p in
  fst r = Normal tt /\
  effects (snd r) = effects p /\
  attrs (dom (snd r)) = attrs (dom p) /\
  (forall h, h ∉ links -> dom (snd r) !! h = dom p !! h) /\
  (forall h, ClassList.remove "active" <$> (classList <$> dom (snd r) !! h)
             = ClassList.remove "active" <$> (classList <$> dom p !! h)) /\
  (links = [] -> snd r = p).
Proof.
  cbn zeta. rewrite updateActiveNav_run. cbn [fst snd dom effects setDom].
  split; [reflexivity|]. split; [reflexivity|]. split; [apply attrs_setActive|].
  split; [|split].
  - intros h Hh. rewrite setActive_lookup. now rewrite bool_decide_eq_false_2.
  - intros h. rewrite setActive_lookup. case_bool_decide; [|reflexivity].
    destruct (dom p !! h) as [el|]; [|reflexivity].
    cbn [fmap option_fmap option_map withClassList classList]. f_equal.
    unfold activeOp. destruct (navOn cfg links secs w (dom p) h).
    + now rewrite remove_add, remove_remove.
    + apply remove_remove.
  - intros ->. cbn. apply setDom_dom.
Qed.

(** ** The observer callback *)

Lemma add_add (c : string) (cl : list string) :
  ClassList.add c (ClassList.add c cl) = ClassList.add c cl.
Proof.
  unfold ClassList.add at 1. now rewrite contains_add, eqb_string_refl.
Qed.

Lemma observerCallback_lookup (entries : list (Handle * bool)) (p : Page) :
  fst (observerCallback entries p) = Normal tt /\
  effects (snd (observerCallback entries p)) = effects p /\
  forall j,
    dom (snd (observerCallback entries p)) !! j =
      if bool_decide ((j, true) ∈ entries)
      then withClassList (ClassList.add "visible") <$> dom p !! j
      else dom p !! j.
Proof.
  unfold observerCallback. revert p.
  induction entries as [|[h b] entries IH]; intros p; [now repeat split|].
  cbn [forEach fst snd].
  set (step := if b then classList_add h "visible" else mret tt).
  assert (Hstep : step p =
            (Normal tt,
             setDom (if b then alter (withClassList (ClassList.add "visible")) h (dom p)
                     else dom p) p)).
  { unfold step. destruct b; [reflexivity|]. cbn. now rewrite setDom_dom. }
  erewrite bind_normal by exact Hstep. clear Hstep step.
  destruct (IH (setDom (if b then alter (withClassList (ClassList.add "visible")) h (dom p)
                        else dom p) p)) as (Hn & He & Hl).
  split; [exact Hn|]. split; [exact He|]. intros j. rewrite Hl. cbn [dom setDom].
  destruct b.
  - destruct (decide (h = j)) as [->|Hne].
    + rewrite list_lookup_alter_eq.
      rewrite (bool_decide_eq_true_2 ((j, true) ∈ (j, true) :: entries))
        by apply list_elem_of_here.
      case_bool_decide; [|reflexivity].
      destruct (dom p !! j) as [el|]; [|reflexivity].
      cbn [fmap option_fmap option_map]. rewrite withClassList_compose.
      unfold withClassList. cbn. now rewrite add_add.
    + rewrite list_lookup_alter_ne by exact Hne.
      assert (Hiff : (j, true) ∈ (h, true) :: entries <-> (j, true) ∈ entries).
      { rewrite elem_of_cons. split; [intros [E|?]; [congruence|assumption]|auto]. }
      destruct (decide ((j, true) ∈ entries)) as [Hin|Hnin].
      * rewrite !bool_decide_eq_true_2; [reflexivity|tauto|exact Hin].
      * rewrite !bool_decide_eq_false_2; [reflexivity|tauto|exact Hnin].
  - assert (Hiff : (j, true) ∈ (h, false) :: entries <-> (j, true) ∈ entries).
    { rewrite elem_of_cons. split; [intros [E|?]; [congruence|assumption]|auto]. }
    destruct (decide ((j, true) ∈ entries)) as [Hin|Hnin].
    + rewrite !bool_decide_eq_true_2; [reflexivity|tauto|exact Hin].
    + rewrite !bool_decide_eq_false_2; [reflexivity|tauto|exact Hnin].
Qed.

(** X5. The observer callback completes and issues no effect. Every target
    it is told intersects carries visible afterwards, with the tokens it had
    in front; an element that is no intersecting target of the batch, such as
    the target of an entry that does not intersect, is exactly as it was; and
    the same batch delivered again changes nothing. *)
Theorem observerCallback_marks (entries : list (Handle * bool)) (p : Page) :
  let p' := snd (observerCallback entries p) in
  fst (observerCallback entries p) = Normal tt /\
  effects p' = effects p /\
  (forall h el, (h, true) ∈ entries -> dom p !! h = Some el ->
     dom p' !! h = Some (withClassList (ClassList.add "visible") el) /\
     hasClass (dom p') h "visible" = true) /\
  (forall h, (h, true) ∉ entries -> dom p' !! h = dom p !! h) /\
  snd (observerCallback entries p') = p'.
Proof.
  cbn zeta. destruct (observerCallback_lookup entries p) as (Hn & He & Hl).
  split; [exact Hn|]. split; [exact He|]. split; [|split].
  - intros h el Hin Hel.
    assert (E : dom (snd (observerCallback entries p)) !! h
                = Some (withClassList (ClassList.add "visible") el))
      by (rewrite Hl, bool_decide_eq_true_2, Hel by exact Hin; reflexivity).
    split; [exact E|]. unfold hasClass. rewrite E.
    cbn [withClassList classList]. rewrite contains_add. reflexivity.
  - intros h Hnin. rewrite Hl. now rewrite bool_decide_eq_false_2.
  - destruct (observerCallback_lookup entries (snd (observerCallback entries p)))
      as (_ & He2 & Hl2).
    destruct (snd (observerCallback entries (snd (observerCallback entries p))))
      as [d2 e2] eqn:E2.
    destruct (snd (observerCallback entries p)) as [d1 e1] eqn:E1.
    cbn [dom effects] in *. f_equal; [|exact He2].
    apply list_eq. intros j. rewrite Hl2. case_bool_decide; [|reflexivity].
    rewrite Hl. rewrite bool_decide_eq_true_2 by assumption.
    destruct (dom p !! j) as [el|]; [|reflexivity].
    cbn [fmap option_fmap option_map]. rewrite withClassList_compose.
    unfold withClassList. cbn. now rewrite add_add.
Qed.

(** ** Press and release *)

Lemma remove_absent (c : string) (cl : list string) :
  ClassList.contains c cl = false -> ClassList.remove c cl = cl.
Proof.
  unfold ClassList.contains, ClassList.remove.
  induction cl as [|x cl IH]; cbn; [reflexivity|].
  intros H. apply orb_false_elim in H as [Hx Hcl]. rewrite Hx. cbn. now rewrite IH.
Qed.

Lemma remove_add_absent (c : string) (cl : list string) :
  ClassList.contains c cl = false -> ClassList.remove c (ClassList.add c cl) = cl.
Proof. intros H. rewrite remove_add. now apply remove_absent. Qed.

Lemma alter_restore (f : list string -> list string) (h : Handle) (d : Dom) :
  (forall el, d !! h = Some el -> f (classList el) = classList el) ->
  alter (withClassList f) h d = d.
Proof.
  intros H. apply list_eq. intros j. destruct (decide (h = j)) as [->|Hne].
  - rewrite list_lookup_alter_eq. destruct (d !! j) as [el|] eqn:E; [|reflexivity].
    cbn. f_equal. unfold withClassList. rewrite (H el eq_refl). now destruct el.
  - now rewrite list_lookup_alter_ne.
Qed.

Lemma hasClass_false_lookup (d : Dom) (h : Handle) (c : string) (el : Element) :
  hasClass d h c = false -> d !! h = Some el -> ClassList.contains c (classList el) = false.
Proof. unfold hasClass. intros H E. now rewrite E in H. Qed.

Lemma onKeyDown_run (corner : Handle) (w : Window) (e : KeyboardEvent) (p : Page)
    (a : Handle) (focused : Element) :
  String.eqb (JS.toLowerCase (key e)) "v" = true ->
  activeElement w = a ->
  dom p !! a = Some focused ->
  onKeyDown corner w e p =
    (Normal tt,
     if negb (metaKey e) && negb (ctrlKey e) &&
        negb (String.eqb (tagName focused) "INPUT") &&
        negb (String.eqb (tagName focused) "TEXTAREA") &&
        negb (isContentEditable focused)
     then setDom (alter (withClassList (ClassList.add "pressed")) corner (dom p)) p
     else p).
Proof.
  intros Hkey Hfocus Ha.
  unfold onKeyDown, get_tagName, get_isContentEditable.
  rewrite Hkey, Hfocus. cbn [andb].
  destruct (metaKey e), (ctrlKey e); cbn [negb andb]; try reflexivity.
  erewrite bind_normal by reflexivity.
  cbn [dom]. rewrite Ha. cbn [fmap option_fmap option_map default from_option id].
  destruct (String.eqb (tagName focused) "INPUT"); cbn [negb andb]; [reflexivity|].
  erewrite bind_normal by reflexivity.
  cbn [dom]. rewrite Ha. cbn [fmap option_fmap option_map default from_option id].
  destruct (String.eqb (tagName focused) "TEXTAREA"); cbn [negb andb]; [reflexivity|].
  erewrite bind_normal by reflexivity.
  cbn [dom]. rewrite Ha. cbn [fmap option_fmap option_map default from_option id].
  destruct (isContentEditable focused); reflexivity.
Qed.

(** X6. A keydown that is not the V key alone is ignored before the focus
    is looked at: with another key, or with meta or ctrl held, the keydown
    listener completes and leaves the page as it is, whatever has the
    focus. A keyup of another key is ignored as well. *)
Theorem other_keys_are_ignored (corner : Handle) (w : Window) (e : KeyboardEvent)
    (p : Page) :
  (key e <> "v" /\ key e <> "V") \/ metaKey e = true \/ ctrlKey e = true ->
  onKeyDown corner w e p = (Normal tt, p) /\
  (key e <> "v" /\ key e <> "V" -> onKeyUp corner e p = (Normal tt, p)).
Proof.
  intros H.
  assert (Hother : key e <> "v" /\ key e <> "V" ->
                   String.eqb (JS.toLowerCase (key e)) "v" = false).
  { intros [H1 H2]. destruct (String.eqb _ _) eqn:E; [|reflexivity].
    apply eqb_toLowerCase_v in E. tauto. }
  split.
  - unfold onKeyDown. destruct H as [H|[H|H]].
    + now rewrite (Hother H).
    + rewrite H. now destruct (String.eqb _ _).
    + rewrite H. now destruct (String.eqb _ _), (metaKey e).
  - intros H'. unfold onKeyUp. now rewrite (Hother H').
Qed.

Lemma other_keys_are_ignored_witness :
  onKeyDown 7 (Demo.window 0 0%nat) (mkKey "v" false true) (Demo.page Demo.plainLinks)
  = (Normal tt, Demo.page Demo.plainLinks).
Proof.
  refine (proj1 (other_keys_are_ignored 7 (Demo.window 0 0%nat) (mkKey "v" false true)
                   (Demo.page Demo.plainLinks) _)).
  right. right. reflexivity.
Defined.

(** X7. Press and release give the page back. When the corner logo does not
    carry pressed, a keydown of the V key that presses it followed by the
    keyup of the V key leaves the document as it was before the two; and so
    does a click on the corner logo followed by its timer, which besides
    asks for the scroll to the top on the home page, or for the navigation
    to "/" elsewhere, and starts the timer of 100 milliseconds. *)
Theorem press_and_release_restore (corner : Handle) (w : Window) (e e' : KeyboardEvent)
    (p : Page) (a : Handle) (focused : Element) :
  hasClass (dom p) corner "pressed" = false ->
  key e = "v" \/ key e = "V" ->
  key e' = "v" \/ key e' = "V" ->
  metaKey e = false -> ctrlKey e = false ->
  activeElement w = a ->
  dom p !! a = Some focused ->
  tagName focused <> "INPUT" -> tagName focused <> "TEXTAREA" ->
  isContentEditable focused = false ->
  snd (onKeyUp corner e' (snd (onKeyDown corner w e p))) = p /\
  dom (snd (onReleaseCornerLogoTimer corner (snd (onCornerLogoClick corner w p)))) = dom p /\
  effects (snd (onCornerLogoClick corner w p)) =
    effects p ++ [if isHomePage (location w) then ScrollTo 0 else Navigate "/";
                  SetTimeout TimerReleaseCornerLogo 100].
Proof.
  intros Hnot Hk Hk' Hm Hc Hfocus Ha Hin Hta Hed.
  apply eqb_toLowerCase_v in Hk, Hk'.
  assert (Hback : alter (withClassList (ClassList.remove "pressed")) corner
                    (alter (withClassList (ClassList.add "pressed")) corner (dom p))
                  = dom p).
  { rewrite list_alter_alter_eq.
    apply (alter_restore
             (fun cl => ClassList.remove "pressed" (ClassList.add "pressed" cl))).
    intros el Hel.
    apply remove_add_absent. now apply (hasClass_false_lookup (dom p) corner). }
  split; [|split].
  - rewrite (onKeyDown_run corner w e p a focused Hk Hfocus Ha), Hm, Hc, Hed.
    destruct (String.eqb_spec (tagName focused) "INPUT"); [contradiction|].
    destruct (String.eqb_spec (tagName focused) "TEXTAREA"); [contradiction|].
    cbn [negb andb snd]. unfold onKeyUp. rewrite Hk'.
    unfold classList_remove, modifyDom. cbn [snd dom setDom effects].
    rewrite Hback. unfold setDom. now destruct p.
  - unfold onCornerLogoClick, onReleaseCornerLogoTimer, classList_add, classList_remove.
    destruct (isHomePage (location w)); cbn; exact Hback.
  - unfold onCornerLogoClick, classList_add.
    destruct (isHomePage (location w));
      unfold mbind, Run_bind, modifyDom, emit, setDom; cbn [snd effects dom];
      now rewrite <- app_assoc.
Qed.

Lemma press_and_release_restore_witness :
  snd (onKeyUp 7 (mkKey "V" false false)
         (snd (onKeyDown 7 (Demo.window 0 0%nat) (mkKey "v" false false)
                 (Demo.page Demo.plainLinks))))
  = Demo.page Demo.plainLinks.
Proof.
  refine (proj1 (press_and_release_restore 7 (Demo.window 0 0%nat)
           (mkKey "v" false false) (mkKey "V" false false)
           (Demo.page Demo.plainLinks) 0 (Demo.el "BODY" None None [] None)
           _ _ _ _ _ _ _ _ _ _)).
  - vm_compute. reflexivity.
  - left. reflexivity.
  - right. reflexivity.
  - reflexivity.
  - reflexivity.
  - reflexivity.
  - reflexivity.
  - discriminate.
  - discriminate.
  - reflexivity.
Defined.

(** ** The footnote and the terminal *)

Lemma contains_toggle_self (c : string) (cl : list string) :
  ClassList.contains c (ClassList.toggle c cl) = negb (ClassList.contains c cl).
Proof.
  unfold ClassList.toggle. destruct (ClassList.contains c cl) eqn:E.
  - rewrite contains_remove, eqb_string_refl. reflexivity.
  - rewrite contains_app, E. cbn. now rewrite eqb_string_refl.
Qed.

Lemma onFooterOriginClick_run (cfg : Config) (this : Handle) (p : Page) (el : Element) :
  dom p !! this = Some el ->
  onFooterOriginClick cfg this p =
    (Normal tt,
     {| dom := alter (withClassList (ClassList.toggle "expanded")) this (dom p);
        effects :=
          effects p ++
          (if ClassList.contains "expanded" (classList el) then []
           else [SetTimeout TimerFootnoteScroll (footnoteScrollDelay cfg)]) |}).
Proof.
  intros Hel. unfold onFooterOriginClick, classList_toggle, classList_contains.
  erewrite bind_normal by reflexivity.
  erewrite bind_normal by reflexivity.
  cbn [dom setDom]. rewrite hasClass_alter, decide_True, Hel by reflexivity.
  rewrite contains_toggle_self.
  destruct (ClassList.contains "expanded" (classList el)); cbn [negb].
  - unfold mret, Run_ret, setDom. cbn [effects]. now rewrite app_nil_r.
  - reflexivity.
Qed.

(** X8. A click on the footer origin expands it when it is not expanded and
    folds it when it is, and starts the timer of the scroll, with the delay
    of 350 milliseconds, exactly when it expands. So two clicks in a row
    leave every class on every element where it was and start the timer
    once. *)
Theorem footnote_clicks (tza : Z -> Z) (this : Handle) (p : Page) (el : Element) :
  dom p !! this = Some el ->
  let click := onFooterOriginClick (CONFIG tza) this in
  let p1 := snd (click p) in
  let p2 := snd (click p1) in
  hasClass (dom p1) this "expanded" = negb (hasClass (dom p) this "expanded") /\
  effects p1 =
    effects p ++ (if hasClass (dom p1) this "expanded"
                  then [SetTimeout TimerFootnoteScroll 350] else []) /\
  (forall h c, hasClass (dom p2) h c = hasClass (dom p) h c) /\
  effects p2 = effects p ++ [SetTimeout TimerFootnoteScroll 350].
Proof.
  intros Hel click p1 p2.
  assert (H1 : click p = (Normal tt,
             {| dom := alter (withClassList (ClassList.toggle "expanded")) this (dom p);
                effects :=
                  effects p ++
                  (if ClassList.contains "expanded" (classList el) then []
                   else [SetTimeout TimerFootnoteScroll 350]) |}))
    by (apply onFooterOriginClick_run; exact Hel).
  assert (Hel1 : dom p1 !! this
                 = Some (withClassList (ClassList.toggle "expanded") el)).
  { unfold p1. rewrite H1. cbn [snd dom]. now rewrite list_lookup_alter_eq, Hel. }
  assert (H2 : click p1 = (Normal tt,
             {| dom := alter (withClassList (ClassList.toggle "expanded")) this (dom p1);
                effects :=
                  effects p1 ++
                  (if ClassList.contains "expanded"
                        (classList (withClassList (ClassList.toggle "expanded") el))
                   then [] else [SetTimeout TimerFootnoteScroll 350]) |}))
    by (apply onFooterOriginClick_run; exact Hel1).
  assert (Hc0 : hasClass (dom p) this "expanded"
                = ClassList.contains "expanded" (classList el))
    by (unfold hasClass; now rewrite Hel).
  assert (Hc1 : hasClass (dom p1) this "expanded"
                = negb (ClassList.contains "expanded" (classList el))).
  { unfold hasClass. rewrite Hel1. cbn [withClassList classList].
    apply contains_toggle_self. }
  assert (He1 : effects p1 = effects p ++
                  (if ClassList.contains "expanded" (classList el) then []
                   else [SetTimeout TimerFootnoteScroll 350]))
    by (unfold p1; now rewrite H1).
  split; [now rewrite Hc1, Hc0|]. split; [|split].
  - rewrite Hc1, He1. now destruct (ClassList.contains "expanded" (classList el)).
  - intros h c. unfold p2. rewrite H2. cbn [snd dom]. unfold p1. rewrite H1.
    cbn [snd dom]. unfold hasClass.
    destruct (decide (this = h)) as [<-|Hne];
      [|now rewrite !list_lookup_alter_ne by exact Hne].
    rewrite !list_lookup_alter_eq, Hel.
    cbn [fmap option_fmap option_map withClassList classList].
    destruct (String.eqb_spec c "expanded") as [->|Hne].
    + now rewrite !contains_toggle_self, negb_involutive.
    + now rewrite !contains_toggle by exact Hne.
  - unfold p2. rewrite H2. cbn [snd effects withClassList classList].
    rewrite He1, contains_toggle_self.
    destruct (ClassList.contains "expanded" (classList el)); cbn [negb];
      now rewrite ?app_nil_r.
Qed.

Lemma footnote_clicks_witness :
  effects (snd (onFooterOriginClick (CONFIG Demo.utc) 7
             (snd (onFooterOriginClick (CONFIG Demo.utc) 7 (Demo.page Demo.plainLinks)))))
  = effects (Demo.page Demo.plainLinks) ++ [SetTimeout TimerFootnoteScroll 350].
Proof.
  refine (proj2 (proj2 (proj2 (footnote_clicks Demo.utc 7 (Demo.page Demo.plainLinks)
            (Demo.el "DIV" None None ["corner-logo"] (Some 0%nat)) _)))).
  reflexivity.
Defined.

Lemma querySelector_Some (sel : Selector) (d : Dom) (h : Handle) :
  querySelector sel d = Some h -> (h < length d)%nat /\ sel d h = true.
Proof.
  unfold querySelector. intros H. apply head_Some_elem_of in H.
  apply querySelectorAll_elem_of in H as (Hlt & _ & Hsel). now split.
Qed.

Lemma querySelectorBelow_Some (root : Handle) (sel : Selector) (d : Dom) (h : Handle) :
  querySelectorBelow root sel d = Some h ->
  isDescendantOf d root h = true /\ sel d h = true.
Proof.
  unfold querySelectorBelow. intros H. apply head_Some_elem_of in H.
  apply list_elem_of_In, List.filter_In in H as [_ H]. now apply andb_prop in H.
Qed.

Lemma runEvents_attrs (tza : Z -> Z) (s : Script) (p : Page) (evs : list (Window * Event)) :
  attrs (dom (runEvents tza s p evs)) = attrs (dom p).
Proof.
  symmetry.
  assert (H : sameClass "" (dom p) (dom (runEvents tza s p evs))); [|apply H].
  apply runEvents_preserves; try typeclasses eauto.
  intros w ev. apply listeners_same_untouched; discriminate.
Qed.

Lemma runEvents_keeps (c : string) (tza : Z -> Z) (s : Script) (p : Page)
    (evs : list (Window * Event)) :
  c <> "active" -> c <> "expanded" -> c <> "pressed" ->
  keepsClass c (dom p) (dom (runEvents tza s p evs)).
Proof.
  intros Ha He Hp. apply runEvents_preserves; try typeclasses eauto.
  intros w ev. now apply listeners_keep_class.
Qed.

(** X9. When the script has found a close button, it has found it inside the
    terminal, so the click listener has a terminal to hide: on every click on
    the button, whatever happened before, the listener completes, stops the
    propagation of the click and leaves the terminal with the class hidden;
    and no later event takes that class away. *)
Theorem close_hides_the_terminal (inherited : string -> option string) (tza : Z -> Z)
    (n1 n2 n3 : JSDate) (w0 : Window) (p : Page) (s : Script) (p' : Page) (b : Handle) :
  init inherited tza n1 n2 n3 w0 p = (Normal s, p') ->
  closeButton s = Some b ->
  exists t,
    terminal s = Some t /\
    dom p' !! t ≫= idAttr = Some "work-terminal" /\
    t ∈ ancestors (length (dom p')) (dom p') b /\
    forall (before after : list (Window * Event)) (w : Window),
      let q := runEvents tza s p' before in
      fst (dispatch tza s q (w, EvClickClose)) = [Normal tt] /\
      effects (step tza s q (w, EvClickClose)) = effects q ++ [StopPropagation] /\
      hasClass (dom (runEvents tza s (step tza s q (w, EvClickClose)) after)) t "hidden"
      = true.
Proof.
  intros Hinit Hclose.
  destruct (init_run inherited tza n1 n2 n3 w0 p) as [p1 [_ Hrun]]. cbn zeta in Hrun.
  rewrite Hrun in Hinit. injection Hinit as Hs Hp.
  set (d2 := setActive _ _ (dom p1)) in *.
  assert (Hd : dom p' = d2) by now rewrite <- Hp.
  assert (Hterm : terminal s = getElementById "work-terminal" d2) by now rewrite <- Hs.
  assert (Hbtn : closeButton s =
                 match getElementById "work-terminal" d2 with
                 | Some t => querySelectorBelow t sel_terminal_close d2
                 | None => None
                 end) by now rewrite <- Hs.
  rewrite Hclose in Hbtn.
  destruct (getElementById "work-terminal" d2) as [t|] eqn:Et; [|discriminate Hbtn].
  exists t. split; [exact Hterm|].
  symmetry in Hbtn. apply querySelectorBelow_Some in Hbtn as [Hb _].
  apply querySelector_Some in Et as [Hlt Hid].
  split; [|split].
  - rewrite Hd. unfold sel_id in Hid.
    destruct (d2 !! t ≫= idAttr) as [v|]; [|discriminate Hid].
    apply String.eqb_eq in Hid. now subst v.
  - rewrite Hd. unfold isDescendantOf in Hb.
    apply existsb_exists in Hb as (x & Hx & Hxt).
    apply Nat.eqb_eq in Hxt. subst x. now apply list_elem_of_In.
  - intros before after w q.
    assert (Hlen : (t < length (dom q))%nat).
    { rewrite (attrs_length (dom q) (dom p')) by apply runEvents_attrs.
      now rewrite Hd. }
    destruct (lookup_lt_is_Some_2 _ _ Hlen) as [tel Htel].
    unfold step, dispatch. cbn [fst snd listeners]. rewrite Hclose.
    assert (Hclick : onCloseClick s q =
              (Normal tt,
               {| dom := alter (withClassList (ClassList.add "hidden")) t (dom q);
                  effects := effects q ++ [StopPropagation] |}))
      by (unfold onCloseClick; rewrite Hterm; reflexivity).
    cbn [runListeners]. rewrite Hclick. cbn [fst snd effects].
    split; [reflexivity|]. split; [reflexivity|].
    apply runEvents_keeps; try discriminate.
    cbn [dom]. rewrite hasClass_alter, decide_True, Htel by reflexivity.
    rewrite contains_add. reflexivity.
Qed.

Lemma close_hides_the_terminal_witness :
  exists t,
    terminal Home.script = Some t /\
    dom (snd Home.load) !! t ≫= idAttr = Some "work-terminal" /\
    t ∈ ancestors (length (dom (snd Home.load))) (dom (snd Home.load)) 7 /\
    forall (before after : list (Window * Event)) (w : Window),
      let q := runEvents Demo.utc Home.script (snd Home.load) before in
      fst (dispatch Demo.utc Home.script q (w, EvClickClose)) = [Normal tt] /\
      effects (step Demo.utc Home.script q (w, EvClickClose))
      = effects q ++ [StopPropagation] /\
      hasClass (dom (runEvents Demo.utc Home.script
                       (step Demo.utc Home.script q (w, EvClickClose)) after))
               t "hidden" = true.
Proof.
  apply (close_hides_the_terminal Demo.noInherited Demo.utc Demo.today Demo.today
           Demo.today (Demo.window 0 0%nat) (Demo.page Home.document)).
  - vm_compute. reflexivity.
  - vm_compute. reflexivity.
Defined.

(** ** The tenure counters *)

Lemma borrow_div_mod (y m : Z) :
  -11 <= m <= 11 ->
  (if m <? 0 then (y - 1, m + 12) else (y, m))
  = ((12 * y + m) / 12, (12 * y + m) mod 12).
Proof.
  intros Hm. destruct (Z.ltb_spec m 0); f_equal;
    Z.div_mod_to_equations; lia.
Qed.

(** X10. The two counters of the tenure are the quotient and the remainder
    by 12 of the calendar months between December 2022 and the current month,
    12 * (year - 2022) + (month - 11), also for a date before the start,
    where that count is negative and the quotient rounds down; so twelve
    times the years plus the months is that count. *)
Theorem crunchrElapsed_div_mod (tza : Z -> Z) (now : JSDate) :
  validDate now ->
  let n := 12 * (getFullYear now - 2022) + (getMonth now - 11) in
  crunchrElapsed tza now = (n / 12, n mod 12) /\
  12 * fst (crunchrElapsed tza now) + snd (crunchrElapsed tza now) = n.
Proof.
  intros Hv n. unfold validDate in Hv.
  assert (E : crunchrElapsed tza now = (n / 12, n mod 12)).
  { unfold crunchrElapsed, elapsedYearsMonths.
    rewrite (proj1 (crunchrStart_fields tza)), (proj2 (crunchrStart_fields tza)).
    apply borrow_div_mod. lia. }
  split; [exact E|]. rewrite E. cbn [fst snd].
  Z.div_mod_to_equations. lia.
Qed.

Lemma crunchrElapsed_div_mod_witness :
  crunchrElapsed Demo.utc (mkDate 0 2021 9)
  = ((12 * (2021 - 2022) + (9 - 11)) / 12, (12 * (2021 - 2022) + (9 - 11)) mod 12).
Proof.
  refine (proj1 (crunchrElapsed_div_mod Demo.utc (mkDate 0 2021 9) _)).
  unfold validDate. cbn. lia.
Defined.

(** X11. For a current date before December 2022 the tenure text never
    shows years, and shows months as if counted from the December before:
    the text is the month number plus one followed by "mo" from January to
    November, "11mo" in November 2022 as in any November before, and empty in
    December. *)
Theorem tenure_before_the_start (tza : Z -> Z) (now : JSDate) :
  validDate now ->
  getFullYear now < 2022 \/ (getFullYear now = 2022 /\ getMonth now < 11) ->
  calculateCrunchrDuration tza now =
    (if getMonth now =? 11 then ""
     else JS.numberToString (getMonth now + 1) +:+ "mo").
Proof.
  intros Hv Hbefore. unfold validDate in Hv. rewrite duration_cases.
  unfold crunchrElapsed, elapsedYearsMonths.
  rewrite (proj1 (crunchrStart_fields tza)), (proj2 (crunchrStart_fields tza)).
  destruct (Z.eqb_spec (getMonth now) 11) as [E|NE].
  - rewrite E. cbn [Z.sub Z.ltb]. change (11 - 11 <? 0) with false. cbv iota.
    destruct (Z.ltb_spec 0 (getFullYear now - 2022)); [lia|]. reflexivity.
  - destruct (Z.ltb_spec (getMonth now - 11) 0); [|lia].
    destruct (Z.ltb_spec 0 (getFullYear now - 2022 - 1)); [lia|].
    destruct (Z.ltb_spec 0 (getMonth now - 11 + 12)); [|lia].
    now replace (getMonth now - 11 + 12) with (getMonth now + 1) by lia.
Qed.

Lemma tenure_before_the_start_witness :
  calculateCrunchrDuration Demo.utc (mkDate 0 2022 10) = "11mo".
Proof.
  refine (tenure_before_the_start Demo.utc (mkDate 0 2022 10) _ _).
  - unfold validDate. cbn. lia.
  - right. cbn. lia.
Defined.

(** ** The smart links *)

Lemma alter_as (f g : Element -> Element) (h : Handle) (d : Dom) :
  (forall el, d !! h = Some el -> f el = g el) -> alter f h d = alter g h d.
Proof. intros H. now apply list_alter_ext. Qed.

Lemma alter_none (g : Element -> Element) (h : Handle) (d : Dom) :
  (forall el, d !! h = Some el -> g el = el) -> d = alter g h d.
Proof.
  intros H. rewrite <- (list_alter_id id d h) at 1 by reflexivity.
  apply alter_as. intros el Hel. now rewrite H.
Qed.

Lemma smartLinks_step (inherited : string -> option string) (link : Handle) (p : Page) :
  (href ← getAttribute_href link;
   match routes inherited href with
   | Some r => if JS.Boolean r then setAttribute_href link r else mret tt
   | None => mret tt
   end;;
   match href with
   | Some v =>
       if JS.Boolean v && JS.startsWith v "/#"
       then setAttribute_href link ("index.html" +:+ JS.substringFrom 1 v)
       else mret tt
   | None => mret tt
   end) p
  = (Normal tt, setDom (alter (smartLink inherited) link (dom p)) p).
Proof.
  unfold getAttribute_href. erewrite bind_normal by reflexivity.
  set (href := dom p !! link ≫= hrefAttr).
  assert (Hhref : forall el, dom p !! link = Some el -> hrefAttr el = href)
    by (intros el Hel; unfold href; now rewrite Hel).
  set (routed := match routes inherited href with
                 | Some r => if JS.Boolean r then withHref r else id
                 | None => id
                 end).
  assert (H1 : match routes inherited href with
               | Some r => if JS.Boolean r then setAttribute_href link r else mret tt
               | None => mret tt
               end p = (Normal tt, setDom (alter routed link (dom p)) p)).
  { unfold routed. destruct (routes inherited href) as [r|];
      [destruct (JS.Boolean r)|]; try reflexivity;
      cbn; rewrite list_alter_id by reflexivity; now rewrite setDom_dom. }
  erewrite bind_normal by exact H1.
  set (rewritten := match href with
                    | Some v =>
                        if JS.Boolean v && JS.startsWith v "/#"
                        then withHref ("index.html" +:+ JS.substringFrom 1 v)
                        else id
                    | None => id
                    end).
  assert (H2 : match href with
               | Some v =>
                   if JS.Boolean v && JS.startsWith v "/#"
                   then setAttribute_href link ("index.html" +:+ JS.substringFrom 1 v)
                   else mret tt
               | None => mret tt
               end (setDom (alter routed link (dom p)) p)
               = (Normal tt, setDom (alter rewritten link (alter routed link (dom p))) p)).
  { unfold rewritten. destruct href as [v|];
      [destruct (JS.Boolean v && JS.startsWith v "/#")|]; try reflexivity;
      cbn; rewrite (list_alter_id id) by reflexivity; reflexivity. }
  rewrite H2. f_equal. f_equal. rewrite list_alter_alter_eq.
  apply alter_as. intros el Hel. unfold smartLink. rewrite (Hhref el Hel).
  unfold rewritten, routed, compose.
  destruct href as [v|]; [destruct (JS.Boolean v && JS.startsWith v "/#")|];
    destruct (routes inherited _) as [r|]; try destruct (JS.Boolean r); reflexivity.
Qed.

(** A loop that changes one element a round, over handles that are all
    different, changes each of them once. *)
Lemma forEach_alter (g : Element -> Element) (f : Handle -> Run unit) (l : list Handle)
    (p : Page) :
  (forall x q, f x q = (Normal tt, setDom (alter g x (dom q)) q)) ->
  NoDup l ->
  exists d',
    forEach l f p = (Normal tt, setDom d' p) /\
    forall j, d' !! j = if bool_decide (j ∈ l) then g <$> dom p !! j else dom p !! j.
Proof.
  intros Hf. revert p. induction l as [|x l IH]; intros p Hnd.
  - exists (dom p). split; [cbn; now rewrite setDom_dom|reflexivity].
  - apply NoDup_cons in Hnd as [Hx Hnd].
    destruct (IH (setDom (alter g x (dom p)) p) Hnd) as (d' & Hrun & Hl).
    exists d'. split.
    + cbn [forEach]. erewrite bind_normal by apply Hf. rewrite Hrun. reflexivity.
    + intros j. rewrite Hl. cbn [dom setDom].
      destruct (decide (x = j)) as [->|Hne].
      * rewrite list_lookup_alter_eq.
        rewrite (bool_decide_eq_false_2 _ Hx).
        now rewrite (bool_decide_eq_true_2 (j ∈ j :: l)) by apply list_elem_of_here.
      * rewrite list_lookup_alter_ne by exact Hne.
        assert (Hiff : j ∈ x :: l <-> j ∈ l).
        { rewrite elem_of_cons. split; [intros [->|?]; [congruence|assumption]|auto]. }
        destruct (decide (j ∈ l)) as [Hin|Hnin].
        -- rewrite !bool_decide_eq_true_2; [reflexivity|tauto|exact Hin].
        -- rewrite !bool_decide_eq_false_2; [reflexivity|tauto|exact Hnin].
Qed.

Lemma querySelectorAll_NoDup (sel : Selector) (d : Dom) : NoDup (querySelectorAll sel d).
Proof.
  unfold querySelectorAll. apply NoDup_ListNoDup, List.NoDup_filter, List.seq_NoDup.
Qed.

Lemma local_guard (w : Window) :
  runsLocally (location w) ->
  negb (String.eqb (protocol (location w)) "file:") &&
  negb (String.eqb (hostname (location w)) "localhost" ||
        String.eqb (hostname (location w)) "127.0.0.1" ||
        String.eqb (hostname (location w)) "") = false.
Proof.
  intros [H|[H|[H|H]]]; rewrite H; cbn;
    rewrite ?orb_true_r, ?andb_false_r; reflexivity.
Qed.

(** On a page that runs locally initSmartLinks completes and takes every
    element to [smartLink] of it when it is an [a], to itself otherwise. *)
Lemma initSmartLinks_local (inherited : string -> option string) (w : Window) (p : Page) :
  runsLocally (location w) ->
  initSmartLinks inherited w p =
    (Normal tt,
     setDom ((fun el => if isConnected el && String.eqb (localName el) "a"
                        then smartLink inherited el else el) <$> dom p) p).
Proof.
  intros Hlocal. unfold initSmartLinks. rewrite (local_guard w Hlocal).
  erewrite bind_normal by reflexivity.
  match goal with
  | |- forEach _ ?f _ = _ =>
      destruct (forEach_alter (smartLink inherited) f (querySelectorAll sel_a (dom p)) p
                  (smartLinks_step inherited) (querySelectorAll_NoDup _ _))
        as (d' & Hrun & Hl)
  end.
  rewrite Hrun. f_equal. f_equal. apply list_eq. intros j.
  rewrite Hl, list_lookup_fmap.
  destruct (dom p !! j) as [el|] eqn:Hel.
  - assert (Hiff : j ∈ querySelectorAll sel_a (dom p)
                   <-> isConnected el && String.eqb (localName el) "a" = true).
    { rewrite querySelectorAll_elem_of. unfold sel_a, localNameIs, connected.
      rewrite Hel, andb_true_iff. apply lookup_lt_Some in Hel. tauto. }
    cbn [fmap option_fmap option_map].
    destruct (isConnected el && String.eqb (localName el) "a").
    + now rewrite bool_decide_eq_true_2 by tauto.
    + rewrite bool_decide_eq_false_2; [reflexivity|]. intros H. apply Hiff in H.
      discriminate H.
  - now destruct (bool_decide _).
Qed.

Lemma substring_all (s : string) : String.substring 0 (String.length s) s = s.
Proof. induction s as [|c s IH]; cbn; [reflexivity|]. now rewrite IH. Qed.

Lemma substringFrom_tail (c : ascii) (s : string) : JS.substringFrom 1 (String c s) = s.
Proof.
  unfold JS.substringFrom. cbn [String.length String.substring].
  replace (S (String.length s) - 1)%nat with (String.length s) by lia.
  apply substring_all.
Qed.

Lemma smartLink_fields (inherited : string -> option string) (el : Element) :
  localName (smartLink inherited el) = localName el /\
  tagName (smartLink inherited el) = tagName el /\
  idAttr (smartLink inherited el) = idAttr el /\
  classList (smartLink inherited el) = classList el /\
  ownText (smartLink inherited el) = ownText el /\
  parentNode (smartLink inherited el) = parentNode el /\
  isConnected (smartLink inherited el) = isConnected el /\
  isContentEditable (smartLink inherited el) = isContentEditable el.
Proof.
  unfold smartLink.
  destruct (hrefAttr el) as [v|]; [destruct (JS.Boolean v && JS.startsWith v "/#")|];
    destruct (routes inherited _) as [r|]; try destruct (JS.Boolean r);
    repeat split.
Qed.

Lemma startsWith_slash_hash (v : string) :
  JS.startsWith v "/#" = true -> exists frag, v = "/#" +:+ frag.
Proof.
  unfold JS.startsWith. destruct v as [|c1 [|c2 v]]; cbn [String.prefix];
    try discriminate.
  - destruct (ascii_dec "/" c1); discriminate.
  - destruct (ascii_dec "/" c1) as [<-|]; [|discriminate].
    destruct (ascii_dec "#" c2) as [<-|]; [|discriminate].
    intros _. now exists v.
Qed.

Lemma smartLink_hash (inherited : string -> option string) (el : Element) (frag : string) :
  hrefAttr el = Some ("/#" +:+ frag) ->
  hrefAttr (smartLink inherited el) = Some ("index.html#" +:+ frag).
Proof.
  intros H. unfold smartLink. rewrite H.
  change ("/#" +:+ frag) with (String "/" (String "#" frag)).
  assert (Hs : JS.Boolean (String "/" (String "#" frag))
               && JS.startsWith (String "/" (String "#" frag)) "/#" = true).
  { unfold JS.startsWith. cbn [JS.Boolean andb String.prefix].
    destruct (ascii_dec "/" "/") as [_|n]; [|now destruct n].
    destruct (ascii_dec "#" "#") as [_|n]; [|now destruct n].
    now destruct frag. }
  rewrite Hs, substringFrom_tail. reflexivity.
Qed.

Lemma smartLink_same (inherited : string -> option string) (el : Element) :
  routes inherited (hrefAttr el) = None ->
  (forall frag, hrefAttr el <> Some ("/#" +:+ frag)) ->
  smartLink inherited el = el.
Proof.
  intros Hr Hn. unfold smartLink. rewrite Hr.
  destruct (hrefAttr el) as [v|] eqn:E; [|reflexivity].
  destruct (JS.startsWith v "/#") eqn:Es; [|now rewrite andb_false_r].
  apply startsWith_slash_hash in Es as [frag ->]. now destruct (Hn frag).
Qed.

(** X12. On a page opened from the disk or served by this machine,
    initSmartLinks completes and changes nothing but the href of the
    elements of the document whose local name is [a], those of an inline
    SVG image among them: "/" becomes "index.html", "/imprint" becomes
    "imprint.html", "/resume" becomes "resume.html", and "/#" followed by a
    fragment becomes "index.html#" followed by it; such an element whose
    href has no route and does not start with "/#" is left as it is, and so
    is every element of another name, and every one that is not in the
    document. *)
Theorem smart_links_rewrite (inherited : string -> option string) (w : Window) (p : Page) :
  runsLocally (location w) ->
  let r := initSmartLinks inherited w p in
  fst r = Normal tt /\ effects (snd r) = effects p /\
  length (dom (snd r)) = length (dom p) /\
  forall j el, dom p !! j = Some el ->
    exists el',
      dom (snd r) !! j = Some el' /\
      localName el' = localName el /\ tagName el' = tagName el /\
      idAttr el' = idAttr el /\
      classList el' = classList el /\ ownText el' = ownText el /\
      parentNode el' = parentNode el /\ isConnected el' = isConnected el /\
      isContentEditable el' = isContentEditable el /\
      (localName el <> "a" \/ isConnected el = false -> el' = el) /\
      (localName el = "a" -> isConnected el = true ->
       (hrefAttr el = Some "/" -> hrefAttr el' = Some "index.html") /\
       (hrefAttr el = Some "/imprint" -> hrefAttr el' = Some "imprint.html") /\
       (hrefAttr el = Some "/resume" -> hrefAttr el' = Some "resume.html") /\
       (forall frag, hrefAttr el = Some ("/#" +:+ frag) ->
                     hrefAttr el' = Some ("index.html#" +:+ frag)) /\
       (routes inherited (hrefAttr el) = None ->
        (forall frag, hrefAttr el <> Some ("/#" +:+ frag)) -> el' = el)).
Proof.
  intros Hlocal. cbn zeta. rewrite (initSmartLinks_local inherited w p Hlocal).
  cbn [fst snd dom effects setDom].
  split; [reflexivity|]. split; [reflexivity|]. split; [apply length_fmap|].
  intros j el Hel. rewrite list_lookup_fmap, Hel. cbn [fmap option_fmap option_map].
  eexists. split; [reflexivity|].
  destruct (isConnected el) eqn:Hc; cbn [andb];
    [|do 8 (split; [first [reflexivity|exact Hc]|]); split; [reflexivity|];
      intros _ H; congruence].
  destruct (String.eqb_spec (localName el) "a") as [HA|HA].
  - destruct (smartLink_fields inherited el) as (F1 & F2 & F3 & F4 & F5 & F6 & F7 & F8).
    do 8 (split; [congruence|]).
    split; [intros [H|H]; [contradiction|discriminate H]|]. intros _ _.
    split; [|split; [|split; [|split]]].
    + intros H. unfold smartLink. rewrite H. reflexivity.
    + intros H. unfold smartLink. rewrite H. reflexivity.
    + intros H. unfold smartLink. rewrite H. reflexivity.
    + intros frag H. now apply smartLink_hash.
    + apply smartLink_same.
  - do 8 (split; [first [reflexivity|exact Hc]|]). split; [reflexivity|].
    intros H. contradiction.
Qed.

Lemma smart_links_rewrite_witness :
  (dom (snd (initSmartLinks Demo.noInherited Home.localWindow (Demo.page Home.document)))
     !! 2%nat ≫= hrefAttr = Some "index.html") /\
  (dom (snd (initSmartLinks Demo.noInherited Home.localWindow (Demo.page Home.document)))
     !! 4%nat ≫= hrefAttr = Some "index.html#contact") /\
  (dom (snd (initSmartLinks Demo.noInherited Home.localWindow (Demo.page Home.document)))
     !! 17%nat ≫= hrefAttr = Some "index.html#contact").
Proof.
  pose proof (smart_links_rewrite Demo.noInherited Home.localWindow
                (Demo.page Home.document) (or_introl eq_refl)) as H.
  cbn zeta in H. destruct H as (_ & _ & _ & H).
  split; [|split].
  - destruct (H 2%nat _ eq_refl) as (el' & -> & _ & _ & _ & _ & _ & _ & _ & _ & _ & HA).
    destruct (HA eq_refl eq_refl) as (H1 & _). cbn. f_equal. now apply H1.
  - destruct (H 4%nat _ eq_refl) as (el' & -> & _ & _ & _ & _ & _ & _ & _ & _ & _ & HA).
    destruct (HA eq_refl eq_refl) as (_ & _ & _ & H4 & _). apply (H4 "contact"). reflexivity.
  - destruct (H 17%nat _ eq_refl) as (el' & -> & _ & _ & _ & _ & _ & _ & _ & _ & _ & HA).
    destruct (HA eq_refl eq_refl) as (_ & _ & _ & H4 & _). apply (H4 "contact"). reflexivity.
Defined.

(** X13. On a page served from anywhere else, initSmartLinks returns at its
    guard: it completes and leaves the page as it is. *)
Theorem smart_links_off_in_production (inherited : string -> option string) (w : Window)
    (p : Page) :
  protocol (location w) <> "file:" ->
  hostname (location w) <> "localhost" ->
  hostname (location w) <> "127.0.0.1" ->
  hostname (location w) <> "" ->
  initSmartLinks inherited w p = (Normal tt, p).
Proof.
  intros H1 H2 H3 H4. unfold initSmartLinks.
  destruct (String.eqb_spec (protocol (location w)) "file:"); [contradiction|].
  destruct (String.eqb_spec (hostname (location w)) "localhost"); [contradiction|].
  destruct (String.eqb_spec (hostname (location w)) "127.0.0.1"); [contradiction|].
  destruct (String.eqb_spec (hostname (location w)) ""); [contradiction|].
  reflexivity.
Qed.

Lemma smart_links_off_in_production_witness :
  initSmartLinks Demo.noInherited (Demo.window 0 0%nat) (Demo.page Home.document)
  = (Normal tt, Demo.page Home.document).
Proof.
  apply (smart_links_off_in_production Demo.noInherited (Demo.window 0 0%nat));
    discriminate.
Defined.

Lemma startsWith_hash (v : string) :
  JS.startsWith v "#" = true -> exists rest, v = String "#" rest.
Proof.
  unfold JS.startsWith. destruct v as [|c v]; cbn [String.prefix]; [discriminate|].
  destruct (ascii_dec "#" c) as [<-|]; [|discriminate]. intros _. now exists v.
Qed.

Lemma startsWith_hash_cons (c : ascii) (v : string) :
  JS.startsWith (String c v) "#" = if ascii_dec "#" c then true else false.
Proof.
  unfold JS.startsWith. cbn [String.prefix].
  destruct (ascii_dec "#" c); [now destruct v|reflexivity].
Qed.

Lemma startsWith_hash_index (s : string) :
  JS.startsWith ("index.html" +:+ s) "#" = false.
Proof.
  change ("index.html" +:+ s) with (String "i" ("ndex.html" +:+ s)).
  rewrite startsWith_hash_cons. destruct (ascii_dec "#" "i") as [E|_]; [discriminate E|].
  reflexivity.
Qed.

(** What initSmartLinks leaves of a link whose href names nothing a plain
    object inherits: a href that starts with "#" stays, and no other href
    comes to start with "#". *)
Lemma smartLink_hash_kept (inherited : string -> option string) (el : Element) :
  inherited (default "null" (hrefAttr el)) = None ->
  match hrefAttr (smartLink inherited el) with
  | Some v => JS.startsWith v "#"
  | None => false
  end
  = match hrefAttr el with Some v => JS.startsWith v "#" | None => false end /\
  (forall v, hrefAttr el = Some v -> JS.startsWith v "#" = true ->
             smartLink inherited el = el).
Proof.
  intros Hinh. unfold smartLink, routes. rewrite Hinh.
  destruct (hrefAttr el) as [v|] eqn:Ev; cbn [default from_option id].
  - destruct (JS.startsWith v "/#") eqn:Es.
    + apply startsWith_slash_hash in Es as [frag ->].
      change ("/#" +:+ frag) with (String "/" (String "#" frag)).
      cbn [JS.Boolean andb]. rewrite substringFrom_tail.
      assert (Hh : JS.startsWith (String "/" (String "#" frag)) "#" = false).
      { rewrite startsWith_hash_cons.
        destruct (ascii_dec "#" "/") as [E|_]; [discriminate E|reflexivity]. }
      split.
      * cbn [hrefAttr withHref]. now rewrite startsWith_hash_index, Hh.
      * intros v Hv Hs. injection Hv as <-. rewrite Hh in Hs. discriminate Hs.
    + rewrite andb_false_r.
      destruct (String.eqb_spec v "/") as [->|N1]; [split; [reflexivity|]|].
      { intros v Hv Hs. injection Hv as <-. discriminate Hs. }
      destruct (String.eqb_spec v "/imprint") as [->|N2]; [split; [reflexivity|]|].
      { intros v Hv Hs. injection Hv as <-. discriminate Hs. }
      destruct (String.eqb_spec v "/resume") as [->|N3]; [split; [reflexivity|]|].
      { intros v Hv Hs. injection Hv as <-. discriminate Hs. }
      rewrite Ev. split; reflexivity.
  - change ("null" =? "/")%string with false.
    change ("null" =? "/imprint")%string with false.
    change ("null" =? "/resume")%string with false.
    cbv iota. rewrite Ev. split; [reflexivity|]. intros v Hv. discriminate Hv.
Qed.

Lemma ancestors_fmap (g : Element -> Element) (fuel : nat) (d : Dom) (j : Handle) :
  (forall el, parentNode (g el) = parentNode el) ->
  ancestors fuel (g <$> d) j = ancestors fuel d j.
Proof.
  intros Hg. revert j. induction fuel as [|fuel IH]; intros j; [reflexivity|].
  cbn [ancestors]. rewrite list_lookup_fmap.
  assert (E : (g <$> d !! j) ≫= parentNode = d !! j ≫= parentNode)
    by (destruct (d !! j); cbn; [apply Hg|reflexivity]).
  rewrite E. destruct (d !! j ≫= parentNode); [|reflexivity]. now rewrite IH.
Qed.

Lemma localNameIs_fmap (g : Element -> Element) (n : string) (d : Dom) (j : Handle) :
  (forall el, localName (g el) = localName el) ->
  localNameIs n (g <$> d) j = localNameIs n d j.
Proof.
  intros Hg. unfold localNameIs. rewrite list_lookup_fmap.
  destruct (d !! j); cbn; [now rewrite Hg|reflexivity].
Qed.

Lemma connected_fmap (g : Element -> Element) (d : Dom) (j : Handle) :
  (forall el, isConnected (g el) = isConnected el) ->
  connected (g <$> d) j = connected d j.
Proof.
  intros Hg. unfold connected. rewrite list_lookup_fmap.
  destruct (d !! j); cbn; [now rewrite Hg|reflexivity].
Qed.

Lemma existsb_pointwise {A : Type} (f g : A -> bool) (l : list A) :
  (forall a, f a = g a) -> existsb f l = existsb g l.
Proof.
  intros Hfg. induction l as [|a l IH]; [reflexivity|].
  cbn [existsb]. now rewrite Hfg, IH.
Qed.

Lemma querySelectorAll_ext (sel : Selector) (d d' : Dom) :
  length d' = length d ->
  (forall j, connected d' j = connected d j) ->
  (forall j, sel d' j = sel d j) ->
  querySelectorAll sel d' = querySelectorAll sel d.
Proof.
  intros Hl Hc Hs. unfold querySelectorAll. rewrite Hl.
  apply List.filter_ext. intros j. now rewrite Hc, Hs.
Qed.

(** X14. initSmartLinks keeps out of the navigation. When no href of the
    document is the name of something a plain object inherits, then, locally
    or not, the links that [nav a[href^='#']] finds after it are those
    found before, each with the href it had, and [section] and [section[id]]
    find the same sections: what updateActiveNav and the observer work on
    does not depend on where the page runs. *)
Theorem smart_links_keep_navigation (inherited : string -> option string) (w : Window)
    (p : Page) :
  (forall el, el ∈ dom p -> inherited (default "null" (hrefAttr el)) = None) ->
  let d' := dom (snd (initSmartLinks inherited w p)) in
  querySelectorAll sel_nav_a_hash d' = querySelectorAll sel_nav_a_hash (dom p) /\
  querySelectorAll sel_section d' = querySelectorAll sel_section (dom p) /\
  querySelectorAll sel_section_id d' = querySelectorAll sel_section_id (dom p) /\
  forall link, link ∈ querySelectorAll sel_nav_a_hash (dom p) ->
    d' !! link = dom p !! link.
Proof.
  intros Hinh d'.
  assert (Hcase : runsLocally (location w) \/
                  initSmartLinks inherited w p = (Normal tt, p)).
  { unfold runsLocally.
    destruct (String.eqb_spec (protocol (location w)) "file:"); [tauto|].
    destruct (String.eqb_spec (hostname (location w)) "localhost"); [tauto|].
    destruct (String.eqb_spec (hostname (location w)) "127.0.0.1"); [tauto|].
    destruct (String.eqb_spec (hostname (location w)) ""); [tauto|].
    right. unfold initSmartLinks.
    destruct (String.eqb_spec (protocol (location w)) "file:"); [contradiction|].
    destruct (String.eqb_spec (hostname (location w)) "localhost"); [contradiction|].
    destruct (String.eqb_spec (hostname (location w)) "127.0.0.1"); [contradiction|].
    destruct (String.eqb_spec (hostname (location w)) ""); [contradiction|].
    reflexivity. }
  destruct Hcase as [Hlocal|Hoff]; [|subst d'; rewrite Hoff; now repeat split].
  subst d'. rewrite (initSmartLinks_local inherited w p Hlocal). cbn [snd dom setDom].
  set (g := fun el => if isConnected el && String.eqb (localName el) "a"
                      then smartLink inherited el else el).
  assert (Gtag : forall el, localName (g el) = localName el).
  { intros el. unfold g. destruct (_ && _); [|reflexivity].
    apply smartLink_fields. }
  assert (Gid : forall el, idAttr (g el) = idAttr el).
  { intros el. unfold g. destruct (_ && _); [|reflexivity].
    apply smartLink_fields. }
  assert (Gpar : forall el, parentNode (g el) = parentNode el).
  { intros el. unfold g. destruct (_ && _); [|reflexivity].
    apply smartLink_fields. }
  assert (Gcon : forall j, connected (g <$> dom p) j = connected (dom p) j).
  { intros j. apply connected_fmap. intros el. unfold g.
    destruct (_ && _); [|reflexivity]. apply smartLink_fields. }
  assert (Ghash : forall j el, dom p !! j = Some el ->
            match hrefAttr (g el) with Some v => JS.startsWith v "#" | None => false end
            = match hrefAttr el with Some v => JS.startsWith v "#" | None => false end /\
            (forall v, hrefAttr el = Some v -> JS.startsWith v "#" = true -> g el = el)).
  { intros j el Hel. unfold g. destruct (_ && _); [|now split].
    apply smartLink_hash_kept, Hinh. now apply list_elem_of_lookup_2 with j. }
  assert (Hlen : length (g <$> dom p) = length (dom p)) by apply length_fmap.
  split; [|split; [|split]].
  - apply querySelectorAll_ext; [exact Hlen|exact Gcon|].
    intros j. unfold sel_nav_a_hash, sel_a.
    rewrite (localNameIs_fmap g "a") by exact Gtag. rewrite Hlen.
    rewrite (ancestors_fmap g) by exact Gpar.
    f_equal; [f_equal|].
    + rewrite list_lookup_fmap. destruct (dom p !! j) as [el|] eqn:Hel; [|reflexivity].
      cbn [fmap option_fmap option_map mbind option_bind]. apply (Ghash j el Hel).
    + apply existsb_pointwise. intros a. apply localNameIs_fmap. exact Gtag.
  - apply querySelectorAll_ext; [exact Hlen|exact Gcon|].
    intros j. apply localNameIs_fmap. exact Gtag.
  - apply querySelectorAll_ext; [exact Hlen|exact Gcon|].
    intros j. unfold sel_section_id, sel_section.
    rewrite (localNameIs_fmap g "section") by exact Gtag. f_equal.
    rewrite list_lookup_fmap. destruct (dom p !! j) as [el|]; [|reflexivity].
    cbn [fmap option_fmap option_map mbind option_bind]. now rewrite Gid.
  - intros link Hin. apply querySelectorAll_elem_of in Hin as (Hlt & _ & Hsel).
    rewrite list_lookup_fmap. destruct (dom p !! link) as [el|] eqn:Hel; [|reflexivity].
    cbn [fmap option_fmap option_map]. f_equal.
    unfold sel_nav_a_hash in Hsel. apply andb_prop in Hsel as [Hsel _].
    apply andb_prop in Hsel as [_ Hh]. rewrite Hel in Hh.
    cbn [mbind option_bind] in Hh.
    destruct (hrefAttr el) as [v|] eqn:Ev; [|discriminate Hh].
    now apply (proj2 (Ghash link el Hel) v).
Qed.

Lemma smart_links_keep_navigation_witness :
  querySelectorAll sel_nav_a_hash
    (dom (snd (initSmartLinks Demo.noInherited Home.localWindow (Demo.page Home.document))))
  = querySelectorAll sel_nav_a_hash (dom (Demo.page Home.document)).
Proof.
  refine (proj1 (smart_links_keep_navigation Demo.noInherited Home.localWindow
                   (Demo.page Home.document) _)).
  intros el _. reflexivity.
Defined.

Lemma getElementById_Some (i : string) (d : Dom) (j : Handle) :
  getElementById i d = Some j -> exists el, d !! j = Some el /\ idAttr el = Some i.
Proof.
  intros H. apply querySelector_Some in H as [_ H]. unfold sel_id in H.
  destruct (d !! j) as [el|]; [|discriminate H]. exists el. split; [reflexivity|].
  cbn [mbind option_bind] in H. destruct (idAttr el) as [v|]; [|discriminate H].
  apply String.eqb_eq in H. now subst.
Qed.

Lemma getElementById_inj (i i' : string) (d : Dom) (j : Handle) :
  getElementById i d = Some j -> getElementById i' d = Some j -> i = i'.
Proof.
  intros H H'. apply getElementById_Some in H as (el & Hel & Hi).
  apply getElementById_Some in H' as (el' & Hel' & Hi'). congruence.
Qed.

(** ** Setting textContent *)

Lemma treeOrder_spec (d : Dom) (j : Handle) (el : Element) (q : Handle) :
  treeOrder d = true -> d !! j = Some el -> parentNode el = Some q -> (q < j)%nat.
Proof.
  unfold treeOrder. rewrite forallb_forall. intros H Hel Hq.
  specialize (H j). rewrite Hel in H. cbn [mbind option_bind] in H. rewrite Hq in H.
  apply Nat.ltb_lt, H. apply List.in_seq. apply lookup_lt_Some in Hel. lia.
Qed.

Lemma treeOrder_intro (d : Dom) :
  (forall j el q, d !! j = Some el -> parentNode el = Some q -> (q < j)%nat) ->
  treeOrder d = true.
Proof.
  intros H. unfold treeOrder. apply forallb_forall. intros j _.
  destruct (d !! j) as [el|] eqn:Hel; [|reflexivity]. cbn [mbind option_bind].
  destruct (parentNode el) as [q|] eqn:Hq; [|reflexivity].
  apply Nat.ltb_lt. now apply (H j el q).
Qed.

Lemma ancestors_lt (fuel : nat) (d : Dom) (j x : Handle) :
  treeOrder d = true -> x ∈ ancestors fuel d j -> (x < j)%nat.
Proof.
  intros Ht. revert j. induction fuel as [|fuel IH]; intros j; cbn [ancestors].
  - intros H. now apply elem_of_nil in H.
  - destruct (d !! j) as [el|] eqn:Hel; cbn [mbind option_bind];
      [|intros H; now apply elem_of_nil in H].
    destruct (parentNode el) as [q|] eqn:Hq; [|intros H; now apply elem_of_nil in H].
    pose proof (treeOrder_spec d j el q Ht Hel Hq) as Hlt.
    intros H. apply elem_of_cons in H as [->|H]; [exact Hlt|].
    specialize (IH q H). lia.
Qed.

Lemma ancestors_fuel (f f' : nat) (d : Dom) (j : Handle) :
  treeOrder d = true -> (j <= f)%nat -> (j <= f')%nat ->
  ancestors f d j = ancestors f' d j.
Proof.
  intros Ht. revert f' j. induction f as [|f IH]; intros f' j Hf Hf'.
  - assert (j = 0%nat) as -> by lia. destruct f' as [|f']; [reflexivity|].
    cbn [ancestors]. destruct (d !! 0%nat) as [el|] eqn:Hel; [|reflexivity].
    cbn [mbind option_bind]. destruct (parentNode el) as [q|] eqn:Hq; [|reflexivity].
    pose proof (treeOrder_spec d 0 el q Ht Hel Hq). lia.
  - cbn [ancestors]. destruct (d !! j) as [el|] eqn:Hel;
      [|destruct f'; cbn [ancestors]; now rewrite ?Hel].
    cbn [mbind option_bind]. destruct (parentNode el) as [q|] eqn:Hq;
      [|destruct f'; cbn [ancestors]; rewrite ?Hel; cbn [mbind option_bind];
        now rewrite ?Hq].
    pose proof (treeOrder_spec d j el q Ht Hel Hq) as Hlt.
    destruct f' as [|f']; [lia|]. cbn [ancestors]. rewrite Hel.
    cbn [mbind option_bind]. rewrite Hq. f_equal. apply IH; lia.
Qed.

Lemma isDescendantOf_step (d : Dom) (h j : Handle) (el : Element) (q : Handle) :
  treeOrder d = true -> d !! j = Some el -> parentNode el = Some q ->
  isDescendantOf d h j = Nat.eqb h q || isDescendantOf d h q.
Proof.
  intros Ht Hel Hq. unfold isDescendantOf.
  pose proof (lookup_lt_Some _ _ _ Hel) as Hj.
  pose proof (treeOrder_spec d j el q Ht Hel Hq) as Hlt.
  destruct (length d) as [|n] eqn:Hn; [lia|].
  rewrite (ancestors_fuel (S n) n d q Ht) by lia.
  cbn [ancestors]. rewrite Hel. cbn [mbind option_bind]. rewrite Hq. reflexivity.
Qed.

Lemma isDescendantOf_root (d : Dom) (h j : Handle) :
  d !! j ≫= parentNode = None -> isDescendantOf d h j = false.
Proof.
  intros H. unfold isDescendantOf. destruct (length d); cbn [ancestors]; [reflexivity|].
  now rewrite H.
Qed.

Lemma isDescendantOf_elem (d : Dom) (h j : Handle) :
  isDescendantOf d h j = true <-> h ∈ ancestors (length d) d j.
Proof.
  unfold isDescendantOf. rewrite existsb_exists. split.
  - intros (x & Hx & E). apply Nat.eqb_eq in E. subst x. now apply list_elem_of_In.
  - intros H. exists h. split; [now apply list_elem_of_In|apply Nat.eqb_refl].
Qed.

Lemma isDescendantOf_lt (d : Dom) (h j : Handle) :
  treeOrder d = true -> isDescendantOf d h j = true -> (h < j)%nat.
Proof.
  intros Ht H. apply isDescendantOf_elem in H. exact (ancestors_lt _ d j h Ht H).
Qed.

(** *** One assignment *)

Section OneText.

Variables (h : Handle) (v : string) (d : Dom).

Let d1 := replaceChildrenWithText h v d.

Lemma replace_length : length d1 = length d.
Proof. unfold d1, replaceChildrenWithText. apply length_imap. Qed.

Lemma replace_parent_sub (j q : Handle) :
  d1 !! j ≫= parentNode = Some q -> d !! j ≫= parentNode = Some q.
Proof.
  unfold d1. rewrite lookup_replaceChildrenWithText.
  destruct (d !! j) as [el|]; cbn [fmap option_fmap option_map mbind option_bind];
    [|discriminate].
  destruct (Nat.eqb j h); [trivial|].
  destruct (isDescendantOf d h j); [|trivial].
  cbn [detached parentNode]. case_bool_decide; [discriminate|trivial].
Qed.

Lemma replace_parent_kept (j : Handle) :
  j = h \/ isDescendantOf d h j = false ->
  d1 !! j ≫= parentNode = d !! j ≫= parentNode.
Proof.
  intros H. unfold d1. rewrite lookup_replaceChildrenWithText.
  destruct (d !! j) as [el|]; cbn [fmap option_fmap option_map mbind option_bind];
    [|reflexivity].
  destruct (Nat.eqb_spec j h) as [E|E]; [reflexivity|].
  destruct H as [H|H]; [contradiction|]. now rewrite H.
Qed.

Lemma replace_treeOrder : treeOrder d = true -> treeOrder d1 = true.
Proof.
  intros Ht. apply treeOrder_intro. intros j el1 q Hel1 Hq.
  assert (H : d1 !! j ≫= parentNode = Some q) by now rewrite Hel1.
  apply replace_parent_sub in H.
  destruct (d !! j) as [el|] eqn:Hel; [|discriminate H].
  now apply (treeOrder_spec d j el q).
Qed.

Lemma replace_connected_mono (j : Handle) :
  connected d1 j = true -> connected d j = true.
Proof.
  unfold connected, d1. rewrite lookup_replaceChildrenWithText.
  destruct (d !! j) as [el|]; cbn [fmap option_fmap option_map]; [|trivial].
  destruct (Nat.eqb j h); [trivial|].
  destruct (isDescendantOf d h j); [discriminate|trivial].
Qed.

Lemma replace_detaches (j : Handle) :
  isDescendantOf d h j = true -> j <> h -> connected d1 j = false.
Proof.
  intros Hd Hne. unfold connected, d1. rewrite lookup_replaceChildrenWithText.
  destruct (d !! j) as [el|]; cbn [fmap option_fmap option_map]; [|reflexivity].
  destruct (Nat.eqb_spec j h) as [E|_]; [contradiction|]. now rewrite Hd.
Qed.

Lemma replace_other (j : Handle) :
  j <> h -> isDescendantOf d h j = false -> d1 !! j = d !! j.
Proof.
  intros Hne Hd. unfold d1. rewrite lookup_replaceChildrenWithText.
  destruct (d !! j) as [el|]; cbn [fmap option_fmap option_map]; [|reflexivity].
  destruct (Nat.eqb_spec j h) as [E|_]; [contradiction|]. now rewrite Hd.
Qed.

Lemma replace_ownText_self : (h < length d)%nat -> ownText <$> d1 !! h = Some v.
Proof.
  intros Hlt. unfold d1. rewrite lookup_replaceChildrenWithText.
  destruct (lookup_lt_is_Some_2 _ _ Hlt) as [el ->].
  cbn [fmap option_fmap option_map]. now rewrite Nat.eqb_refl.
Qed.

Lemma replace_ownText_other (j : Handle) :
  j <> h -> ownText <$> d1 !! j = ownText <$> d !! j.
Proof.
  intros Hne. unfold d1. rewrite lookup_replaceChildrenWithText.
  destruct (d !! j) as [el|]; cbn [fmap option_fmap option_map]; [|reflexivity].
  destruct (Nat.eqb_spec j h) as [E|_]; [contradiction|].
  now destruct (isDescendantOf d h j).
Qed.

(** What no assignment changes of any element. *)
Lemma replace_fields (j : Handle) :
  (localName <$> d1 !! j) = (localName <$> d !! j) /\
  (tagName <$> d1 !! j) = (tagName <$> d !! j) /\
  (idAttr <$> d1 !! j) = (idAttr <$> d !! j) /\
  (hrefAttr <$> d1 !! j) = (hrefAttr <$> d !! j) /\
  (classList <$> d1 !! j) = (classList <$> d !! j) /\
  (isContentEditable <$> d1 !! j) = (isContentEditable <$> d !! j).
Proof.
  unfold d1. rewrite lookup_replaceChildrenWithText.
  destruct (d !! j) as [el|]; cbn [fmap option_fmap option_map]; [|now repeat split].
  destruct (Nat.eqb j h); [now repeat split|].
  destruct (isDescendantOf d h j); now repeat split.
Qed.

Lemma replace_ancestors_sub (fuel : nat) (j x : Handle) :
  x ∈ ancestors fuel d1 j -> x ∈ ancestors fuel d j.
Proof.
  revert j. induction fuel as [|fuel IH]; intros j; cbn [ancestors]; [trivial|].
  destruct (d1 !! j ≫= parentNode) as [q|] eqn:Hq;
    [|intros H; now apply elem_of_nil in H].
  rewrite (replace_parent_sub j q Hq). intros H.
  apply elem_of_cons in H as [->|H]; [apply list_elem_of_here|].
  apply list_elem_of_further. now apply IH.
Qed.

Lemma replace_isDescendantOf_mono (t j : Handle) :
  isDescendantOf d1 t j = true -> isDescendantOf d t j = true.
Proof.
  rewrite !isDescendantOf_elem, replace_length. apply replace_ancestors_sub.
Qed.

(** Who was below [t] is still below it, or has left the document with
    the children of [h]. *)
Lemma replace_isDescendantOf_or (t j : Handle) :
  treeOrder d = true ->
  isDescendantOf d t j = true ->
  isDescendantOf d1 t j = true \/ isDescendantOf d h j = true.
Proof.
  intros Ht. pose proof (replace_treeOrder Ht) as Ht1.
  induction j as [j IH] using lt_wf_ind. intros Hd.
  destruct (isDescendantOf d h j) eqn:Hh; [now right|]. left.
  destruct (d !! j ≫= parentNode) as [q|] eqn:Hq;
    [|now rewrite (isDescendantOf_root d t j Hq) in Hd].
  assert (Hq1 : d1 !! j ≫= parentNode = Some q)
    by (rewrite replace_parent_kept; [exact Hq|now right]).
  destruct (d !! j) as [el|] eqn:Hel; [|discriminate Hq].
  destruct (d1 !! j) as [el1|] eqn:Hel1; [|discriminate Hq1].
  cbn [mbind option_bind] in Hq, Hq1.
  rewrite (isDescendantOf_step d t j el q Ht Hel Hq) in Hd.
  rewrite (isDescendantOf_step d h j el q Ht Hel Hq) in Hh.
  rewrite (isDescendantOf_step d1 t j el1 q Ht1 Hel1 Hq1).
  apply orb_false_iff in Hh as [_ Hh].
  apply orb_true_iff in Hd as [Hd|Hd]; [now rewrite Hd|].
  pose proof (treeOrder_spec d j el q Ht Hel Hq) as Hlt.
  destruct (IH q Hlt Hd) as [H|H]; [|congruence].
  rewrite H. apply orb_true_r.
Qed.

End OneText.

(** *** The assignments of the block, one after the other *)

Lemma setTexts_cons (h : Handle) (v : string) (targets : list (Handle * string)) (d : Dom) :
  setTexts ((h, v) :: targets) d = setTexts targets (replaceChildrenWithText h v d).
Proof. reflexivity. Qed.

Lemma setTexts_length (targets : list (Handle * string)) (d : Dom) :
  length (setTexts targets d) = length d.
Proof.
  revert d. induction targets as [|[h v] targets IH]; intros d; [reflexivity|].
  now rewrite setTexts_cons, IH, replace_length.
Qed.

Lemma setTexts_connected_mono (targets : list (Handle * string)) (d : Dom) (j : Handle) :
  connected (setTexts targets d) j = true -> connected d j = true.
Proof.
  revert d. induction targets as [|[h v] targets IH]; intros d; [trivial|].
  rewrite setTexts_cons. intros H. apply IH in H. now apply replace_connected_mono in H.
Qed.

Lemma setTexts_fields (targets : list (Handle * string)) (d : Dom) (j : Handle) :
  (localName <$> setTexts targets d !! j) = (localName <$> d !! j) /\
  (tagName <$> setTexts targets d !! j) = (tagName <$> d !! j) /\
  (idAttr <$> setTexts targets d !! j) = (idAttr <$> d !! j) /\
  (hrefAttr <$> setTexts targets d !! j) = (hrefAttr <$> d !! j) /\
  (classList <$> setTexts targets d !! j) = (classList <$> d !! j) /\
  (isContentEditable <$> setTexts targets d !! j) = (isContentEditable <$> d !! j).
Proof.
  revert d. induction targets as [|[h v] targets IH]; intros d; [now repeat split|].
  rewrite setTexts_cons.
  destruct (IH (replaceChildrenWithText h v d)) as (A1 & A2 & A3 & A4 & A5 & A6).
  destruct (replace_fields h v d j) as (B1 & B2 & B3 & B4 & B5 & B6).
  repeat split; congruence.
Qed.

Lemma setTexts_detaches (targets : list (Handle * string)) (d : Dom) (t j : Handle) :
  treeOrder d = true ->
  t ∈ targets.*1 ->
  isDescendantOf d t j = true ->
  connected (setTexts targets d) j = false.
Proof.
  revert d. induction targets as [|[h v] targets IH]; intros d Ht Hin Hd.
  - now apply elem_of_nil in Hin.
  - rewrite setTexts_cons.
    assert (Hgone : isDescendantOf d h j = true ->
                    connected (setTexts targets (replaceChildrenWithText h v d)) j = false).
    { intros Hh. pose proof (isDescendantOf_lt d h j Ht Hh) as Hlt.
      assert (Hne : j <> h) by lia.
      pose proof (replace_detaches h v d j Hh Hne) as Hc.
      destruct (connected (setTexts targets _) j) eqn:E; [|reflexivity].
      apply setTexts_connected_mono in E. congruence. }
    cbn [fmap list_fmap fst] in Hin. apply elem_of_cons in Hin as [->|Hin];
      [now apply Hgone|].
    destruct (replace_isDescendantOf_or h v d t j Ht Hd) as [H|H]; [|now apply Hgone].
    apply (IH _ (replace_treeOrder h v d Ht) Hin H).
Qed.

Lemma setTexts_other (targets : list (Handle * string)) (d : Dom) (j : Handle) :
  j ∉ targets.*1 ->
  (forall t, t ∈ targets.*1 -> isDescendantOf d t j = false) ->
  setTexts targets d !! j = d !! j.
Proof.
  revert d. induction targets as [|[h v] targets IH]; intros d Hnot Hd; [reflexivity|].
  rewrite setTexts_cons. cbn [fmap list_fmap fst] in Hnot, Hd.
  apply not_elem_of_cons in Hnot as [Hne Hnot].
  rewrite IH.
  - apply replace_other; [exact Hne|]. apply Hd, list_elem_of_here.
  - exact Hnot.
  - intros t Hin. destruct (isDescendantOf (replaceChildrenWithText h v d) t j) eqn:E;
      [|reflexivity].
    apply replace_isDescendantOf_mono in E.
    rewrite (Hd t (list_elem_of_further _ _ _ Hin)) in E. discriminate E.
Qed.

Lemma setTexts_ownText_other (targets : list (Handle * string)) (d : Dom) (j : Handle) :
  j ∉ targets.*1 -> ownText <$> setTexts targets d !! j = ownText <$> d !! j.
Proof.
  revert d. induction targets as [|[h v] targets IH]; intros d Hnot; [reflexivity|].
  rewrite setTexts_cons. cbn [fmap list_fmap fst] in Hnot.
  apply not_elem_of_cons in Hnot as [Hne Hnot].
  rewrite IH by exact Hnot. now apply replace_ownText_other.
Qed.

Lemma setTexts_ownText (targets : list (Handle * string)) (d : Dom) (h : Handle)
    (v : string) :
  NoDup targets.*1 -> (h, v) ∈ targets -> (h < length d)%nat ->
  ownText <$> setTexts targets d !! h = Some v.
Proof.
  revert d. induction targets as [|[h' v'] targets IH]; intros d Hnd Hin Hlt.
  - now apply elem_of_nil in Hin.
  - rewrite setTexts_cons. cbn [fmap list_fmap fst] in Hnd.
    apply NoDup_cons in Hnd as [Hnot Hnd].
    apply elem_of_cons in Hin as [E|Hin].
    + injection E as -> ->. rewrite setTexts_ownText_other by exact Hnot.
      now apply replace_ownText_self.
    + apply IH; [exact Hnd|exact Hin|now rewrite replace_length].
Qed.

Lemma dynamicContent_run (tza : Z -> Z) (n1 n2 n3 : JSDate) (p : Page) :
  dynamicContent tza n1 n2 n3 p
  = (Normal tt, setDom (setTexts (dynamicTargets tza n1 n2 n3 (dom p)) (dom p)) p).
Proof.
  unfold dynamicContent, dynamicTargets, set_textContent, modifyDom, getDom.
  unfold mbind, Run_bind, mret, Run_ret.
  destruct (getElementById "yoe" (dom p)), (getElementById "crunchr-duration" (dom p)),
    (getElementById "year" (dom p)); cbn [app setTexts foldl fst snd dom setDom effects];
    unfold setDom; cbn [dom effects]; try reflexivity; destruct p; reflexivity.
Qed.

Lemma elem_of_found (o : option Handle) (x : string) (h : Handle) (v : string) :
  (h, v) ∈ match o with Some h' => [(h', x)] | None => [] end <-> o = Some h /\ v = x.
Proof.
  destruct o as [h'|].
  - rewrite list_elem_of_singleton. split.
    + intros E. injection E as -> ->. now split.
    + intros [E ->]. injection E as ->. reflexivity.
  - rewrite elem_of_nil. split; [contradiction|intros [E _]; discriminate E].
Qed.

Lemma dynamicTargets_elem (tza : Z -> Z) (n1 n2 n3 : JSDate) (d : Dom) (h : Handle)
    (v : string) :
  (h, v) ∈ dynamicTargets tza n1 n2 n3 d <->
  (getElementById "yoe" d = Some h /\ v = calculateYOE tza n1) \/
  (getElementById "crunchr-duration" d = Some h /\ v = calculateCrunchrDuration tza n2) \/
  (getElementById "year" d = Some h /\ v = JS.numberToString (getFullYear n3)).
Proof.
  unfold dynamicTargets. rewrite !elem_of_app, !elem_of_found. reflexivity.
Qed.

Lemma dynamicTargets_fst (tza : Z -> Z) (n1 n2 n3 : JSDate) (d : Dom) (h : Handle) :
  h ∈ (dynamicTargets tza n1 n2 n3 d).*1 <->
  getElementById "yoe" d = Some h \/ getElementById "crunchr-duration" d = Some h \/
  getElementById "year" d = Some h.
Proof.
  rewrite list_elem_of_fmap. split.
  - intros ([h' v] & -> & Hin). apply dynamicTargets_elem in Hin. cbn [fst]. tauto.
  - intros H.
    destruct H as [H|[H|H]]; eexists (h, _); (split; [reflexivity|]);
      apply dynamicTargets_elem; eauto.
Qed.

Lemma dynamicTargets_NoDup (tza : Z -> Z) (n1 n2 n3 : JSDate) (d : Dom) :
  NoDup (dynamicTargets tza n1 n2 n3 d).*1.
Proof.
  unfold dynamicTargets.
  destruct (getElementById "yoe" d) as [a|] eqn:Ea,
    (getElementById "crunchr-duration" d) as [b|] eqn:Eb,
    (getElementById "year" d) as [c|] eqn:Ec; cbn [app fmap list_fmap fst];
    repeat (apply NoDup_cons; split); try apply NoDup_nil_2;
    rewrite ?not_elem_of_cons; repeat split; try apply not_elem_of_nil;
    intros ->;
    match goal with
    | H1 : getElementById ?x d = Some ?j, H2 : getElementById ?y d = Some ?j |- _ =>
        discriminate (getElementById_inj x y d j H1 H2)
    end.
Qed.

(** X15. The block DYNAMIC CONTENT always completes and asks for nothing
    outside the document. The first element with id [yoe] gets the text of
    calculateYOE for its only child, the first with id [crunchr-duration]
    that of calculateCrunchrDuration, the first with id [year] the year; an
    id the document does not have is skipped. Every element that was below
    one of the three is out of the document afterwards; every element that
    is none of the three and below none of them is left as it was; and no
    element changes its name, id, href or classes. *)
Theorem dynamicContent_texts (tza : Z -> Z) (nowYoe nowCrunchr nowYear : JSDate)
    (p : Page) :
  treeOrder (dom p) = true ->
  let r := dynamicContent tza nowYoe nowCrunchr nowYear p in
  let d' := dom (snd r) in
  let found h :=
    getElementById "yoe" (dom p) = Some h \/
    getElementById "crunchr-duration" (dom p) = Some h \/
    getElementById "year" (dom p) = Some h in
  fst r = Normal tt /\
  effects (snd r) = effects p /\
  (forall h, getElementById "yoe" (dom p) = Some h ->
             ownText <$> d' !! h = Some (calculateYOE tza nowYoe)) /\
  (forall h, getElementById "crunchr-duration" (dom p) = Some h ->
             ownText <$> d' !! h = Some (calculateCrunchrDuration tza nowCrunchr)) /\
  (forall h, getElementById "year" (dom p) = Some h ->
             ownText <$> d' !! h = Some (JS.numberToString (getFullYear nowYear))) /\
  (forall h j, found h -> isDescendantOf (dom p) h j = true -> connected d' j = false) /\
  (forall j, ~ found j -> (forall h, found h -> isDescendantOf (dom p) h j = false) ->
             d' !! j = dom p !! j) /\
  (forall j, (localName <$> d' !! j) = (localName <$> dom p !! j) /\
             (tagName <$> d' !! j) = (tagName <$> dom p !! j) /\
             (idAttr <$> d' !! j) = (idAttr <$> dom p !! j) /\
             (hrefAttr <$> d' !! j) = (hrefAttr <$> dom p !! j) /\
             (classList <$> d' !! j) = (classList <$> dom p !! j)).
Proof.
  intros Ht r d' found. subst r d'. rewrite dynamicContent_run.
  cbn [fst snd dom effects setDom].
  set (targets := dynamicTargets tza nowYoe nowCrunchr nowYear (dom p)).
  assert (Hfound : forall h, found h <-> h ∈ targets.*1)
    by (intros h; symmetry; apply dynamicTargets_fst).
  assert (Htext : forall h v, (h, v) ∈ targets ->
                    ownText <$> setTexts targets (dom p) !! h = Some v).
  { intros h v Hin. apply setTexts_ownText; [apply dynamicTargets_NoDup|exact Hin|].
    assert (Hf : found h).
    { apply Hfound, list_elem_of_fmap. now exists (h, v). }
    destruct Hf as [H|[H|H]]; apply querySelector_Some in H; tauto. }
  split; [reflexivity|]. split; [reflexivity|].
  split; [intros h H; apply Htext, dynamicTargets_elem; auto|].
  split; [intros h H; apply Htext, dynamicTargets_elem; auto|].
  split; [intros h H; apply Htext, dynamicTargets_elem; auto 6|].
  split; [|split].
  - intros h j Hf Hd. apply (setTexts_detaches targets (dom p) h j Ht); [|exact Hd].
    now apply Hfound.
  - intros j Hnot Hd. apply setTexts_other.
    + intros Hin. now apply Hnot, Hfound.
    + intros t Hin. now apply Hd, Hfound.
  - intros j. destruct (setTexts_fields targets (dom p) j) as (A1 & A2 & A3 & A4 & A5 & _).
    now repeat split.
Qed.

Lemma dynamicContent_texts_witness :
  connected (dom (snd (dynamicContent Demo.utc Demo.today Demo.today Demo.today
                         (Demo.page Demo.nested)))) 5 = false.
Proof.
  refine (proj1 (proj2 (proj2 (proj2 (proj2 (proj2
            (dynamicContent_texts Demo.utc Demo.today Demo.today Demo.today
               (Demo.page Demo.nested) _)))))) 3%nat 5%nat _ _).
  - vm_compute. reflexivity.
  - left. vm_compute. reflexivity.
  - vm_compute. reflexivity.
Defined.

(** ** calculateYOE before the milestone *)

Section SignedRounding.

Import Binary64 Binary64Facts.
Local Open Scope Q_scope.

Lemma RNE_opp (t : Q) : roundHalfEven (- t) = (- roundHalfEven t)%Z.
Proof.
  pose proof (Qfloor_le t) as Hlo. pose proof (Qlt_floor t) as Hhi.
  rewrite inject_Z_plus in Hhi.
  destruct (Qle_lt_or_eq _ _ Hlo) as [Hlt|Heq].
  - assert (Hf : Qfloor (- t) = (- Qfloor t - 1)%Z).
    { apply Qfloor_unique.
      - rewrite inject_Z_minus, inject_Z_opp. lra.
      - replace (- Qfloor t - 1 + 1)%Z with (- Qfloor t)%Z by lia.
        rewrite inject_Z_opp. lra. }
    unfold roundHalfEven. rewrite Hf.
    rewrite inject_Z_minus, inject_Z_opp.
    assert (Hev : Z.even (- Qfloor t - 1) = negb (Z.even (Qfloor t))).
    { rewrite Z.even_sub, Z.even_opp. now destruct (Z.even (Qfloor t)). }
    rewrite Hev. change (inject_Z 1) with 1 in *.
    destruct (Qcompare_spec (t - inject_Z (Qfloor t)) (1#2)) as [C|C|C];
    destruct (Qcompare_spec (- t - (- inject_Z (Qfloor t) - 1)) (1#2))
      as [C'|C'|C'];
      try (exfalso; lra); try lia.
    destruct (Z.even (Qfloor t)); cbn [negb]; lia.
  - assert (E : - t == inject_Z (- Qfloor t)) by (rewrite inject_Z_opp; lra).
    rewrite (RNE_comp _ _ E), RNE_Z.
    assert (E' : t == inject_Z (Qfloor t)) by lra.
    rewrite (RNE_comp _ _ E') at 1. now rewrite RNE_Z.
Qed.

Lemma round_opp (x : Q) : round (- x) == - round x.
Proof.
  unfold round.
  assert (Eb : Qeq_bool (- x) 0 = Qeq_bool x 0).
  { destruct (Qeq_bool x 0) eqn:A.
    - apply Qeq_bool_eq in A. apply Qeq_eq_bool. lra.
    - destruct (Qeq_bool (- x) 0) eqn:B; [|reflexivity].
      apply Qeq_bool_eq in B. assert (X : x == 0) by lra.
      apply Qeq_eq_bool in X. congruence. }
  rewrite Eb. destruct (Qeq_bool x 0) eqn:A; [reflexivity|].
  assert (Hx : 0 < Qabs (- x)).
  { apply Qabs_nonzero_pos. intros Q0. assert (X : x == 0) by lra.
    apply Qeq_eq_bool in X. congruence. }
  assert (Ee : ulpExp (- x) = ulpExp x).
  { unfold ulpExp. f_equal. apply ilog2_comp; [exact Hx|]. apply Qabs_opp. }
  rewrite Ee.
  assert (Et : - x / two_pow (ulpExp x) == - (x / two_pow (ulpExp x))).
  { unfold Qdiv. ring. }
  rewrite (RNE_comp _ _ Et), RNE_opp, inject_Z_opp. ring.
Qed.

(** Rounding to the nearest double never reverses an order. *)
Lemma round_mono (x y : Q) : x <= y -> round x <= round y.
Proof.
  intros H. destruct (Qlt_le_dec x 0) as [Hx|Hx]; [|now apply round_mono_nonneg].
  pose proof (round_opp x) as Ox.
  destruct (Qlt_le_dec 0 y) as [Hy|Hy].
  - assert (A : round 0 <= round (- x)) by (apply round_mono_nonneg; lra).
    assert (B : round 0 <= round y) by (apply round_mono_nonneg; lra).
    pose proof round_0 as R0. lra.
  - pose proof (round_opp y) as Oy.
    assert (A : round (- y) <= round (- x)) by (apply round_mono_nonneg; lra).
    lra.
Qed.

(** The year count as a function of the milliseconds since the milestone,
    of either sign. *)
Lemma yoeTotalYears_since (tza : Z -> Z) (now : JSDate) :
  yoeTotalYears tza now
  = floor (fadd 5 (fdiv (round (inject_Z
             (getTime now - getTime (yoeStartDate (CONFIG tza))))) msPerYear)).
Proof.
  unfold yoeTotalYears, floor, fadd, fdiv, fsub.
  apply Qfloor_comp. apply round_comp. apply Qplus_comp; [reflexivity|].
  apply round_comp. apply Qdiv_comp; [|reflexivity].
  apply round_comp. rewrite inject_Z_minus. reflexivity.
Qed.

Lemma yoe_since_mono (ms ms' : Z) :
  (ms <= ms')%Z ->
  (floor (fadd 5 (fdiv (round (inject_Z ms)) msPerYear)) <=
   floor (fadd 5 (fdiv (round (inject_Z ms')) msPerYear)))%Z.
Proof.
  intros Hle. unfold floor, fadd, fdiv.
  assert (Q1 : inject_Z ms <= inject_Z ms') by (rewrite <- Zle_Qle; exact Hle).
  apply round_mono in Q1.
  assert (Hinv : 0 <= / msPerYear) by (vm_compute; discriminate).
  assert (Q2 : round (inject_Z ms) / msPerYear <= round (inject_Z ms') / msPerYear).
  { unfold Qdiv. apply Qmult_le_compat_r; assumption. }
  apply round_mono in Q2.
  apply Qfloor_resp_le. apply round_mono. lra.
Qed.

End SignedRounding.

(** X16. calculateYOE at any date, also one before the milestone (a visitor
    whose clock is set back): the count of a later time is never smaller, it
    is 5 or more exactly from the milestone on, and during the 365.25 days
    before the milestone the text is "4+". *)
Theorem yoe_counts_from_the_milestone (tza : Z -> Z) (now : JSDate) :
  let start := getTime (yoeStartDate (CONFIG tza)) in
  (forall later : JSDate,
     getTime now <= getTime later -> yoeTotalYears tza now <= yoeTotalYears tza later) /\
  (5 <= yoeTotalYears tza now <-> start <= getTime now) /\
  (start - 31557600000 <= getTime now < start -> calculateYOE tza now = "4+").
Proof.
  intros start.
  assert (Hmono : forall a b : JSDate,
            getTime a <= getTime b -> yoeTotalYears tza a <= yoeTotalYears tza b).
  { intros a b Hab. rewrite !yoeTotalYears_since. apply yoe_since_mono. lia. }
  assert (Hat : forall (ms : Z) (d : JSDate), getTime d - start = ms ->
            yoeTotalYears tza d
            = Binary64.floor (Binary64.fadd 5
                (Binary64.fdiv (Binary64.round (inject_Z ms)) msPerYear))).
  { intros ms d <-. apply yoeTotalYears_since. }
  set (at_ms := fun ms : Z => mkDate (start + ms) 0 0).
  assert (H0 : yoeTotalYears tza (at_ms 0) = 5).
  { rewrite (Hat 0) by (cbn [at_ms getTime]; lia). vm_compute. reflexivity. }
  assert (H1 : yoeTotalYears tza (at_ms (-1)) = 4).
  { rewrite (Hat (-1)) by (cbn [at_ms getTime]; lia). vm_compute. reflexivity. }
  assert (HY : yoeTotalYears tza (at_ms (-31557600000)) = 4).
  { rewrite (Hat (-31557600000)) by (cbn [at_ms getTime]; lia). vm_compute. reflexivity. }
  split; [|split].
  - intros later Hle. now apply Hmono.
  - split.
    + intros H5. destruct (Z_lt_le_dec (getTime now) start) as [Hlt|Hge]; [|exact Hge].
      assert (Hle : yoeTotalYears tza now <= yoeTotalYears tza (at_ms (-1)))
        by (apply Hmono; cbn [at_ms getTime]; lia).
      lia.
    + intros Hge. rewrite <- H0. apply Hmono. cbn [at_ms getTime]. lia.
  - intros [Hlo Hhi]. unfold calculateYOE.
    assert (H4 : yoeTotalYears tza now = 4).
    { assert (A : yoeTotalYears tza (at_ms (-31557600000)) <= yoeTotalYears tza now)
        by (apply Hmono; cbn [at_ms getTime]; lia).
      assert (B : yoeTotalYears tza now <= yoeTotalYears tza (at_ms (-1)))
        by (apply Hmono; cbn [at_ms getTime]; lia).
      lia. }
    rewrite H4. reflexivity.
Qed.

(** ** What the script asks of the browser *)

Section Emits.

Context (P : Effect -> Prop).

Lemma emits_ret {A} (a : A) : emits P (mret a : Run A).
Proof. intros p. exists []. split; [now rewrite app_nil_r|constructor]. Qed.

Lemma emits_getDom : emits P getDom.
Proof. intros p. exists []. split; [now rewrite app_nil_r|constructor]. Qed.

Lemma emits_modifyDom (f : Dom -> Dom) : emits P (modifyDom f).
Proof. intros p. exists []. split; [now rewrite app_nil_r|constructor]. Qed.

Lemma emits_deref {A} (o : option A) : emits P (deref o).
Proof.
  intros p. exists []. split; [|constructor].
  destruct o; now rewrite app_nil_r.
Qed.

Lemma emits_emit (e : Effect) : P e -> emits P (emit e).
Proof. intros H p. exists [e]. split; [reflexivity|]. now repeat constructor. Qed.

Lemma emits_bind {A B} (m : Run A) (k : A -> Run B) :
  emits P m -> (forall a, emits P (k a)) -> emits P (m ≫= k).
Proof.
  intros Hm Hk p. unfold mbind, Run_bind. destruct (Hm p) as (new & He & Hn).
  destruct (m p) as [[a|] p1]; cbn [snd] in *; [|now exists new].
  destruct (Hk a p1) as (new' & He' & Hn'). exists (new ++ new'). split.
  - now rewrite He', He, app_assoc.
  - now apply Forall_app.
Qed.

Lemma emits_forEach {A} (l : list A) (f : A -> Run unit) :
  (forall x, emits P (f x)) -> emits P (forEach l f).
Proof.
  intros Hf. induction l as [|x l IH]; cbn [forEach].
  - apply emits_ret.
  - apply emits_bind; [apply Hf|intros _; exact IH].
Qed.

Lemma emits_foldM {A B} (f : B -> A -> Run B) (b : B) (l : list A) :
  (forall b x, emits P (f b x)) -> emits P (foldM f b l).
Proof.
  intros Hf. revert b. induction l as [|x l IH]; intros b; cbn [foldM].
  - apply emits_ret.
  - apply emits_bind; [apply Hf|intros b'; apply IH].
Qed.

Lemma emits_runListeners (ls : list (Run unit)) (p : Page) :
  Forall (emits P) ls ->
  exists new, effects (snd (runListeners ls p)) = effects p ++ new /\ Forall P new.
Proof.
  intros H. revert p. induction H as [|l ls Hl _ IH]; intros p; cbn [runListeners].
  - exists []. split; [now rewrite app_nil_r|constructor].
  - destruct (Hl p) as (new & He & Hn). destruct (l p) as [c p1].
    destruct (IH p1) as (new' & He' & Hn').
    destruct (runListeners ls p1) as [cs p2]. cbn [snd] in *.
    exists (new ++ new'). split.
    + now rewrite He', He, app_assoc.
    + now apply Forall_app.
Qed.

End Emits.

Ltac emits_tac :=
  repeat first
    [ progress intros
    | apply emits_ret
    | apply emits_getDom
    | apply emits_modifyDom
    | apply emits_deref
    | apply emits_bind
    | apply emits_forEach
    | apply emits_foldM
    | match goal with
      | |- emits _ (if ?b then _ else _) => destruct b eqn:?
      | |- emits _ (match ?o with Some _ => _ | None => _ end) => destruct o
      end
    | (apply emits_emit; cbn [mayAsk]; now auto) ].

(** The tracker and the set-up work on the document alone. *)
Lemma updateActiveNav_silent (P : Effect -> Prop) (cfg : Config)
    (links secs : list Handle) (w : Window) :
  emits P (updateActiveNav cfg links secs w).
Proof.
  unfold updateActiveNav, clearActive, visitSection, markLinksFor, classList_add,
    classList_remove, getAttribute_href, getAttribute_id.
  emits_tac.
Qed.

Lemma listeners_emit (tza : Z -> Z) (s : Script) (w : Window) (ev : Event) :
  Forall (emits (mayAsk s w ev)) (listeners tza s w ev).
Proof.
  destruct ev as [|entries| | | | |e|e|[|]]; cbn [listeners]; split_listeners;
    try apply updateActiveNav_silent.
  all: unfold_listeners.
  all: unfold classList_add, classList_remove, classList_toggle.
  all: emits_tac.
Qed.

(** X17. What the script asks of the browser. Loading the page asks
    nothing. Afterwards, whatever events arrive, the effects issued before
    stay in their order and each new one is due to one of the events: a
    scroll, an intersection, a key or the release timer of the corner logo
    asks nothing; a click on the close button only stops the propagation;
    a click on the logo prevents the default and scrolls to the top, on the
    home page only; a click on the corner logo scrolls to the top on the
    home page and navigates to "/" elsewhere, and starts a timer of 100
    milliseconds; a click on the footer origin starts a timer of 350
    milliseconds; its timer scrolls to the height of the body. *)
Theorem script_asks_only_for (inherited : string -> option string) (tza : Z -> Z)
    (nowYoe nowCrunchr nowYear : JSDate) (w0 : Window) (s : Script) (p : Page)
    (evs : list (Window * Event)) :
  effects (snd (init inherited tza nowYoe nowCrunchr nowYear w0 p)) = effects p /\
  exists new,
    effects (runEvents tza s p evs) = effects p ++ new /\
    Forall (fun e => exists we, we ∈ evs /\ mayAsk s (fst we) (snd we) e) new.
Proof.
  split.
  - assert (H : emits (fun _ => False)
                  (init inherited tza nowYoe nowCrunchr nowYear w0)).
    { unfold init, initSmartLinks, dynamicContent, getAttribute_href,
        setAttribute_href, set_textContent.
      emits_tac; apply updateActiveNav_silent. }
    destruct (H p) as (new & He & Hn). rewrite He.
    destruct new as [|e new]; [apply app_nil_r|].
    now apply Forall_cons in Hn as [[] _].
  - revert p. induction evs as [|[w ev] evs IH]; intros p.
    + exists []. split; [cbn; now rewrite app_nil_r|constructor].
    + cbn [runEvents foldl]. fold (runEvents tza s (step tza s p (w, ev)) evs).
      destruct (IH (step tza s p (w, ev))) as (new' & He' & Hn').
      destruct (emits_runListeners _ _ p (listeners_emit tza s w ev))
        as (new & He & Hn).
      exists (new ++ new'). split.
      * rewrite He'. unfold step, dispatch. cbn [fst snd]. rewrite He.
        now rewrite app_assoc.
      * apply Forall_app. split.
        -- eapply Forall_impl; [exact Hn|]. intros e He0. exists (w, ev).
           split; [apply elem_of_cons; now left|exact He0].
        -- eapply Forall_impl; [exact Hn'|]. intros e (we & Hin & Hask).
           exists we. split; [apply elem_of_cons; now right|exact Hask].
Qed.

(** ** The scroll hint *)

Lemma sameClass_querySelector (c : string) (d d' : Dom) :
  sameClass c d d' -> querySelector (sel_class c) d' = querySelector (sel_class c) d.
Proof.
  intros [Ha Hc]. unfold querySelector. f_equal. apply querySelectorAll_ext.
  - symmetry. now apply attrs_length.
  - intros j. symmetry. now apply connected_attrs.
  - intros j. unfold sel_class. symmetry. apply Hc.
Qed.

Lemma runEvents_same (c : string) (tza : Z -> Z) (s : Script) (p : Page)
    (evs : list (Window * Event)) :
  c <> "visible" -> c <> "active" -> c <> "hidden" -> c <> "expanded" -> c <> "pressed" ->
  sameClass c (dom p) (dom (runEvents tza s p evs)).
Proof.
  intros Hv Ha Hh He Hp. apply runEvents_preserves; try typeclasses eauto.
  intros w ev. now apply listeners_same_untouched.
Qed.

(** X18. The scroll hint. The listener looks the hint up anew at every
    scroll, and finds the element the document's first [.scroll-hint] was
    when the page came up, whatever happened since. A scroll event further
    down than 50 pixels gives it the class hidden, and no later event takes
    that class away; a scroll event at 50 pixels or less changes the class
    hidden of no element. *)
Theorem scroll_hint_fades_for_good (tza : Z -> Z) (s : Script) (p : Page)
    (before after : list (Window * Event)) (w : Window) (hint : Handle) :
  querySelector (sel_class "scroll-hint") (dom p) = Some hint ->
  let q := runEvents tza s p before in
  let q' := step tza s q (w, EvScroll) in
  querySelector (sel_class "scroll-hint") (dom q') = Some hint /\
  ((50 < scrollY w)%Q ->
   hasClass (dom (runEvents tza s q' after)) hint "hidden" = true) /\
  ((scrollY w <= 50)%Q ->
   forall h, hasClass (dom q') h "hidden" = hasClass (dom q) h "hidden").
Proof.
  intros Hhint q q'.
  assert (Hq : querySelector (sel_class "scroll-hint") (dom q) = Some hint).
  { rewrite <- Hhint. apply sameClass_querySelector.
    apply runEvents_same; discriminate. }
  set (q1 := setDom (setActive (navOn (CONFIG tza) (navLinks s) (sections s) w (dom q))
                       (navLinks s) (dom q)) q).
  assert (Hsame : forall c, c <> "active" -> sameClass c (dom q) (dom q1)).
  { intros c Hc. pose proof (updateActiveNav_same c (CONFIG tza) (navLinks s)
                               (sections s) w Hc q) as H.
    now rewrite updateActiveNav_run in H. }
  assert (Hq1 : querySelector (sel_class "scroll-hint") (dom q1) = Some hint).
  { rewrite <- Hq. apply sameClass_querySelector. apply Hsame. discriminate. }
  assert (Hstep : q' = snd (onScrollHint (CONFIG tza) w q1)).
  { unfold q', step, dispatch. cbn [fst snd listeners runListeners].
    rewrite updateActiveNav_run. fold q1.
    destruct (onScrollHint (CONFIG tza) w q1) as [c q2]. reflexivity. }
  assert (Hrun : onScrollHint (CONFIG tza) w q1 =
                 if Qlt_bool (inject_Z 50) (scrollY w)
                 then (Normal tt,
                       setDom (alter (withClassList (ClassList.add "hidden")) hint (dom q1)) q1)
                 else (Normal tt, q1)).
  { unfold onScrollHint. unfold mbind, Run_bind, getDom. rewrite Hq1.
    change (scrollThreshold (CONFIG tza)) with 50.
    destruct (Qlt_bool (inject_Z 50) (scrollY w)); reflexivity. }
  rewrite Hrun in Hstep.
  assert (Hlt : (50 < scrollY w)%Q -> Qlt_bool (inject_Z 50) (scrollY w) = true).
  { intros H. unfold Qlt_bool. destruct (Qle_bool (scrollY w) (inject_Z 50)) eqn:E;
      [|reflexivity].
    apply Qle_bool_iff in E. exfalso. exact (Qlt_not_le _ _ H E). }
  assert (Hle : (scrollY w <= 50)%Q -> Qlt_bool (inject_Z 50) (scrollY w) = false).
  { intros H. unfold Qlt_bool.
    assert (E : Qle_bool (scrollY w) (inject_Z 50) = true) by now apply Qle_bool_iff.
    now rewrite E. }
  split; [|split].
  - rewrite Hstep.
    destruct (Qlt_bool (inject_Z 50) (scrollY w)); cbn [snd]; [|exact Hq1].
    rewrite <- Hq1. apply sameClass_querySelector. cbn [dom setDom].
    apply same_add. discriminate.
  - intros H. rewrite (Hlt H) in Hstep. cbn [snd] in Hstep.
    apply runEvents_keeps; try discriminate.
    rewrite Hstep. cbn [dom setDom].
    apply querySelector_Some in Hq1 as [Hlen _].
    destruct (lookup_lt_is_Some_2 _ _ Hlen) as [el Hel].
    rewrite hasClass_alter, decide_True, Hel by reflexivity.
    rewrite contains_add. reflexivity.
  - intros H h. rewrite (Hle H) in Hstep. cbn [snd] in Hstep. rewrite Hstep.
    symmetry. apply (Hsame "hidden"). discriminate.
Qed.

Lemma scroll_hint_fades_for_good_witness :
  hasClass (dom (runEvents Demo.utc Home.script
                   (step Demo.utc Home.script
                      (runEvents Demo.utc Home.script (snd Home.load) [])
                      (Demo.window 60 0%nat, EvScroll)) []))
           14 "hidden" = true.
Proof.
  refine (proj1 (proj2 (scroll_hint_fades_for_good Demo.utc Home.script (snd Home.load)
                          [] [] (Demo.window 60 0%nat) 14 _)) _).
  - vm_compute. reflexivity.
  - vm_compute. reflexivity.
Defined.

(** ** The elements the script holds on to *)

#[export] Instance sameButHref_refl : Reflexive sameButHref.
Proof. intros d. reflexivity. Qed.

#[export] Instance sameButHref_trans : Transitive sameButHref.
Proof. intros d1 d2 d3 H12 H23. unfold sameButHref in *. congruence. Qed.

Lemma butHref_href (h : Handle) (v : string) :
  preserves sameButHref (setAttribute_href h v).
Proof.
  apply preserves_modifyDom. intros d. unfold sameButHref. apply list_eq. intros j.
  rewrite !list_lookup_fmap. destruct (decide (h = j)) as [->|Hne].
  - rewrite list_lookup_alter_eq. now destruct (d !! j).
  - now rewrite list_lookup_alter_ne by exact Hne.
Qed.

Lemma initSmartLinks_butHref (inherited : string -> option string) (w : Window) :
  preserves sameButHref (initSmartLinks inherited w).
Proof.
  unfold initSmartLinks, getAttribute_href.
  repeat first
    [ progress intros
    | solve [apply preserves_ret; typeclasses eauto]
    | solve [apply preserves_getDom; typeclasses eauto]
    | apply butHref_href
    | (apply preserves_bind; [try typeclasses eauto..| |])
    | (apply preserves_forEach; [try typeclasses eauto..|])
    | match goal with
      | |- preserves _ (if ?b then _ else _) => destruct b
      | |- preserves _ (match ?o with Some _ => _ | None => _ end) => destruct o
      end ].
Qed.

Lemma sameButHref_lookup {A} (f : Element -> A) (d d' : Dom) (j : Handle) :
  sameButHref d d' -> (forall el v, f (withHref v el) = f el) ->
  f <$> d' !! j = f <$> d !! j.
Proof.
  intros E Hf. apply (f_equal (fun l => f <$> l !! j)) in E.
  rewrite !list_lookup_fmap in E.
  destruct (d !! j), (d' !! j); cbn in *; rewrite ?Hf in E; congruence.
Qed.

(** What two states of the document agree on, field by field. *)
Lemma agree_length {A} (f : Element -> A) (d d' : Dom) :
  (forall j, f <$> d' !! j = f <$> d !! j) -> length d' = length d.
Proof.
  intros H.
  destruct (Nat.lt_trichotomy (length d) (length d')) as [Hlt|[Heq|Hgt]];
    [exfalso|now symmetry|exfalso].
  - specialize (H (length d)).
    destruct (lookup_lt_is_Some_2 d' _ Hlt) as [el Hel].
    rewrite Hel, (lookup_ge_None_2 d (length d)) in H by lia. discriminate H.
  - specialize (H (length d')).
    destruct (lookup_lt_is_Some_2 d _ Hgt) as [el Hel].
    rewrite Hel, (lookup_ge_None_2 d' (length d')) in H by lia. discriminate H.
Qed.

Lemma agree_connected (d d' : Dom) (j : Handle) :
  isConnected <$> d' !! j = isConnected <$> d !! j -> connected d' j = connected d j.
Proof. unfold connected. destruct (d !! j), (d' !! j); cbn; congruence. Qed.

Lemma agree_localName (n : string) (d d' : Dom) (j : Handle) :
  localName <$> d' !! j = localName <$> d !! j -> localNameIs n d' j = localNameIs n d j.
Proof. unfold localNameIs. destruct (d !! j), (d' !! j); cbn; congruence. Qed.

Lemma agree_id (d d' : Dom) (j : Handle) :
  idAttr <$> d' !! j = idAttr <$> d !! j -> d' !! j ≫= idAttr = d !! j ≫= idAttr.
Proof. destruct (d !! j), (d' !! j); cbn; congruence. Qed.

Lemma agree_class (c : string) (d d' : Dom) (j : Handle) :
  classList <$> d' !! j = classList <$> d !! j -> hasClass d' j c = hasClass d j c.
Proof. unfold hasClass. destruct (d !! j), (d' !! j); cbn; congruence. Qed.

Lemma agree_ancestors (fuel : nat) (d d' : Dom) (j : Handle) :
  (forall j, parentNode <$> d' !! j = parentNode <$> d !! j) ->
  ancestors fuel d' j = ancestors fuel d j.
Proof.
  intros H. revert j. induction fuel as [|fuel IH]; intros j; [reflexivity|].
  cbn [ancestors].
  assert (E : d' !! j ≫= parentNode = d !! j ≫= parentNode)
    by (specialize (H j); destruct (d !! j), (d' !! j); cbn in *; congruence).
  rewrite E. destruct (d !! j ≫= parentNode); [|reflexivity]. now rewrite IH.
Qed.

(** The lookups of the script find the same in two states of the document
    that have the same elements in them, under the same names, ids and
    classes, the class active apart. *)
Lemma lookups_agree (d d' : Dom) :
  length d' = length d ->
  (forall j, connected d' j = connected d j) ->
  (forall n j, localNameIs n d' j = localNameIs n d j) ->
  (forall j, d' !! j ≫= idAttr = d !! j ≫= idAttr) ->
  (forall c j, c <> "active" -> hasClass d' j c = hasClass d j c) ->
  (forall i, getElementById i d' = getElementById i d) /\
  (forall c, c <> "active" ->
             querySelector (sel_class c) d' = querySelector (sel_class c) d) /\
  querySelectorAll sel_section_id d' = querySelectorAll sel_section_id d.
Proof.
  intros Hlen Hcon Hname Hid Hcls. split; [|split].
  - intros i. unfold getElementById, querySelector. f_equal.
    apply querySelectorAll_ext; [exact Hlen|exact Hcon|].
    intros j. unfold sel_id. now rewrite Hid.
  - intros c Hc. unfold querySelector. f_equal.
    apply querySelectorAll_ext; [exact Hlen|exact Hcon|].
    intros j. unfold sel_class. now apply Hcls.
  - apply querySelectorAll_ext; [exact Hlen|exact Hcon|].
    intros j. unfold sel_section_id, sel_section. now rewrite Hname, Hid.
Qed.

Lemma sel_nav_a_hash_attrs (d d' : Dom) (j : Handle) :
  attrs d = attrs d' -> sel_nav_a_hash d j = sel_nav_a_hash d' j.
Proof.
  intros E. unfold sel_nav_a_hash, sel_a.
  rewrite (localNameIs_attrs "a" d d' j E), (attrs_href d d' j E), (attrs_length d d' E).
  f_equal.
  assert (Hp : forall k, parentNode <$> d' !! k = parentNode <$> d !! k).
  { intros k. apply (f_equal (fun l => parentNode <$> l !! k)) in E. unfold attrs in E.
    rewrite !list_lookup_fmap in E. destruct (d !! k), (d' !! k); cbn in *; congruence. }
  rewrite (agree_ancestors _ d d' j Hp).
  apply existsb_pointwise. intros a. now apply localNameIs_attrs.
Qed.

Lemma replace_connected_same (h : Handle) (v : string) (d : Dom) (j : Handle) :
  isDescendantOf d h j = false ->
  connected (replaceChildrenWithText h v d) j = connected d j.
Proof.
  intros Hd. unfold connected. rewrite lookup_replaceChildrenWithText.
  destruct (d !! j) as [el|]; cbn [fmap option_fmap option_map]; [|reflexivity].
  destruct (Nat.eqb j h); [reflexivity|]. now rewrite Hd.
Qed.

Lemma setTexts_connected_same (targets : list (Handle * string)) (d : Dom) (j : Handle) :
  (forall t, t ∈ targets.*1 -> isDescendantOf d t j = false) ->
  connected (setTexts targets d) j = connected d j.
Proof.
  revert d. induction targets as [|[h v] targets IH]; intros d Hd; [reflexivity|].
  rewrite setTexts_cons. cbn [fmap list_fmap fst] in Hd. rewrite IH.
  - apply replace_connected_same, Hd, list_elem_of_here.
  - intros t Hin. destruct (isDescendantOf (replaceChildrenWithText h v d) t j) eqn:E;
      [|reflexivity].
    apply replace_isDescendantOf_mono in E.
    rewrite (Hd t (list_elem_of_further _ _ _ Hin)) in E. discriminate E.
Qed.

Lemma init_steps (inherited : string -> option string) (tza : Z -> Z) (n1 n2 n3 : JSDate)
    (w : Window) (p : Page) :
  let p1 := snd (dynamicContent tza n1 n2 n3 (snd (initSmartLinks inherited w p))) in
  let links := querySelectorAll sel_nav_a_hash (dom p1) in
  let secs := querySelectorAll sel_section_id (dom p1) in
  let d2 := setActive (navOn (CONFIG tza) links secs w (dom p1)) links (dom p1) in
  exists s, init inherited tza n1 n2 n3 w p = (Normal s, setDom d2 p1) /\
    navLinks s = links /\ sections s = secs /\
    terminal s = getElementById "work-terminal" d2 /\
    footerOrigin s = querySelector (sel_class "footer-origin") d2 /\
    logo s = querySelector (sel_class "logo") d2 /\
    cornerLogo s = querySelector (sel_class "corner-logo") d2.
Proof.
  destruct (total_run (initSmartLinks inherited w) p (initSmartLinks_total _ _)) as [[] Ha].
  set (pa := snd (initSmartLinks inherited w p)) in *.
  destruct (total_run (dynamicContent tza n1 n2 n3) pa (dynamicContent_total _ _ _ _))
    as [[] Hb].
  set (pb := snd (dynamicContent tza n1 n2 n3 pa)) in *.
  intros p1 links secs d2. eexists. split.
  - unfold init.
    erewrite bind_normal by exact Ha.
    erewrite bind_normal by exact Hb.
    erewrite bind_normal by reflexivity.
    erewrite bind_normal by apply updateActiveNav_run.
    reflexivity.
  - cbn [navLinks sections terminal footerOrigin logo cornerLogo].
    repeat split; reflexivity.
Qed.

(** X19. The elements the script holds on to. The script completes, and
    what its listeners hold is what the lookups find in the document it
    leaves: the navigation links, the sections with an id, the terminal, the
    footer origin, the logo and the corner logo. Every element of that
    document was in the served one, under the same name and id and with the
    same classes, the class active apart. When nothing stands below the
    elements with the ids [yoe], [crunchr-duration] and [year], so that the
    dynamic texts take no element out of the document, the lookups by id
    and class and the sections are those of the served document. *)
Theorem script_holds_the_served_elements (inherited : string -> option string)
    (tza : Z -> Z) (n1 n2 n3 : JSDate) (w : Window) (p : Page) :
  let found h :=
    getElementById "yoe" (dom p) = Some h \/
    getElementById "crunchr-duration" (dom p) = Some h \/
    getElementById "year" (dom p) = Some h in
  exists s p',
    init inherited tza n1 n2 n3 w p = (Normal s, p') /\
    navLinks s = querySelectorAll sel_nav_a_hash (dom p') /\
    sections s = querySelectorAll sel_section_id (dom p') /\
    terminal s = getElementById "work-terminal" (dom p') /\
    footerOrigin s = querySelector (sel_class "footer-origin") (dom p') /\
    logo s = querySelector (sel_class "logo") (dom p') /\
    cornerLogo s = querySelector (sel_class "corner-logo") (dom p') /\
    (forall h, connected (dom p') h = true -> connected (dom p) h = true) /\
    (forall n h, localNameIs n (dom p') h = localNameIs n (dom p) h) /\
    (forall h, dom p' !! h ≫= idAttr = dom p !! h ≫= idAttr) /\
    (forall c h, c <> "active" -> hasClass (dom p') h c = hasClass (dom p) h c) /\
    ((forall h j, found h -> isDescendantOf (dom p) h j = false) ->
     sections s = querySelectorAll sel_section_id (dom p) /\
     terminal s = getElementById "work-terminal" (dom p) /\
     footerOrigin s = querySelector (sel_class "footer-origin") (dom p) /\
     logo s = querySelector (sel_class "logo") (dom p) /\
     cornerLogo s = querySelector (sel_class "corner-logo") (dom p)).
Proof.
  intros found.
  destruct (init_steps inherited tza n1 n2 n3 w p)
    as (s & Hinit & Hlinks & Hsecs & Hterm & Hfoot & Hlogo & Hcorner).
  set (pa := snd (initSmartLinks inherited w p)) in *.
  set (p1 := snd (dynamicContent tza n1 n2 n3 pa)) in *.
  set (d2 := setActive _ _ (dom p1)) in *.
  (* served document to the one with the smart links *)
  pose proof (initSmartLinks_butHref inherited w p) as Ha. fold pa in Ha.
  assert (Ha_len : length (dom pa) = length (dom p))
    by (apply (agree_length idAttr); intros j; now apply sameButHref_lookup).
  assert (Ha_con : forall j, connected (dom pa) j = connected (dom p) j)
    by (intros j; apply agree_connected; now apply sameButHref_lookup).
  assert (Ha_name : forall n j, localNameIs n (dom pa) j = localNameIs n (dom p) j)
    by (intros n j; apply agree_localName; now apply sameButHref_lookup).
  assert (Ha_id : forall j, dom pa !! j ≫= idAttr = dom p !! j ≫= idAttr)
    by (intros j; apply agree_id; now apply sameButHref_lookup).
  assert (Ha_cls : forall c j, hasClass (dom pa) j c = hasClass (dom p) j c)
    by (intros c j; apply agree_class; now apply sameButHref_lookup).
  assert (Ha_desc : forall h j, isDescendantOf (dom pa) h j = isDescendantOf (dom p) h j).
  { intros h j. unfold isDescendantOf. rewrite Ha_len. f_equal.
    apply agree_ancestors. intros k. now apply sameButHref_lookup. }
  destruct (lookups_agree (dom p) (dom pa) Ha_len Ha_con Ha_name Ha_id
              (fun c j _ => Ha_cls c j)) as (Ha_get & _ & _).
  (* then to the one with the dynamic texts *)
  set (targets := dynamicTargets tza n1 n2 n3 (dom pa)).
  assert (Hp1 : dom p1 = setTexts targets (dom pa))
    by (unfold p1; now rewrite dynamicContent_run).
  assert (Hfound : forall h, h ∈ targets.*1 <-> found h).
  { intros h. unfold targets. rewrite dynamicTargets_fst, !Ha_get. reflexivity. }
  assert (Hb_len : length (dom p1) = length (dom pa))
    by (rewrite Hp1; apply setTexts_length).
  assert (Hb_name : forall n j, localNameIs n (dom p1) j = localNameIs n (dom pa) j)
    by (intros n j; apply agree_localName; rewrite Hp1; apply setTexts_fields).
  assert (Hb_id : forall j, dom p1 !! j ≫= idAttr = dom pa !! j ≫= idAttr)
    by (intros j; apply agree_id; rewrite Hp1; apply setTexts_fields).
  assert (Hb_cls : forall c j, hasClass (dom p1) j c = hasClass (dom pa) j c)
    by (intros c j; apply agree_class; rewrite Hp1; apply setTexts_fields).
  assert (Hb_con : forall j, connected (dom p1) j = true -> connected (dom pa) j = true)
    by (intros j; rewrite Hp1; apply setTexts_connected_mono).
  (* and to the one with the active link *)
  assert (Hattrs : attrs d2 = attrs (dom p1)) by apply attrs_setActive.
  assert (Hc_len : length d2 = length (dom p1)) by now apply attrs_length.
  assert (Hc_con : forall j, connected d2 j = connected (dom p1) j)
    by (intros j; now apply connected_attrs).
  assert (Hc_name : forall n j, localNameIs n d2 j = localNameIs n (dom p1) j)
    by (intros n j; now apply localNameIs_attrs).
  assert (Hc_id : forall j, d2 !! j ≫= idAttr = dom p1 !! j ≫= idAttr)
    by (intros j; now apply attrs_id).
  assert (Hc_cls : forall c j, c <> "active" -> hasClass d2 j c = hasClass (dom p1) j c)
    by (intros c j Hc; now apply hasClass_setActive_other).
  destruct (lookups_agree (dom p1) d2 Hc_len Hc_con Hc_name Hc_id Hc_cls)
    as (Hc_get & Hc_q & Hc_secs).
  eexists s, _. split; [exact Hinit|]. cbn [dom setDom].
  split; [|split; [|split; [|split; [|split; [|split]]]]]; try assumption.
  - rewrite Hlinks. symmetry.
    apply querySelectorAll_ext; [exact Hc_len|exact Hc_con|].
    intros j. now apply sel_nav_a_hash_attrs.
  - now rewrite Hsecs, Hc_secs.
  - split; [|split; [|split; [|split]]].
    + intros h H. rewrite Hc_con in H. apply Hb_con in H. now rewrite Ha_con in H.
    + intros n h. now rewrite Hc_name, Hb_name, Ha_name.
    + intros h. now rewrite Hc_id, Hb_id, Ha_id.
    + intros c h Hc. now rewrite Hc_cls, Hb_cls, Ha_cls.
    + intros Htext.
      assert (Hb_con' : forall j, connected (dom p1) j = connected (dom pa) j).
      { intros j. rewrite Hp1. apply setTexts_connected_same.
        intros t Hin. rewrite Ha_desc. now apply Htext, Hfound. }
      destruct (lookups_agree (dom pa) (dom p1) Hb_len Hb_con' Hb_name Hb_id
                  (fun c j _ => Hb_cls c j)) as (Hb_get & Hb_q & Hb_secs).
      destruct (lookups_agree (dom p) (dom pa) Ha_len Ha_con Ha_name Ha_id
                  (fun c j _ => Ha_cls c j)) as (_ & Ha_q & Ha_secs).
      split; [now rewrite Hsecs, Hb_secs, Ha_secs|].
      split; [now rewrite Hterm, Hc_get, Hb_get, Ha_get|].
      split; [rewrite Hfoot, Hc_q, Hb_q, Ha_q by discriminate; reflexivity|].
      split; [rewrite Hlogo, Hc_q, Hb_q, Ha_q by discriminate; reflexivity|].
      rewrite Hcorner, Hc_q, Hb_q, Ha_q by discriminate. reflexivity.
Qed.

(** On the page whose years of experience stand in a box with a section in
    it, the script is left without that section and without the corner logo
    in it: the first dynamic text has taken them out of the document. *)
Example nested_section_leaves (s : Script) (p' : Page) :
  Demo.load Demo.nested = (Normal s, p') ->
  querySelectorAll sel_section_id Demo.nested = [4%nat; 6%nat] /\
  sections s = [6%nat] /\ observed s = [6%nat] /\ cornerLogo s = None /\
  querySelector (sel_class "corner-logo") Demo.nested = Some 5%nat.
Proof.
  intros H. vm_compute in H. injection H as <- <-. vm_compute. repeat split.
Qed.
